(** * rpki-client: resource certificates and the coverage validator

    A shallow embedding of [cert.c] (certificate parser, serializer, BRK
    aggregation) and [validate.c] (coverage validator, file-name and URI
    predicates), followed by the properties established about them.

    Conventions of the embedding.
    - A C string ([char *]) is an [option string]: [None] is the null
      pointer, [Some s] a NUL-terminated string with contents [s].
    - Machine integers are [Z]; conversions and wrap-around are written out.
    - A function that can leave the defined behaviour of C, or terminate the
      process ([err], [errx], [assert]), returns a [result]. *)

From Stdlib Require Import ZArith List String Ascii Lia Bool.
From stdpp Require Import base option list strings gmap.

Local Open Scope Z_scope.

(* ===================================================================== *)
(** * Part I: the embedding                                               *)
(* ===================================================================== *)

(** ** Outcomes of a C call *)

Inductive result (A : Type) : Type :=
  | Ok (a : A)      (* the call returns *)
  | Exit           (* the process exits: err, errx, failed assert *)
  | Undefined.      (* undefined behaviour, e.g. a null dereference *)

Arguments Ok {A} a.
Arguments Exit {A}.
Arguments Undefined {A}.

#[global] Instance result_ret : MRet result := fun _ a => Ok a.
#[global] Instance result_bind : MBind result := fun _ _ f m =>
  match m with
  | Ok a => f a
  | Exit => Exit
  | Undefined => Undefined
  end.

(** [strdup(p)]: dereferences [p]. *)
Definition strdup (p : option string) : result string :=
  match p with
  | Some s => Ok s
  | None => Undefined
  end.

(** ** <ctype.h> and <string.h> in the C locale *)

Module C.

Definition code (c : ascii) : Z := Z.of_N (N_of_ascii c).

Definition isdigit (c : ascii) : bool := (48 <=? code c) && (code c <=? 57).
Definition isupper (c : ascii) : bool := (65 <=? code c) && (code c <=? 90).
Definition islower (c : ascii) : bool := (97 <=? code c) && (code c <=? 122).
Definition isalnum (c : ascii) : bool := isdigit c || isupper c || islower c.
(* printing characters other than space and the alphanumerics *)
Definition ispunct (c : ascii) : bool :=
  (33 <=? code c) && (code c <=? 126) && negb (isalnum c).

Definition tolower (c : ascii) : Z :=
  if isupper c then code c + 32 else code c.

Definition strlen (s : string) : Z := Z.of_nat (String.length s).

(** [strcasecmp(a, b)]: difference of the first pair of lower-cased
    characters that differ, the terminating NUL counting as 0. *)
Fixpoint strcasecmp (a b : string) : Z :=
  match a, b with
  | EmptyString, EmptyString => 0
  | EmptyString, String y _ => 0 - tolower y
  | String x _, EmptyString => tolower x
  | String x a', String y b' =>
      if tolower x =? tolower y then strcasecmp a' b'
      else tolower x - tolower y
  end.

(** [strncasecmp(a, b, n)]: the same over at most [n] characters. *)
Fixpoint strncasecmp (a b : string) (n : nat) : Z :=
  match n with
  | O => 0
  | S n' =>
      match a, b with
      | EmptyString, EmptyString => 0
      | EmptyString, String y _ => 0 - tolower y
      | String x _, EmptyString => tolower x
      | String x a', String y b' =>
          if tolower x =? tolower y then strncasecmp a' b' n'
          else tolower x - tolower y
      end
  end.

(** [strcmp(a, b)]: difference of the first pair of characters that
    differ, as [unsigned char], the terminating NUL counting as 0. *)
Fixpoint strcmp (a b : string) : Z :=
  match a, b with
  | EmptyString, EmptyString => 0
  | EmptyString, String y _ => 0 - code y
  | String x _, EmptyString => code x
  | String x a', String y b' =>
      if code x =? code y then strcmp a' b' else code x - code y
  end.

(** [strcmp(a, b) == 0] *)
Definition streq (a b : string) : bool := bool_decide (a = b).

(** [strchr(s, c)] and [strrchr(s, c)] for [c <> 0]: offset of the first
    (last) occurrence, [None] for the null pointer. *)
Fixpoint strchr (s : string) (c : ascii) : option nat :=
  match s with
  | EmptyString => None
  | String x s' =>
      if Ascii.eqb x c then Some O else S <$> strchr s' c
  end.

Fixpoint strrchr (s : string) (c : ascii) : option nat :=
  match s with
  | EmptyString => None
  | String x s' =>
      match strrchr s' c with
      | Some i => Some (S i)
      | None => if Ascii.eqb x c then Some O else None
      end
  end.

Fixpoint is_prefix (p s : string) : bool :=
  match p, s with
  | EmptyString, _ => true
  | String _ _, EmptyString => false
  | String x p', String y s' => Ascii.eqb x y && is_prefix p' s'
  end.

(** [strstr(h, n)]: offset of the first occurrence of [n] in [h]. *)
Fixpoint strstr (h n : string) : option nat :=
  if is_prefix n h then Some O
  else match h with
       | EmptyString => None
       | String _ h' => S <$> strstr h' n
       end.

(** [s + k]: the string from offset [k] on. *)
Fixpoint advance (k : nat) (s : string) : string :=
  match k, s with
  | O, _ => s
  | S k', String _ s' => advance k' s'
  | S _, EmptyString => EmptyString
  end.

(** [strndup(d, n)] of a buffer holding no NUL among its first [n] bytes. *)
Fixpoint strndup (d : string) (n : nat) : string :=
  match n, d with
  | S n', String x d' => String x (strndup d' n')
  | _, _ => EmptyString
  end.

End C.

(** ** Integer types (LP64, as on OpenBSD/amd64) *)

Definition UINT32_MAX : Z := 2 ^ 32 - 1.
Definition SIZE_MAX : Z := 2 ^ 64 - 1.

Definition to_uint32 (z : Z) : Z := z mod 2 ^ 32.
Definition to_size_t (z : Z) : Z := z mod 2 ^ 64.
(** conversion to [int]: two's complement wrap-around *)
Definition to_int (z : Z) : Z := (z + 2 ^ 31) mod 2 ^ 32 - 2 ^ 31.
Definition to_time_t (z : Z) : Z := (z + 2 ^ 63) mod 2 ^ 64 - 2 ^ 63.

(** ** The data model of extern.h *)

(** Modelled from the spec: extern.h, which declares the structures and
    enumerations used by cert.c and validate.c, is missing.  The types of
    this section follow the data model of the specification and the fields
    the code reads and writes; the source's type tag and union become one
    inductive type. *)
Inductive afi : Set := AFI_IPV4 | AFI_IPV6.

Inductive cert_purpose : Set :=
  | CERT_PURPOSE_INVALID
  | CERT_PURPOSE_CA
  | CERT_PURPOSE_BGPSEC_ROUTER.

#[global] Instance afi_eq_dec : EqDecision afi.
Proof. solve_decision. Defined.
#[global] Instance cert_purpose_eq_dec : EqDecision cert_purpose.
Proof. solve_decision. Defined.

(** Modelled from the spec: [struct ip_addr], a prefix as its bit length
    and its 16 address bytes. *)
Record ip_addr : Set := mk_ip_addr {
  prefixlen : Z;
  addr : list Z
}.

Record ip_addr_range : Set := mk_ip_addr_range {
  range_min : ip_addr;
  range_max : ip_addr
}.

(** Modelled from the spec: the type tag of [struct cert_ip] together with
    its union. *)
Inductive cert_ip_type : Set :=
  | CERT_IP_ADDR (ip : ip_addr)
  | CERT_IP_RANGE (range : ip_addr_range)
  | CERT_IP_INHERIT.

Record cert_ip : Set := mk_cert_ip {
  ip_afi : afi;
  ip_type : cert_ip_type;
  ip_min : list Z;   (* unsigned char min[16] *)
  ip_max : list Z    (* unsigned char max[16] *)
}.

(** Modelled from the spec: [struct cert_as], the type tag together with
    its union. *)
Inductive cert_as : Set :=
  | CERT_AS_ID (id : Z)
  | CERT_AS_RANGE (min max : Z)
  | CERT_AS_INHERIT.

Definition is_CERT_AS_INHERIT (a : cert_as) : bool :=
  match a with CERT_AS_INHERIT => true | _ => false end.

Definition is_CERT_IP_INHERIT (ip : cert_ip) : bool :=
  match ip_type ip with CERT_IP_INHERIT => true | _ => false end.

(** An extension as the X.509 library hands it out: its NID and its DER
    encoding ([i2d_X509_EXTENSION], [None] when that fails). *)
Inductive NID : Set :=
  | NID_sbgp_ipAddrBlock
  | NID_sbgp_autonomousSysNum
  | NID_sinfo_access
  | NID_crl_distribution_points
  | NID_info_access
  | NID_authority_key_identifier
  | NID_subject_key_identifier
  | NID_ext_key_usage
  | NID_other (n : Z).

#[global] Instance NID_eq_dec : EqDecision NID.
Proof. solve_decision. Defined.

Record X509_EXTENSION : Set := mk_ext {
  ext_nid : NID;
  ext_der : option string
}.

(** Modelled from the spec: the decoded certificate as the X.509 helpers of
    x509.c, which is missing, report it: extension iteration, SKI, AKI,
    AIA, CRL distribution point, notAfter, purpose and subjectPublicKey. *)
Record X509 : Set := mk_X509 {
  X509_exts : list X509_EXTENSION;
  X509_aki : option string;
  X509_ski : option string;
  X509_aia : option string;
  X509_crl : option string;
  X509_expire : Z;
  X509_purpose : cert_purpose;
  X509_pubkey : option string
}.

(** Modelled from the spec: [struct cert]; [ipsz] and [asz] are the
    lengths of [ips] and [as]. *)
Record cert : Set := mk_cert {
  ips : list cert_ip;
  as_ : list cert_as;
  repo : option string;
  mft : option string;
  notify : option string;
  crl : option string;
  aia : option string;
  aki : option string;
  ski : option string;
  tal : option string;
  valid : Z;
  x509 : option X509;
  expires : Z;
  purpose : cert_purpose;
  pubkey : option string
}.

Definition ipsz (c : cert) : Z := Z.of_nat (length (ips c)).
Definition asz (c : cert) : Z := Z.of_nat (length (as_ c)).

(** [calloc(1, sizeof(struct cert))] *)
Definition cert_zero : cert :=
  {| ips := []; as_ := []; repo := None; mft := None; notify := None;
     crl := None; aia := None; aki := None; ski := None; tal := None;
     valid := 0; x509 := None; expires := 0;
     purpose := CERT_PURPOSE_INVALID; pubkey := None |}.

(** Modelled from the spec: [struct roa_ip] and [struct roa], as far as
    the validator uses them. *)
Record roa_ip : Set := mk_roa_ip {
  roa_ip_afi : afi;
  roa_ip_maxlength : Z;
  roa_ip_min : list Z;
  roa_ip_max : list Z;
  roa_ip_addr : ip_addr
}.

Record roa : Set := mk_roa {
  roa_asid : Z;
  roa_ips : list roa_ip;
  roa_valid : Z;
  roa_ski : option string;
  roa_aki : option string;
  roa_tal : option string
}.

(** Modelled from the spec: [struct auth]; the parent link points to
    another node of the same tree, or is null for a trust anchor. *)
#[warnings="-register-all"]
Inductive auth : Set := mk_auth {
  auth_cert : cert;
  auth_parent : option auth;
  auth_tal : option string;
  auth_fn : string
}.

(** [struct auth_tree]: red-black tree ordered by [authcmp], i.e. by
    [strcmp] on the SKI. *)
Abbreviation auth_tree := (gmap string auth).

(** Modelled from the spec: [struct brk], and [struct brk_tree] ordered by
    [brkcmp] on [(asid, ski, pubkey)]. *)
Record brk : Set := mk_brk {
  brk_asid : Z;       (* uint32_t *)
  brk_tal : string;
  brk_ski : string;
  brk_pubkey : string;
  brk_expires : Z
}.

Abbreviation brk_key := (Z * string * string)%type.
Abbreviation brk_tree := (gmap brk_key brk).

Definition brk_key_of (b : brk) : brk_key :=
  (brk_asid b, brk_ski b, brk_pubkey b).

(** ** validate.c *)

(** [auth_find]: [RB_FIND] with a key node whose SKI is [aki].  The
    comparison function dereferences the key, so a null key is only
    harmless on an empty tree. *)
Definition auth_find (auths : auth_tree) (aki : option string)
  : result (option auth) :=
  match aki with
  | Some k => Ok (auths !! k)
  | None => if bool_decide (auths = ∅) then Ok None else Undefined
  end.

Section Coverage.

(** The containment tests live in as.c and ip.c, outside cert.c and
    validate.c; the walks are embedded over any such pair of tests.  Both
    return an [int]: positive, negative or zero. *)
Variable as_check_covered : Z -> Z -> list cert_as -> Z.
Variable ip_addr_check_covered :
  afi -> list Z -> list Z -> list cert_ip -> Z.

(** [valid_as] on a non-null authority. *)
Fixpoint valid_as_at (a : auth) (min max : Z) : Z :=
  match a with
  | mk_auth c parent _ _ =>
      let up :=
        match parent with
        | None => 0
        | Some p => valid_as_at p min max
        end in
      if negb (asz c =? 0) then
        let c' := as_check_covered min max (as_ c) in
        if c' >? 0 then 1
        else if c' <? 0 then 0
        else up
      else up
  end.

Definition valid_as (a : option auth) (min max : Z) : Z :=
  match a with
  | None => 0
  | Some a => valid_as_at a min max
  end.

(** [valid_ip] on a non-null authority. *)
Fixpoint valid_ip_at (a : auth) (afi0 : afi) (min max : list Z) : Z :=
  match a with
  | mk_auth c parent _ _ =>
      let c' := ip_addr_check_covered afi0 min max (ips c) in
      if c' >? 0 then 1
      else if c' <? 0 then 0
      else match parent with
           | None => 0
           | Some p => valid_ip_at p afi0 min max
           end
  end.

Definition valid_ip (a : option auth) (afi0 : afi) (min max : list Z) : Z :=
  match a with
  | None => 0
  | Some a => valid_ip_at a afi0 min max
  end.

Definition valid_ski_aki (fn : string) (auths : auth_tree)
    (ski0 aki0 : option string) : result (option auth) :=
  f ← auth_find auths ski0;
  match f with
  | Some _ => Ok None
  | None => auth_find auths aki0
  end.

Definition valid_ta (fn : string) (auths : auth_tree) (c : cert)
  : result Z :=
  (* AS and IP resources must not inherit. *)
  if negb (asz c =? 0) &&
     match as_ c with
     | a0 :: _ => is_CERT_AS_INHERIT a0
     | [] => false
     end
  then Ok 0
  else if existsb is_CERT_IP_INHERIT (ips c) then Ok 0
  else
    (* SKI must not be a dupe. *)
    f ← auth_find auths (ski c);
    match f with
    | Some _ => Ok 0
    | None => Ok 1
    end.

(** The AS loop of [valid_cert]. *)
Fixpoint valid_cert_as (a : auth) (p : cert_purpose) (l : list cert_as)
  : bool :=
  match l with
  | [] => true
  | CERT_AS_INHERIT :: l' =>
      if bool_decide (p = CERT_PURPOSE_BGPSEC_ROUTER) then false
      else valid_cert_as a p l'
  | CERT_AS_ID id :: l' =>
      if negb (valid_as (Some a) id id =? 0) then valid_cert_as a p l'
      else false
  | CERT_AS_RANGE min max :: l' =>
      if negb (valid_as (Some a) min max =? 0) then valid_cert_as a p l'
      else false
  end.

(** The IP loop of [valid_cert]. *)
Fixpoint valid_cert_ips (a : auth) (l : list cert_ip) : bool :=
  match l with
  | [] => true
  | ip :: l' =>
      if negb (valid_ip (Some a) (ip_afi ip) (ip_min ip) (ip_max ip) =? 0)
      then valid_cert_ips a l'
      else false
  end.

Definition valid_cert (fn : string) (auths : auth_tree) (c : cert)
  : result Z :=
  a ← valid_ski_aki fn auths (ski c) (aki c);
  match a with
  | None => Ok 0
  | Some a =>
      if negb (valid_cert_as a (purpose c) (as_ c)) then Ok 0
      else if negb (valid_cert_ips a (ips c)) then Ok 0
      else Ok 1
  end.

(** The prefix loop of [valid_roa]. *)
Fixpoint valid_roa_ips (a : auth) (l : list roa_ip) : Z :=
  match l with
  | [] => 1
  | ip :: l' =>
      if negb (valid_ip (Some a) (roa_ip_afi ip)
                 (roa_ip_min ip) (roa_ip_max ip) =? 0)
      then valid_roa_ips a l'
      else 0
  end.

(** [valid_roa] returns its [int] together with the ROA as the call
    leaves it. *)
Definition valid_roa (fn : string) (auths : auth_tree) (r : roa)
  : result (Z * roa) :=
  a ← valid_ski_aki fn auths (roa_ski r) (roa_aki r);
  match a with
  | None => Ok (0, r)
  | Some a =>
      t ← strdup (auth_tal a);
      let r' := {| roa_asid := roa_asid r; roa_ips := roa_ips r;
                   roa_valid := roa_valid r; roa_ski := roa_ski r;
                   roa_aki := roa_aki r; roa_tal := Some t |} in
      Ok (valid_roa_ips a (roa_ips r), r')
  end.

End Coverage.

Definition filename_char (c : ascii) : bool :=
  C.isalnum c || Ascii.eqb c "-" || Ascii.eqb c "_" || Ascii.eqb c ".".

Fixpoint filename_chars (s : string) : bool :=
  match s with
  | EmptyString => true
  | String c s' => if negb (filename_char c) then false else filename_chars s'
  end.

Definition valid_filename (fn : string) : Z :=
  let sz := C.strlen fn in
  if sz <? 5 then 0
  else if negb (filename_chars fn) then 0
  else if bool_decide (C.strchr fn "." ≠ C.strrchr fn ".") then 0
  else
    let ext := C.advance (Z.to_nat (sz - 4)) fn in
    if C.strcasecmp ext ".cer" =? 0 then 1
    else if C.strcasecmp ext ".crl" =? 0 then 1
    else if C.strcasecmp ext ".gbr" =? 0 then 1
    else if C.strcasecmp ext ".roa" =? 0 then 1
    else 0.

Fixpoint uri_chars (s : string) : bool :=
  match s with
  | EmptyString => true
  | String c s' =>
      if negb (C.isalnum c) && negb (C.ispunct c) then false else uri_chars s'
  end.

(** [valid_uri(uri, usz, proto)] on a buffer whose first [usz] bytes are
    [uri] and are followed by a NUL, as the ASN.1 library stores its
    strings. *)
Definition valid_uri (uri : string) (proto : option string) : Z :=
  if negb (uri_chars uri) then 0
  else if match proto with
          | Some p =>
              negb (C.strncasecmp uri p (String.length p) =? 0)
          | None => false
          end then 0
  else if bool_decide (C.strstr uri "/." ≠ None) then 0
  else 1.

(** ** cert.c: ASN.1 values as the library hands them out *)

(** [ASN1_BIT_STRING]: the data bytes and the number of unused bits. *)
Record ASN1_BIT_STRING : Set := mk_bit_string {
  bs_data : string;
  bs_unused : Z
}.

(** [ASN1_TYPE]: the type tag together with the member of the value union
    the parser reads for it.  Sequences and explicitly tagged values
    ([V_ASN1_OTHER]) carry their undecoded bytes; an object identifier is
    its content octets, which is what [OBJ_cmp] compares. *)
Inductive ASN1_TYPE : Set :=
  | V_ASN1_OBJECT (object : string)
  | V_ASN1_BOOLEAN (boolean : Z)
  | V_ASN1_INTEGER (integer : Z)
  | V_ASN1_BIT_STRING (bit_string : ASN1_BIT_STRING)
  | V_ASN1_OCTET_STRING (octet_string : string)
  | V_ASN1_NULL
  | V_ASN1_SEQUENCE (asn1_string : string)
  | V_ASN1_OTHER (asn1_string : string)
  | V_ASN1_unhandled (type : Z).

Definition ASID_TYPE_ASNUM : Z := 0.
Definition ASID_TYPE_RDI : Z := 1.
Definition ASID_TYPE_MAX : Z := ASID_TYPE_RDI.

(** Content octets of the three SIA access methods ([cert_init_oid]). *)
Definition carepo_oid : string :=       (* 1.3.6.1.5.5.7.48.5 *)
  "+" +:+ String.string_of_list_ascii
    (map (fun n => ascii_of_nat n) [6; 1; 5; 5; 7; 48; 5]%nat).
Definition mft_oid : string :=          (* 1.3.6.1.5.5.7.48.10 *)
  "+" +:+ String.string_of_list_ascii
    (map (fun n => ascii_of_nat n) [6; 1; 5; 5; 7; 48; 10]%nat).
Definition notify_oid : string :=       (* 1.3.6.1.5.5.7.48.13 *)
  "+" +:+ String.string_of_list_ascii
    (map (fun n => ascii_of_nat n) [6; 1; 5; 5; 7; 48; 13]%nat).

(** [OBJ_cmp(a, b) == 0] *)
Definition OBJ_eq (a b : string) : bool := bool_decide (a = b).

(** The first [n] bytes of a buffer. *)
Fixpoint buf_take (n : nat) (d : string) : string :=
  match n, d with
  | S n', String x d' => String x (buf_take n' d')
  | _, _ => EmptyString
  end.

(** Field updates of [struct cert]. *)
Definition set_ips (v : list cert_ip) (c : cert) : cert :=
  {| ips := v; as_ := as_ c; repo := repo c; mft := mft c;
     notify := notify c; crl := crl c; aia := aia c; aki := aki c;
     ski := ski c; tal := tal c; valid := valid c; x509 := x509 c;
     expires := expires c; purpose := purpose c; pubkey := pubkey c |}.
Definition set_as (v : list cert_as) (c : cert) : cert :=
  {| ips := ips c; as_ := v; repo := repo c; mft := mft c;
     notify := notify c; crl := crl c; aia := aia c; aki := aki c;
     ski := ski c; tal := tal c; valid := valid c; x509 := x509 c;
     expires := expires c; purpose := purpose c; pubkey := pubkey c |}.
Definition set_repo (v : option string) (c : cert) : cert :=
  {| ips := ips c; as_ := as_ c; repo := v; mft := mft c;
     notify := notify c; crl := crl c; aia := aia c; aki := aki c;
     ski := ski c; tal := tal c; valid := valid c; x509 := x509 c;
     expires := expires c; purpose := purpose c; pubkey := pubkey c |}.
Definition set_mft (v : option string) (c : cert) : cert :=
  {| ips := ips c; as_ := as_ c; repo := repo c; mft := v;
     notify := notify c; crl := crl c; aia := aia c; aki := aki c;
     ski := ski c; tal := tal c; valid := valid c; x509 := x509 c;
     expires := expires c; purpose := purpose c; pubkey := pubkey c |}.
Definition set_notify (v : option string) (c : cert) : cert :=
  {| ips := ips c; as_ := as_ c; repo := repo c; mft := mft c;
     notify := v; crl := crl c; aia := aia c; aki := aki c;
     ski := ski c; tal := tal c; valid := valid c; x509 := x509 c;
     expires := expires c; purpose := purpose c; pubkey := pubkey c |}.
Definition set_pubkey (v : option string) (c : cert) : cert :=
  {| ips := ips c; as_ := as_ c; repo := repo c; mft := mft c;
     notify := notify c; crl := crl c; aia := aia c; aki := aki c;
     ski := ski c; tal := tal c; valid := valid c; x509 := x509 c;
     expires := expires c; purpose := purpose c; pubkey := v |}.
Definition set_x509 (v : option X509) (c : cert) : cert :=
  {| ips := ips c; as_ := as_ c; repo := repo c; mft := mft c;
     notify := notify c; crl := crl c; aia := aia c; aki := aki c;
     ski := ski c; tal := tal c; valid := valid c; x509 := v;
     expires := expires c; purpose := purpose c; pubkey := pubkey c |}.

(** The assignments of [cert_parse_inner] after the extension loop. *)
Definition set_identity (x : X509) (ta : bool) (c : cert) : cert :=
  {| ips := ips c; as_ := as_ c; repo := repo c; mft := mft c;
     notify := notify c;
     crl := if ta then crl c else X509_crl x;
     aia := if ta then aia c else X509_aia x;
     aki := X509_aki x;
     ski := X509_ski x;
     tal := tal c; valid := valid c; x509 := x509 c;
     expires := X509_expire x; purpose := X509_purpose x;
     pubkey := pubkey c |}.

Section Parser.

(** ASN.1 decoding is done by the crypto library, and the AS and IP
    primitives live in as.c, ip.c and x509.c, outside cert.c and
    validate.c: the parser is embedded over any of them.  A decoder
    returns [None] where the C function returns null or zero. *)
Variable d2i_X509 : string -> option X509.
Variable d2i_ASN1_SEQUENCE_ANY : string -> option (list ASN1_TYPE).
Variable d2i_ASN1_TYPE : string -> option ASN1_TYPE.
(** [ASN1_frame(fn, sz, &d, &plen, &ptag)]: the advanced [d], [plen]
    and [ptag]. *)
Variable ASN1_frame : string -> option (string * Z * Z).
Variable OBJ_obj2nid : string -> NID.
Variable as_id_parse : Z -> option Z.
Variable as_check_overlap : cert_as -> list cert_as -> bool.
Variable ip_addr_afi_parse : string -> option afi.
Variable ip_addr_parse : ASN1_BIT_STRING -> afi -> option ip_addr.
Variable ip_cert_compose_ranges : cert_ip -> option cert_ip.
Variable ip_addr_check_overlap : cert_ip -> list cert_ip -> bool.

(** A parsing function returns [Ok (Some p)] for a non-zero return with
    the parse state [p->res] it leaves, and [Ok None] for zero. *)
Definition append_ip (p : cert) (ip : cert_ip) : option cert :=
  if negb (ip_addr_check_overlap ip (ips p)) then None
  else Some (set_ips (ips p ++ [ip]) p).

Definition append_as (p : cert) (a : cert_as) : option cert :=
  if negb (as_check_overlap a (as_ p)) then None
  else Some (set_as (as_ p ++ [a]) p).

Definition zero_addr : list Z := replicate 16 0.

Definition sbgp_addr (p : cert) (afi0 : afi) (bs : ASN1_BIT_STRING)
  : option cert :=
  match ip_addr_parse bs afi0 with
  | None => None
  | Some a =>
      match ip_cert_compose_ranges
              (mk_cert_ip afi0 (CERT_IP_ADDR a) zero_addr zero_addr) with
      | None => None
      | Some ip => append_ip p ip
      end
  end.

Definition sbgp_sia_resource_notify (p : cert) (d : string) (dsz : Z)
  : option cert :=
  let uri := buf_take (Z.to_nat dsz) d in
  if bool_decide (notify p ≠ None) then None
  else if valid_uri uri (Some "https://") =? 0 then None
  else Some (set_notify (Some uri) p).

Definition sbgp_sia_resource_mft (p : cert) (d : string) (dsz : Z)
  : option cert :=
  let uri := buf_take (Z.to_nat dsz) d in
  if bool_decide (mft p ≠ None) then None
  else if valid_uri uri (Some "rsync://") =? 0 then None
  else if (dsz <? 4) ||
          negb (C.strcasecmp (C.advance (Z.to_nat (dsz - 4)) uri) ".mft"
                =? 0)
  then None
  else Some (set_mft (Some uri) p).

Definition sbgp_sia_resource_carepo (p : cert) (d : string) (dsz : Z)
  : option cert :=
  let uri := buf_take (Z.to_nat dsz) d in
  if bool_decide (repo p ≠ None) then None
  else if valid_uri uri (Some "rsync://") =? 0 then None
  else Some (set_repo (Some uri) p).

Definition sbgp_sia_resource_entry (p : cert) (d : string) : option cert :=
  match d2i_ASN1_SEQUENCE_ANY d with
  | Some [V_ASN1_OBJECT oid; V_ASN1_OTHER data] =>
      match ASN1_frame data with
      | None => None
      | Some (d', plen, ptag) =>
          if OBJ_eq oid carepo_oid then sbgp_sia_resource_carepo p d' plen
          else if OBJ_eq oid mft_oid then sbgp_sia_resource_mft p d' plen
          else if OBJ_eq oid notify_oid
          then sbgp_sia_resource_notify p d' plen
          else Some p      (* silently ignore *)
      end
  | _ => None
  end.

(** The loop of [sbgp_sia_resource] over the accessDescriptions. *)
Fixpoint sbgp_sia_entries (p : cert) (seq : list ASN1_TYPE) : option cert :=
  match seq with
  | [] => Some p
  | V_ASN1_SEQUENCE d :: seq' =>
      match sbgp_sia_resource_entry p d with
      | None => None
      | Some p' => sbgp_sia_entries p' seq'
      end
  | _ :: _ => None
  end.

Definition sbgp_sia_resource (p : cert) (d : string)
  : result (option cert) :=
  match d2i_ASN1_SEQUENCE_ANY d with
  | None => Ok None
  | Some seq =>
      match sbgp_sia_entries p seq with
      | None => Ok None
      | Some p' =>
          (* strstr(p->res->mft, p->res->repo) != p->res->mft *)
          match mft p', repo p' with
          | Some m, Some r =>
              if bool_decide (C.strstr m r ≠ Some O) then Ok None
              else Ok (Some p')
          | _, _ => Undefined
          end
      end
  end.

Definition sbgp_sia (p : cert) (ext : X509_EXTENSION)
  : result (option cert) :=
  match ext_der ext with
  | None => Ok None
  | Some sv =>
      match d2i_ASN1_SEQUENCE_ANY sv with
      | Some [V_ASN1_OBJECT obj; V_ASN1_OCTET_STRING d] =>
          if bool_decide (OBJ_obj2nid obj ≠ NID_sinfo_access) then Ok None
          else sbgp_sia_resource p d
      | _ => Ok None
      end
  end.

Definition sbgp_asrange (p : cert) (d : string) : option cert :=
  match d2i_ASN1_SEQUENCE_ANY d with
  | Some [V_ASN1_INTEGER i0; V_ASN1_INTEGER i1] =>
      match as_id_parse i0 with
      | None => None
      | Some min =>
          match as_id_parse i1 with
          | None => None
          | Some max =>
              if max =? min then None
              else if max <? min then None
              else append_as p (CERT_AS_RANGE min max)
          end
      end
  | _ => None
  end.

Definition sbgp_asid (p : cert) (i : Z) : option cert :=
  match as_id_parse i with
  | None => None
  | Some id =>
      if id =? 0 then None else append_as p (CERT_AS_ID id)
  end.

(** The loop of [sbgp_asnum] over the ASIdOrRange elements. *)
Fixpoint sbgp_asnum_elems (p : cert) (seq : list ASN1_TYPE) : option cert :=
  match seq with
  | [] => Some p
  | V_ASN1_INTEGER i :: seq' =>
      match sbgp_asid p i with
      | None => None
      | Some p' => sbgp_asnum_elems p' seq'
      end
  | V_ASN1_SEQUENCE d :: seq' =>
      match sbgp_asrange p d with
      | None => None
      | Some p' => sbgp_asnum_elems p' seq'
      end
  | _ :: _ => None
  end.

Definition sbgp_asnum (p : cert) (d : string) : option cert :=
  match d2i_ASN1_TYPE d with
  | Some V_ASN1_NULL => append_as p CERT_AS_INHERIT
  | Some (V_ASN1_SEQUENCE _) =>
      match d2i_ASN1_SEQUENCE_ANY d with
      | None => None
      | Some seq => sbgp_asnum_elems p seq
      end
  | _ => None
  end.

(** The loop of [sbgp_assysnum] over the tagged ASIdentifiers. *)
Fixpoint sbgp_assysnum_elems (p : cert) (sseq : list ASN1_TYPE)
  : option cert :=
  match sseq with
  | [] => Some p
  | V_ASN1_OTHER data :: sseq' =>
      match ASN1_frame data with
      | None => None
      | Some (d, plen, ptag) =>
          if ptag >? ASID_TYPE_MAX then None
          else if ptag =? ASID_TYPE_RDI then sbgp_assysnum_elems p sseq'
          else
            match sbgp_asnum p (buf_take (Z.to_nat plen) d) with
            | None => None
            | Some p' => sbgp_assysnum_elems p' sseq'
            end
      end
  | _ :: _ => None
  end.

Definition sbgp_assysnum (p : cert) (ext : X509_EXTENSION) : option cert :=
  match ext_der ext with
  | None => None
  | Some sv =>
      match d2i_ASN1_SEQUENCE_ANY sv with
      | Some [V_ASN1_OBJECT _; V_ASN1_BOOLEAN _; V_ASN1_OCTET_STRING d] =>
          match d2i_ASN1_SEQUENCE_ANY d with
          | None => None
          | Some sseq => sbgp_assysnum_elems p sseq
          end
      | _ => None
      end
  end.

Definition sbgp_addr_range (p : cert) (afi0 : afi) (d : string)
  : option cert :=
  match d2i_ASN1_SEQUENCE_ANY d with
  | Some [V_ASN1_BIT_STRING b0; V_ASN1_BIT_STRING b1] =>
      match ip_addr_parse b0 afi0 with
      | None => None
      | Some lo =>
          match ip_addr_parse b1 afi0 with
          | None => None
          | Some hi =>
              match ip_cert_compose_ranges
                      (mk_cert_ip afi0
                         (CERT_IP_RANGE (mk_ip_addr_range lo hi))
                         zero_addr zero_addr) with
              | None => None
              | Some ip => append_ip p ip
              end
          end
      end
  | _ => None
  end.

(** The loop of [sbgp_addr_or_range]. *)
Fixpoint sbgp_addr_or_range_elems (p : cert) (afi0 : afi)
    (seq : list ASN1_TYPE) : option cert :=
  match seq with
  | [] => Some p
  | V_ASN1_BIT_STRING bs :: seq' =>
      match sbgp_addr p afi0 bs with
      | None => None
      | Some p' => sbgp_addr_or_range_elems p' afi0 seq'
      end
  | V_ASN1_SEQUENCE d :: seq' =>
      match sbgp_addr_range p afi0 d with
      | None => None
      | Some p' => sbgp_addr_or_range_elems p' afi0 seq'
      end
  | _ :: _ => None
  end.

Definition sbgp_addr_or_range (p : cert) (afi0 : afi) (d : string)
  : option cert :=
  match d2i_ASN1_SEQUENCE_ANY d with
  | None => None
  | Some seq => sbgp_addr_or_range_elems p afi0 seq
  end.

Definition sbgp_ipaddrfam (p : cert) (d : string) : option cert :=
  match d2i_ASN1_SEQUENCE_ANY d with
  | Some [V_ASN1_OCTET_STRING fam; t] =>
      match ip_addr_afi_parse fam with
      | None => None
      | Some afi0 =>
          match t with
          | V_ASN1_SEQUENCE d' => sbgp_addr_or_range p afi0 d'
          | V_ASN1_NULL =>
              append_ip p
                (mk_cert_ip afi0 CERT_IP_INHERIT zero_addr zero_addr)
          | _ => None
          end
      end
  | _ => None
  end.

(** The loop of [sbgp_ipaddrblk] over the address families. *)
Fixpoint sbgp_ipaddrblk_elems (p : cert) (sseq : list ASN1_TYPE)
  : option cert :=
  match sseq with
  | [] => Some p
  | V_ASN1_SEQUENCE d :: sseq' =>
      match sbgp_ipaddrfam p d with
      | None => None
      | Some p' => sbgp_ipaddrblk_elems p' sseq'
      end
  | _ :: _ => None
  end.

Definition sbgp_ipaddrblk (p : cert) (ext : X509_EXTENSION) : option cert :=
  match ext_der ext with
  | None => None
  | Some sv =>
      match d2i_ASN1_SEQUENCE_ANY sv with
      | Some [V_ASN1_OBJECT _; V_ASN1_BOOLEAN _; V_ASN1_OCTET_STRING d] =>
          match d2i_ASN1_SEQUENCE_ANY d with
          | None => None
          | Some sseq => sbgp_ipaddrblk_elems p sseq
          end
      | _ => None
      end
  end.

(** The extension loop of [cert_parse_inner]: the parse state and the
    flag [sia_present]. *)
Fixpoint cert_parse_exts (p : cert) (sia_present : bool)
    (exts : list X509_EXTENSION) : result (option (cert * bool)) :=
  match exts with
  | [] => Ok (Some (p, sia_present))
  | ext :: exts' =>
      match ext_nid ext with
      | NID_sbgp_ipAddrBlock =>
          match sbgp_ipaddrblk p ext with
          | None => Ok None
          | Some p' => cert_parse_exts p' sia_present exts'
          end
      | NID_sbgp_autonomousSysNum =>
          match sbgp_assysnum p ext with
          | None => Ok None
          | Some p' => cert_parse_exts p' sia_present exts'
          end
      | NID_sinfo_access =>
          c ← sbgp_sia p ext;
          match c with
          | None => Ok None
          | Some p' => cert_parse_exts p' true exts'
          end
      | _ => cert_parse_exts p sia_present exts'
      end
  end.

(** The validation of [cert_parse_inner] on the required fields; [true]
    stands for reaching [rc = 1]. *)
Definition cert_parse_checks (x : X509) (ta : bool) (sia_present : bool)
    (p0 : cert) : option cert :=
  let p := set_identity x ta p0 in
  match
    match purpose p with
    | CERT_PURPOSE_CA =>
        if bool_decide (mft p = None) then None
        else if (asz p =? 0) && (ipsz p =? 0) then None
        else Some p
    | CERT_PURPOSE_BGPSEC_ROUTER =>
        let p1 := set_pubkey (X509_pubkey x) p in
        if bool_decide (pubkey p1 = None) then None
        else if ipsz p1 >? 0 then None
        else if sia_present then None
        else Some p1
    | CERT_PURPOSE_INVALID => None
    end
  with
  | None => None
  | Some p =>
      match ski p with
      | None => None
      | Some s =>
          if ta && match aki p with
                   | Some a => negb (C.streq a s)
                   | None => false
                   end
          then None
          else if negb ta && bool_decide (aki p = None) then None
          else if negb ta && match aki p with
                             | Some a => C.streq a s
                             | None => false
                             end
          then None
          else if negb ta && bool_decide (aia p = None) then None
          else if ta && bool_decide (aia p ≠ None) then None
          else if ta && bool_decide (crl p ≠ None) then None
          else Some (set_x509 (Some x) p)
      end
  end.

Definition cert_parse_inner (fn : string) (der : option string) (ta : bool)
  : result (option cert) :=
  match der with
  | None => Ok None
  | Some der =>
      match d2i_X509 der with
      | None => Ok None
      | Some x =>
          r ← cert_parse_exts cert_zero false (X509_exts x);
          match r with
          | None => Ok None
          | Some (p, sia_present) =>
              Ok (cert_parse_checks x ta sia_present p)
          end
      end
  end.

Definition cert_parse (fn : string) (der : option string)
  : result (option cert) :=
  cert_parse_inner fn der false.

End Parser.

(** ** cert.c: the IPC stream *)

(** An [ibuf] is the sequence of its bytes; writing appends, reading
    consumes from the front. *)
Abbreviation ibuf := (list Z) (only parsing).

(** Little-endian object representation of an integer of [n] bytes (two's
    complement for negative values) and the value of such bytes. *)
Fixpoint le_bytes (n : nat) (v : Z) : list Z :=
  match n with
  | O => []
  | S n' => v mod 256 :: le_bytes n' (v / 256)
  end.

Fixpoint le_value (bs : list Z) : Z :=
  match bs with
  | [] => 0
  | b :: bs' => b + 256 * le_value bs'
  end.

Definition sizeof_int : nat := 4.
Definition sizeof_enum : nat := 4.
Definition sizeof_uint32_t : nat := 4.
Definition sizeof_time_t : nat := 8.
Definition sizeof_size_t : nat := 8.

(** Modelled from the spec: io.c is missing.
    [io_simple_buffer] appends the bytes of an object to the stream. *)
Definition io_simple_buffer (b : ibuf) (obj : list Z) : ibuf := b ++ obj.

(** Modelled from the spec: [io_read_buf] takes [sz] bytes off the stream
    and ends the process when the stream is too short. *)
Definition io_read_buf (b : ibuf) (sz : nat) : result (list Z * ibuf) :=
  if (length b <? sz)%nat then Exit else Ok (take sz b, drop sz b).

Definition bytes_of_string (s : string) : list Z :=
  map C.code (String.list_ascii_of_string s).

Definition string_of_bytes (bs : list Z) : string :=
  String.string_of_list_ascii (map (fun z => ascii_of_N (Z.to_N z)) bs).

(** Modelled from the spec: strings are length-prefixed; a null pointer is
    written as length zero. *)
Definition io_str_buffer (b : ibuf) (p : option string) : ibuf :=
  match p with
  | None => io_simple_buffer b (le_bytes sizeof_size_t 0)
  | Some s =>
      io_simple_buffer
        (io_simple_buffer b (le_bytes sizeof_size_t (C.strlen s)))
        (bytes_of_string s)
  end.

(** Modelled from the spec: the reader of a length-prefixed string; length
    zero reads as the null pointer. *)
Definition io_read_str (b : ibuf) : result (option string * ibuf) :=
  '(szb, b1) ← io_read_buf b sizeof_size_t;
  let sz := le_value szb in
  if sz =? 0 then Ok (None, b1)
  else
    '(sb, b2) ← io_read_buf b1 (Z.to_nat sz);
    Ok (Some (string_of_bytes sb), b2).

(** Modelled from the spec: the values of the enumerations of extern.h;
    the stream only needs them to be distinct. *)
Definition afi_val (a : afi) : Z :=
  match a with AFI_IPV4 => 1 | AFI_IPV6 => 2 end.
Definition afi_of_val (v : Z) : option afi :=
  if v =? 1 then Some AFI_IPV4 else if v =? 2 then Some AFI_IPV6 else None.

Definition purpose_val (p : cert_purpose) : Z :=
  match p with
  | CERT_PURPOSE_INVALID => 0
  | CERT_PURPOSE_CA => 1
  | CERT_PURPOSE_BGPSEC_ROUTER => 2
  end.
Definition purpose_of_val (v : Z) : option cert_purpose :=
  if v =? 0 then Some CERT_PURPOSE_INVALID
  else if v =? 1 then Some CERT_PURPOSE_CA
  else if v =? 2 then Some CERT_PURPOSE_BGPSEC_ROUTER
  else None.

Definition TAG_IP_ADDR : Z := 0.
Definition TAG_IP_INHERIT : Z := 1.
Definition TAG_IP_RANGE : Z := 2.
Definition TAG_AS_ID : Z := 0.
Definition TAG_AS_INHERIT : Z := 1.
Definition TAG_AS_RANGE : Z := 2.

Definition ip_type_val (t : cert_ip_type) : Z :=
  match t with
  | CERT_IP_ADDR _ => TAG_IP_ADDR
  | CERT_IP_INHERIT => TAG_IP_INHERIT
  | CERT_IP_RANGE _ => TAG_IP_RANGE
  end.

Definition as_type_val (a : cert_as) : Z :=
  match a with
  | CERT_AS_ID _ => TAG_AS_ID
  | CERT_AS_INHERIT => TAG_AS_INHERIT
  | CERT_AS_RANGE _ _ => TAG_AS_RANGE
  end.

(** Modelled from the spec: ip.c is missing.  The address payload is the
    prefix length followed by the address bytes. *)
Definition ip_addr_buffer (b : ibuf) (p : ip_addr) : ibuf :=
  io_simple_buffer (io_simple_buffer b (le_bytes 1 (prefixlen p))) (addr p).

(** Modelled from the spec: a range payload is its two addresses. *)
Definition ip_addr_range_buffer (b : ibuf) (p : ip_addr_range) : ibuf :=
  ip_addr_buffer (ip_addr_buffer b (range_min p)) (range_max p).

(** Modelled from the spec: the reader of an address payload. *)
Definition ip_addr_read (b : ibuf) : result (ip_addr * ibuf) :=
  '(lb, b1) ← io_read_buf b 1;
  '(ab, b2) ← io_read_buf b1 16;
  Ok (mk_ip_addr (le_value lb) ab, b2).

(** Modelled from the spec: the reader of a range payload. *)
Definition ip_addr_range_read (b : ibuf) : result (ip_addr_range * ibuf) :=
  '(lo, b1) ← ip_addr_read b;
  '(hi, b2) ← ip_addr_read b1;
  Ok (mk_ip_addr_range lo hi, b2).

Definition cert_ip_buffer (b : ibuf) (p : cert_ip) : ibuf :=
  let b := io_simple_buffer b (le_bytes sizeof_enum (afi_val (ip_afi p))) in
  let b :=
    io_simple_buffer b (le_bytes sizeof_enum (ip_type_val (ip_type p))) in
  let b :=
    match ip_type p with
    | CERT_IP_INHERIT => b
    | _ => io_simple_buffer (io_simple_buffer b (ip_min p)) (ip_max p)
    end in
  match ip_type p with
  | CERT_IP_RANGE r => ip_addr_range_buffer b r
  | CERT_IP_ADDR a => ip_addr_buffer b a
  | CERT_IP_INHERIT => b
  end.

Definition cert_as_buffer (b : ibuf) (p : cert_as) : ibuf :=
  let b := io_simple_buffer b (le_bytes sizeof_enum (as_type_val p)) in
  match p with
  | CERT_AS_RANGE min max =>
      io_simple_buffer
        (io_simple_buffer b (le_bytes sizeof_uint32_t min))
        (le_bytes sizeof_uint32_t max)
  | CERT_AS_ID id => io_simple_buffer b (le_bytes sizeof_uint32_t id)
  | CERT_AS_INHERIT => b
  end.

Definition cert_buffer (b : ibuf) (p : cert) : ibuf :=
  let b := io_simple_buffer b (le_bytes sizeof_int (valid p)) in
  let b := io_simple_buffer b (le_bytes sizeof_time_t (expires p)) in
  let b := io_simple_buffer b (le_bytes sizeof_enum (purpose_val (purpose p))) in
  let b := io_simple_buffer b (le_bytes sizeof_size_t (ipsz p)) in
  let b := fold_left cert_ip_buffer (ips p) b in
  let b := io_simple_buffer b (le_bytes sizeof_size_t (asz p)) in
  let b := fold_left cert_as_buffer (as_ p) b in
  let b := io_str_buffer b (mft p) in
  let b := io_str_buffer b (notify p) in
  let b := io_str_buffer b (repo p) in
  let b := io_str_buffer b (crl p) in
  let b := io_str_buffer b (aia p) in
  let b := io_str_buffer b (aki p) in
  let b := io_str_buffer b (ski p) in
  let b := io_str_buffer b (tal p) in
  io_str_buffer b (pubkey p).

(** The readers store what they read into zeroed memory ([calloc]).  A tag
    outside its enumeration has no counterpart in the data model; the
    readers are embedded as [Undefined] on such a stream. *)
Definition cert_ip_read (b : ibuf) : result (cert_ip * ibuf) :=
  '(ab, b1) ← io_read_buf b sizeof_enum;
  '(tb, b2) ← io_read_buf b1 sizeof_enum;
  match afi_of_val (le_value ab) with
  | None => Undefined
  | Some afi0 =>
      let t := le_value tb in
      '(mn, mx, b3) ←
        (if negb (t =? TAG_IP_INHERIT) then
           '(mn, b') ← io_read_buf b2 16;
           '(mx, b'') ← io_read_buf b' 16;
           Ok (mn, mx, b'')
         else Ok (replicate 16 0, replicate 16 0, b2));
      if t =? TAG_IP_RANGE then
        '(r, b4) ← ip_addr_range_read b3;
        Ok (mk_cert_ip afi0 (CERT_IP_RANGE r) mn mx, b4)
      else if t =? TAG_IP_ADDR then
        '(a, b4) ← ip_addr_read b3;
        Ok (mk_cert_ip afi0 (CERT_IP_ADDR a) mn mx, b4)
      else if t =? TAG_IP_INHERIT then
        Ok (mk_cert_ip afi0 CERT_IP_INHERIT mn mx, b3)
      else Undefined
  end.

Definition cert_as_read (b : ibuf) : result (cert_as * ibuf) :=
  '(tb, b1) ← io_read_buf b sizeof_enum;
  let t := le_value tb in
  if t =? TAG_AS_RANGE then
    '(mn, b2) ← io_read_buf b1 sizeof_uint32_t;
    '(mx, b3) ← io_read_buf b2 sizeof_uint32_t;
    Ok (CERT_AS_RANGE (le_value mn) (le_value mx), b3)
  else if t =? TAG_AS_ID then
    '(i, b2) ← io_read_buf b1 sizeof_uint32_t;
    Ok (CERT_AS_ID (le_value i), b2)
  else if t =? TAG_AS_INHERIT then Ok (CERT_AS_INHERIT, b1)
  else Undefined.

(** [for (i = 0; i < n; i++) rd(b, &arr[i])] *)
Fixpoint read_array {A : Type} (rd : ibuf -> result (A * ibuf))
    (n : nat) (b : ibuf) : result (list A * ibuf) :=
  match n with
  | O => Ok ([], b)
  | S n' =>
      '(x, b1) ← rd b;
      '(xs, b2) ← read_array rd n' b1;
      Ok (x :: xs, b2)
  end.

(** [cert_read] returns the record and the rest of the stream. *)
Definition cert_read (b : ibuf) : result (cert * ibuf) :=
  '(vb, b) ← io_read_buf b sizeof_int;
  '(eb, b) ← io_read_buf b sizeof_time_t;
  '(pb, b) ← io_read_buf b sizeof_enum;
  '(nb, b) ← io_read_buf b sizeof_size_t;
  '(ips0, b) ← read_array cert_ip_read (Z.to_nat (le_value nb)) b;
  '(mb, b) ← io_read_buf b sizeof_size_t;
  '(as0, b) ← read_array cert_as_read (Z.to_nat (le_value mb)) b;
  '(mft0, b) ← io_read_str b;
  '(notify0, b) ← io_read_str b;
  '(repo0, b) ← io_read_str b;
  '(crl0, b) ← io_read_str b;
  '(aia0, b) ← io_read_str b;
  '(aki0, b) ← io_read_str b;
  '(ski0, b) ← io_read_str b;
  '(tal0, b) ← io_read_str b;
  '(pubkey0, b) ← io_read_str b;
  match purpose_of_val (le_value pb) with
  | None => Undefined
  | Some pu =>
      if negb (bool_decide (mft0 ≠ None) ||
               bool_decide (pu = CERT_PURPOSE_BGPSEC_ROUTER))
      then Exit
      else if bool_decide (ski0 = None) then Exit
      else
        Ok ({| ips := ips0; as_ := as0; repo := repo0; mft := mft0;
               notify := notify0; crl := crl0; aia := aia0; aki := aki0;
               ski := ski0; tal := tal0; valid := to_int (le_value vb);
               x509 := None; expires := to_time_t (le_value eb);
               purpose := pu; pubkey := pubkey0 |}, b)
  end.

(** ** cert.c: BGPsec router keys *)

Definition insert_brk (tree : brk_tree) (c : cert) (asid : Z)
  : result brk_tree :=
  t ← strdup (tal c);
  s ← strdup (ski c);
  k ← strdup (pubkey c);
  let b := {| brk_asid := to_uint32 asid; brk_tal := t; brk_ski := s;
              brk_pubkey := k; brk_expires := expires c |} in
  (* RB_INSERT returns the node already stored under the key, if any *)
  match tree !! brk_key_of b with
  | Some found =>
      if brk_expires found <? brk_expires b then
        Ok (<[brk_key_of b :=
               {| brk_asid := brk_asid found; brk_tal := brk_tal b;
                  brk_ski := brk_ski found; brk_pubkey := brk_pubkey found;
                  brk_expires := brk_expires b |}]> tree)
      else Ok tree
  | None => Ok (<[brk_key_of b := b]> tree)
  end.

(** The expansion loop of [cert_insert_brks]
    [for (asid = min; asid <= max; asid++) insert_brk(tree, cert, asid)]
    with a [size_t] counter.  It returns the tree and the number of
    iterations performed on top of [n]; [None] when the fuel runs out. *)
Fixpoint brk_range_loop (fuel : nat) (tree : brk_tree) (c : cert)
    (asid max : Z) (n : nat) : option (result (brk_tree * nat)) :=
  match fuel with
  | O => None
  | S fuel' =>
      if asid <=? max then
        match insert_brk tree c (to_int asid) with
        | Ok tree' =>
            brk_range_loop fuel' tree' c (to_size_t (asid + 1)) max (S n)
        | Exit => Some Exit
        | Undefined => Some Undefined
        end
      else Some (Ok (tree, n))
  end.

(** [cert_insert_brks]; every expansion loop runs on [fuel]. *)
Fixpoint cert_insert_brks_as (fuel : nat) (tree : brk_tree) (c : cert)
    (l : list cert_as) : option (result brk_tree) :=
  match l with
  | [] => Some (Ok tree)
  | CERT_AS_ID id :: l' =>
      match insert_brk tree c (to_int id) with
      | Ok tree' => cert_insert_brks_as fuel tree' c l'
      | Exit => Some Exit
      | Undefined => Some Undefined
      end
  | CERT_AS_RANGE min max :: l' =>
      match brk_range_loop fuel tree c min max O with
      | None => None
      | Some (Ok (tree', _)) => cert_insert_brks_as fuel tree' c l'
      | Some Exit => Some Exit
      | Some Undefined => Some Undefined
      end
  | CERT_AS_INHERIT :: l' =>
      (* warnx("invalid AS identifier type") *)
      cert_insert_brks_as fuel tree c l'
  end.

Definition cert_insert_brks (fuel : nat) (tree : brk_tree) (c : cert)
  : option (result brk_tree) :=
  cert_insert_brks_as fuel tree c (as_ c).

(** ** Notions used to state the properties *)

(** *** The coverage walk, in the words of the specification *)

(** The three answers of a containment test. *)
Inductive answer : Set := Covered | Refused | Indeterminate.

Definition classify (c : Z) : answer :=
  if c >? 0 then Covered else if c <? 0 then Refused else Indeterminate.

(** The authorities met walking the parent links upward, nearest first. *)
Fixpoint ancestors (a : auth) : list auth :=
  match a with
  | mk_auth _ parent _ _ =>
      a :: match parent with
           | None => []
           | Some p => ancestors p
           end
  end.

Definition chain (a : option auth) : list auth :=
  match a with
  | None => []
  | Some a => ancestors a
  end.

(** The answer of the first ancestor that gives a definitive one. *)
Fixpoint first_definitive (l : list answer) : option answer :=
  match l with
  | [] => None
  | Indeterminate :: l' => first_definitive l'
  | x :: _ => Some x
  end.

(** The verdict of a walk: 1 when the first definitive answer is positive,
    0 when it is negative or the chain ends without one. *)
Definition walk_verdict (l : list answer) : Z :=
  match first_definitive l with
  | Some Covered => 1
  | _ => 0
  end.

(** The answer of one ancestor for an AS interval: indeterminate when its
    AS set is empty, otherwise what the containment test says. *)
Definition as_answer (as_check_covered : Z -> Z -> list cert_as -> Z)
    (min max : Z) (a : auth) : answer :=
  if asz (auth_cert a) =? 0 then Indeterminate
  else classify (as_check_covered min max (as_ (auth_cert a))).

Definition ip_answer
    (ip_addr_check_covered : afi -> list Z -> list Z -> list cert_ip -> Z)
    (afi0 : afi) (min max : list Z) (a : auth) : answer :=
  classify (ip_addr_check_covered afi0 min max (ips (auth_cert a))).

(** A ROA prefix is covered by the chain starting at [a]. *)
Definition roa_ip_covered
    (ip_addr_check_covered : afi -> list Z -> list Z -> list cert_ip -> Z)
    (a : auth) (ip : roa_ip) : Prop :=
  valid_ip ip_addr_check_covered (Some a)
    (roa_ip_afi ip) (roa_ip_min ip) (roa_ip_max ip) = 1.

(** *** File names, in the words of the specification *)

Definition in_filename_class (c : ascii) : Prop :=
  (65 <= C.code c <= 90) \/ (97 <= C.code c <= 122) \/
  (48 <= C.code c <= 57) \/ c = "."%char \/ c = "_"%char \/ c = "-"%char.

Fixpoint chars (s : string) : list ascii :=
  match s with
  | EmptyString => []
  | String c s' => c :: chars s'
  end.

(** Number of occurrences of a character. *)
Definition occurrences (c : ascii) (s : string) : nat :=
  length (filter (fun x => x = c) (chars s)).

(** [a] and [b] are the same letter, in either case. *)
Definition same_letter (a b : ascii) : Prop :=
  a = b \/ C.code a = C.code b - 32.

(** [fn] ends in a dot followed by the three letters, in either case. *)
Definition ends_in_ext (fn : string) (e1 e2 e3 : ascii) : Prop :=
  exists pre c1 c2 c3,
    fn = pre +:+ String "." (String c1 (String c2 (String c3 EmptyString)))
    /\ same_letter c1 e1 /\ same_letter c2 e2 /\ same_letter c3 e3.

Definition valid_filename_spec (fn : string) : Prop :=
  (5 <= String.length fn)%nat /\
  Forall in_filename_class (chars fn) /\
  occurrences "." fn = 1%nat /\
  (ends_in_ext fn "c" "e" "r" \/ ends_in_ext fn "c" "r" "l" \/
   ends_in_ext fn "g" "b" "r" \/ ends_in_ext fn "r" "o" "a").

(** *** Byte prefixes *)

Definition byte_prefix (r m : string) : Prop := exists t, m = r +:+ t.

(** The SIA pointers of a parse state are in shape: both are present and
    the repository is a byte prefix of the manifest. *)
Definition sia_ok (p : cert) : Prop :=
  exists m r, mft p = Some m /\ repo p = Some r /\ byte_prefix r m.

(** Two parse states with the same SIA pointers. *)
Definition same_sia (p p' : cert) : Prop :=
  mft p' = mft p /\ repo p' = repo p.

Definition is_sia_ext (ext : X509_EXTENSION) : Prop :=
  ext_nid ext = NID_sinfo_access.

(** The breaches of the identity rules that the parser refuses: a trust
    anchor whose AKI is not its SKI; any other certificate without AKI,
    with an AKI equal to its SKI, or without AIA.  A trust anchor that
    carries an AIA or a CRL distribution point is not among them. *)
Definition identity_refused (ta : bool) (x : X509) : Prop :=
  if ta then exists a, X509_aki x = Some a /\ X509_ski x <> Some a
  else X509_aki x = None \/
       (exists a, X509_aki x = Some a /\ X509_ski x = Some a) \/
       X509_aia x = None.

(** The X.509 object [x] with the AIA [a] and the CRL distribution point
    [c] in place of its own. *)
Definition with_aia_crl (a c : option string) (x : X509) : X509 :=
  {| X509_exts := X509_exts x; X509_aki := X509_aki x;
     X509_ski := X509_ski x; X509_aia := a; X509_crl := c;
     X509_expire := X509_expire x; X509_purpose := X509_purpose x;
     X509_pubkey := X509_pubkey x |}.

(** The outcome of a parse, the X.509 handle of the record apart. *)
Definition outcome (r : result (option cert)) : result (option cert) :=
  match r with
  | Ok (Some c) => Ok (Some (set_x509 None c))
  | _ => r
  end.

(** *** Records that fit the IPC stream *)

Definition str_wire_ok (s : option string) : bool :=
  match s with
  | None => true
  | Some s => (0 <? C.strlen s) && (C.strlen s <=? SIZE_MAX)
  end.

Definition ip_addr_wire_ok (a : ip_addr) : bool :=
  (0 <=? prefixlen a) && (prefixlen a <=? 255) &&
  bool_decide (length (addr a) = 16%nat).

Definition cert_ip_wire_ok (p : cert_ip) : bool :=
  match ip_type p with
  | CERT_IP_INHERIT =>
      bool_decide (ip_min p = replicate 16 0) &&
      bool_decide (ip_max p = replicate 16 0)
  | CERT_IP_ADDR a =>
      bool_decide (length (ip_min p) = 16%nat) &&
      bool_decide (length (ip_max p) = 16%nat) && ip_addr_wire_ok a
  | CERT_IP_RANGE r =>
      bool_decide (length (ip_min p) = 16%nat) &&
      bool_decide (length (ip_max p) = 16%nat) &&
      ip_addr_wire_ok (range_min r) && ip_addr_wire_ok (range_max r)
  end.

Definition is_uint32 (z : Z) : bool := (0 <=? z) && (z <=? UINT32_MAX).

Definition cert_as_wire_ok (a : cert_as) : bool :=
  match a with
  | CERT_AS_ID id => is_uint32 id
  | CERT_AS_RANGE min max => is_uint32 min && is_uint32 max
  | CERT_AS_INHERIT => true
  end.

(** The fields hold values of their C types, an inheriting IP entry has
    its [min] and [max] zeroed as the parser leaves them, no string is
    empty, and the assertions of [cert_read] hold. *)
Definition cert_wire_ok (c : cert) : bool :=
  (- 2 ^ 31 <=? valid c) && (valid c <? 2 ^ 31) &&
  (- 2 ^ 63 <=? expires c) && (expires c <? 2 ^ 63) &&
  (ipsz c <=? SIZE_MAX) && (asz c <=? SIZE_MAX) &&
  forallb cert_ip_wire_ok (ips c) && forallb cert_as_wire_ok (as_ c) &&
  str_wire_ok (mft c) && str_wire_ok (notify c) && str_wire_ok (repo c) &&
  str_wire_ok (crl c) && str_wire_ok (aia c) && str_wire_ok (aki c) &&
  str_wire_ok (ski c) && str_wire_ok (tal c) && str_wire_ok (pubkey c) &&
  (bool_decide (mft c ≠ None) ||
   bool_decide (purpose c = CERT_PURPOSE_BGPSEC_ROUTER)) &&
  bool_decide (ski c ≠ None).

(** *** The BRKs a certificate gives rise to *)

(** The successive values of the counter of the expansion loop for which
    its body runs. *)
Fixpoint range_asids (fuel : nat) (asid max : Z) : option (list Z) :=
  match fuel with
  | O => None
  | S fuel' =>
      if asid <=? max then
        cons asid <$> range_asids fuel' (to_size_t (asid + 1)) max
      else Some []
  end.

(** The arguments of the calls to [insert_brk], in order. *)
Fixpoint brk_asids (fuel : nat) (l : list cert_as) : option (list Z) :=
  match l with
  | [] => Some []
  | CERT_AS_ID id :: l' => cons id <$> brk_asids fuel l'
  | CERT_AS_RANGE min max :: l' =>
      match range_asids fuel min max, brk_asids fuel l' with
      | Some r, Some t => Some (r ++ t)
      | _, _ => None
      end
  | CERT_AS_INHERIT :: l' => brk_asids fuel l'
  end.

(** One [insert_brk] after the other. *)
Fixpoint insert_brks (tree : brk_tree) (c : cert) (l : list Z)
  : result brk_tree :=
  match l with
  | [] => Ok tree
  | asid :: l' =>
      tree' ← insert_brk tree c (to_int asid);
      insert_brks tree' c l'
  end.

(** Fuel that lets every expansion loop of a certificate run to its end:
    one more than the longest range has numbers. *)
Fixpoint brk_fuel (l : list cert_as) : Z :=
  match l with
  | [] => 1
  | CERT_AS_RANGE min max :: l' => Z.max (max - min + 2) (brk_fuel l')
  | _ :: l' => brk_fuel l'
  end.

Definition as_entry_uint32 (a : cert_as) : Prop :=
  match a with
  | CERT_AS_ID id => 0 <= id <= UINT32_MAX
  | CERT_AS_RANGE min max => 0 <= min <= UINT32_MAX /\ 0 <= max <= UINT32_MAX
  | CERT_AS_INHERIT => True
  end.

(** ** The collaborators of cert.c and validate.c, for running the code *)

Module SpecModel.

(** Modelled from the spec: as.c is missing.
    The AS containment test: a set that inherits has nothing to say, a
    set with an entry around [min, max] covers, any other set refuses. *)
Fixpoint as_check_covered (min max : Z) (l : list cert_as) : Z :=
  match l with
  | [] => -1
  | CERT_AS_INHERIT :: _ => 0
  | CERT_AS_ID id :: l' =>
      if (id <=? min) && (max <=? id) then 1
      else as_check_covered min max l'
  | CERT_AS_RANGE amin amax :: l' =>
      if (amin <=? min) && (max <=? amax) then 1
      else as_check_covered min max l'
  end.

(** [memcmp(a, b, n)] *)
Fixpoint memcmp (a b : list Z) (n : nat) : Z :=
  match n, a, b with
  | S n', x :: a', y :: b' => if x =? y then memcmp a' b' n' else x - y
  | _, _, _ => 0
  end.

Definition afi_width (a : afi) : nat :=
  match a with AFI_IPV4 => 4%nat | AFI_IPV6 => 16%nat end.

(** Modelled from the spec: ip.c is missing.
    The IP containment test compares [min] and [max] byte-wise over the
    width of the AFI; a set with no entry for the AFI, or inheriting
    for it, has nothing to say. *)
Fixpoint ip_covered_in (afi0 : afi) (min max : list Z) (l : list cert_ip)
    (seen : bool) : Z :=
  match l with
  | [] => if seen then -1 else 0
  | ip :: l' =>
      if negb (bool_decide (ip_afi ip = afi0))
      then ip_covered_in afi0 min max l' seen
      else if is_CERT_IP_INHERIT ip then 0
      else if (memcmp (ip_min ip) min (afi_width afi0) <=? 0) &&
              (0 <=? memcmp (ip_max ip) max (afi_width afi0))
      then 1
      else ip_covered_in afi0 min max l' true
  end.

Definition ip_addr_check_covered (afi0 : afi) (min max : list Z)
    (l : list cert_ip) : Z :=
  ip_covered_in afi0 min max l false.

(** Modelled from the spec: an AS identifier is a 32-bit number. *)
Definition as_id_parse (i : Z) : option Z :=
  if (0 <=? i) && (i <=? UINT32_MAX) then Some i else None.

Definition as_bounds (a : cert_as) : option (Z * Z) :=
  match a with
  | CERT_AS_ID id => Some (id, id)
  | CERT_AS_RANGE min max => Some (min, max)
  | CERT_AS_INHERIT => None
  end.

(** Modelled from the spec: the accumulator refuses an entry that
    overlaps an entry of the set and a second inherit. *)
Definition as_check_overlap (a : cert_as) (l : list cert_as) : bool :=
  match as_bounds a with
  | None => negb (existsb is_CERT_AS_INHERIT l)
  | Some (lo, hi) =>
      forallb (fun b =>
                 match as_bounds b with
                 | None => true
                 | Some (blo, bhi) => (hi <? blo) || (bhi <? lo)
                 end) l
  end.

(** Modelled from the spec: the AFI tag is the two-byte family number. *)
Definition ip_addr_afi_parse (d : string) : option afi :=
  match map C.code (chars d) with
  | [0; 1] => Some AFI_IPV4
  | [0; 2] => Some AFI_IPV6
  | _ => None
  end.

Definition pad16 (l : list Z) (fill : Z) : list Z :=
  take 16 (l ++ replicate 16 fill).

(** Modelled from the spec: a bit string with [k] significant bits is a
    prefix of length [k]. *)
Definition ip_addr_parse (bs : ASN1_BIT_STRING) (afi0 : afi)
  : option ip_addr :=
  let n := String.length (bs_data bs) in
  if negb ((0 <=? bs_unused bs) && (bs_unused bs <=? 7)) then None
  else if (afi_width afi0 <? n)%nat then None
  else if (n =? 0)%nat && negb (bs_unused bs =? 0) then None
  else Some (mk_ip_addr (8 * Z.of_nat n - bs_unused bs)
               (pad16 (map C.code (chars (bs_data bs))) 0)).

(** The address with the bits after the prefix set to [bit]. *)
Definition fill_host (a : ip_addr) (w : nat) (bit : bool) : list Z :=
  imap (fun i b =>
          let lo := 8 * Z.of_nat i in
          if (w <=? i)%nat then 0
          else if prefixlen a <=? lo then (if bit then 255 else 0)
          else if lo + 8 <=? prefixlen a then b
          else
            let host := Z.ones (lo + 8 - prefixlen a) in
            if bit then Z.lor b host else Z.land b (Z.lxor 255 host))
       (addr a).

(** Modelled from the spec: [min] is the prefix padded with zeros, [max]
    the same with the trailing bits set; a range needs [min <= max]. *)
Definition ip_cert_compose_ranges (p : cert_ip) : option cert_ip :=
  let w := afi_width (ip_afi p) in
  match ip_type p with
  | CERT_IP_ADDR a =>
      Some (mk_cert_ip (ip_afi p) (ip_type p)
              (fill_host a w false) (fill_host a w true))
  | CERT_IP_RANGE r =>
      let lo := fill_host (range_min r) w false in
      let hi := fill_host (range_max r) w true in
      if 0 <? memcmp lo hi w then None
      else Some (mk_cert_ip (ip_afi p) (ip_type p) lo hi)
  | CERT_IP_INHERIT => Some p
  end.

(** Modelled from the spec: the accumulator refuses an entry whose
    interval meets that of a non-inherit entry of the same AFI, and a
    second inherit per AFI. *)
Definition ip_addr_check_overlap (p : cert_ip) (l : list cert_ip) : bool :=
  let w := afi_width (ip_afi p) in
  forallb (fun q =>
             if negb (bool_decide (ip_afi q = ip_afi p)) then true
             else if is_CERT_IP_INHERIT p then negb (is_CERT_IP_INHERIT q)
             else if is_CERT_IP_INHERIT q then true
             else (memcmp (ip_max p) (ip_min q) w <? 0) ||
                  (memcmp (ip_max q) (ip_min p) w <? 0)) l.

End SpecModel.

(** A reader of definite-length DER, standing in for the ASN.1 functions of
    the crypto library where the code is run on concrete bytes. *)
Module Der.

Definition bytes (l : list Z) : string := string_of_bytes l.

(** Tag, header length and content length of the first value. *)
Definition header (d : string) : option (Z * nat * nat) :=
  match map C.code (chars (buf_take 4 d)) with
  | t :: l :: rest =>
      if l <? 128 then Some (t, 2%nat, Z.to_nat l)
      else match l, rest with
           | 129, l1 :: _ => Some (t, 3%nat, Z.to_nat l1)
           | 130, l1 :: l2 :: _ => Some (t, 4%nat, Z.to_nat (256 * l1 + l2))
           | _, _ => None
           end
  | _ => None
  end.

Fixpoint be_value (l : list Z) (acc : Z) : Z :=
  match l with
  | [] => acc
  | b :: l' => be_value l' (256 * acc + b)
  end.

Definition integer_value (content : string) : Z :=
  let l := map C.code (chars content) in
  match l with
  | b :: _ =>
      if 128 <=? b then be_value l 0 - 256 ^ Z.of_nat (length l)
      else be_value l 0
  | [] => 0
  end.

(** The [ASN1_TYPE] of a value: a universal tag gives the type of that
    tag, a tag of another class gives [V_ASN1_OTHER]. *)
Definition element (tag : Z) (tlv content : string) : ASN1_TYPE :=
  if tag =? 1 then V_ASN1_BOOLEAN (integer_value content)
  else if tag =? 2 then V_ASN1_INTEGER (integer_value content)
  else if tag =? 3 then
    match content with
    | String u data => V_ASN1_BIT_STRING (mk_bit_string data (C.code u))
    | EmptyString => V_ASN1_unhandled tag
    end
  else if tag =? 4 then V_ASN1_OCTET_STRING content
  else if tag =? 5 then V_ASN1_NULL
  else if tag =? 6 then V_ASN1_OBJECT content
  else if tag =? 48 then V_ASN1_SEQUENCE tlv
  else if tag <? 64 then V_ASN1_unhandled tag
  else V_ASN1_OTHER tlv.

Definition first (d : string) : option (ASN1_TYPE * string) :=
  match header d with
  | Some (tag, h, n) =>
      if (String.length d <? h + n)%nat then None
      else Some (element tag (buf_take (h + n) d)
                   (buf_take n (C.advance h d)),
                 C.advance (h + n) d)
  | None => None
  end.

Fixpoint elements (fuel : nat) (d : string) : option (list ASN1_TYPE) :=
  match d, fuel with
  | EmptyString, _ => Some []
  | _, O => None
  | _, S fuel' =>
      match first d with
      | Some (t, d') => cons t <$> elements fuel' d'
      | None => None
      end
  end.

Definition d2i_ASN1_TYPE (d : string) : option ASN1_TYPE :=
  fst <$> first d.

Definition d2i_ASN1_SEQUENCE_ANY (d : string) : option (list ASN1_TYPE) :=
  match header d with
  | Some (48, h, n) =>
      if (String.length d <? h + n)%nat then None
      else elements (String.length d) (buf_take n (C.advance h d))
  | _ => None
  end.

Definition ASN1_frame (d : string) : option (string * Z * Z) :=
  match header d with
  | Some (tag, h, n) =>
      if (String.length d <? h + n)%nat then None
      else Some (C.advance h d, Z.of_nat n, Z.land tag 31)
  | None => None
  end.

Definition sinfo_access_oid : string :=      (* 1.3.6.1.5.5.7.1.11 *)
  bytes [43; 6; 1; 5; 5; 7; 1; 11].

Definition OBJ_obj2nid (obj : string) : NID :=
  if OBJ_eq obj sinfo_access_oid then NID_sinfo_access else NID_other 0.

(** Writers, to spell out the inputs below. *)
Definition tlv (tag : Z) (content : string) : string :=
  bytes [tag; C.strlen content] +:+ content.
Definition seq (l : list string) : string :=
  tlv 48 (fold_right String.append EmptyString l).
Definition oid (content : string) : string := tlv 6 content.
Definition uri (s : string) : string := tlv 134 s.   (* [6] IA5String *)

End Der.

(** ** Concrete objects *)

Module Sample.

Definition v4 (a b c d : Z) : list Z := [a; b; c; d] ++ replicate 12 0.

(** 10.0.0.0/8 *)
Definition ip_10_8 : cert_ip :=
  mk_cert_ip AFI_IPV4 (CERT_IP_ADDR (mk_ip_addr 8 (v4 10 0 0 0)))
    (v4 10 0 0 0) (v4 10 255 255 255).

(** The trust anchor of scenario S1: IP {10.0.0.0/8}, AS {64500}. *)
Definition ta_x509 : X509 :=
  {| X509_exts := []; X509_aki := None; X509_ski := Some "TA:SKI";
     X509_aia := None; X509_crl := None; X509_expire := 1700000000;
     X509_purpose := CERT_PURPOSE_CA; X509_pubkey := None |}.

Definition ta_cert : cert :=
  {| ips := [ip_10_8]; as_ := [CERT_AS_ID 64500];
     repo := Some "rsync://rpki.example.net/repo/";
     mft := Some "rsync://rpki.example.net/repo/ta.mft";
     notify := None; crl := None; aia := None; aki := None;
     ski := Some "TA:SKI"; tal := Some "example"; valid := 1;
     x509 := Some ta_x509; expires := 1700000000;
     purpose := CERT_PURPOSE_CA; pubkey := None |}.

Definition ta_auth : auth :=
  {| auth_cert := ta_cert; auth_parent := None;
     auth_tal := Some "example"; auth_fn := "ta.cer" |}.

Definition auths : auth_tree := {[ "TA:SKI" := ta_auth ]}.

(** A would-be trust anchor whose AS set inherits at its second entry. *)
Definition ta_inherit_second : cert :=
  {| ips := [ip_10_8]; as_ := [CERT_AS_ID 64500; CERT_AS_INHERIT];
     repo := Some "rsync://rpki.example.net/repo/";
     mft := Some "rsync://rpki.example.net/repo/ta.mft";
     notify := None; crl := None; aia := None; aki := None;
     ski := Some "TA2:SKI"; tal := None; valid := 0;
     x509 := None; expires := 1700000000;
     purpose := CERT_PURPOSE_CA; pubkey := None |}.

(** A ROA under the trust anchor asserting 11.1.0.0/16, as in S5. *)
Definition roa_11_1_16 : roa :=
  {| roa_asid := 64500;
     roa_ips := [ {| roa_ip_afi := AFI_IPV4; roa_ip_maxlength := 16;
                     roa_ip_min := v4 11 1 0 0;
                     roa_ip_max := v4 11 1 255 255;
                     roa_ip_addr := mk_ip_addr 16 (v4 11 1 0 0) |} ];
     roa_valid := 0; roa_ski := Some "ROA:SKI";
     roa_aki := Some "TA:SKI"; roa_tal := None |}.

(** A ROA under the trust anchor asserting 10.1.0.0/24. *)
Definition roa_10_1_24 : roa :=
  {| roa_asid := 64500;
     roa_ips := [ {| roa_ip_afi := AFI_IPV4; roa_ip_maxlength := 24;
                     roa_ip_min := v4 10 1 0 0;
                     roa_ip_max := v4 10 1 0 255;
                     roa_ip_addr := mk_ip_addr 24 (v4 10 1 0 0) |} ];
     roa_valid := 0; roa_ski := Some "ROA:SKI";
     roa_aki := Some "TA:SKI"; roa_tal := None |}.

(** An SIA payload with the single accessDescription rpkiNotify. *)
Definition sia_notify_only : string :=
  Der.seq [ Der.seq [ Der.oid notify_oid;
                      Der.uri "https://rrdp.example.net/notify.xml" ] ].

(** An SIA payload with caRepository and rpkiManifest. *)
Definition sia_repo_mft : string :=
  Der.seq [ Der.seq [ Der.oid carepo_oid;
                      Der.uri "rsync://rpki.example.net/repo/" ];
            Der.seq [ Der.oid mft_oid;
                      Der.uri "rsync://rpki.example.net/repo/ca.mft" ] ].

(** The same with a manifest outside the repository. *)
Definition sia_mft_elsewhere : string :=
  Der.seq [ Der.seq [ Der.oid carepo_oid;
                      Der.uri "rsync://rpki.example.net/repo/" ];
            Der.seq [ Der.oid mft_oid;
                      Der.uri "rsync://rpki.example.net/other/ca.mft" ] ].

Definition sia_ext (payload : string) : X509_EXTENSION :=
  {| ext_nid := NID_sinfo_access;
     ext_der := Some (Der.seq [ Der.oid Der.sinfo_access_oid;
                                Der.tlv 4 payload ]) |}.

(** autonomousSysNum { asnum [0] { 64500 } }, critical *)
Definition as_ext : X509_EXTENSION :=
  {| ext_nid := NID_sbgp_autonomousSysNum;
     ext_der :=
       Some (Der.seq
               [ Der.oid (Der.bytes [43; 6; 1; 5; 5; 7; 1; 8]);
                 Der.tlv 1 (Der.bytes [255]);
                 Der.tlv 4
                   (Der.seq
                      [ Der.tlv 160
                          (Der.seq
                             [ Der.tlv 2 (Der.bytes [0; 251; 244]) ]) ])
               ]) |}.

(** A CA certificate below the trust anchor. *)
Definition ca_x509 : X509 :=
  {| X509_exts := [as_ext; sia_ext sia_repo_mft];
     X509_aki := Some "TA:SKI"; X509_ski := Some "CA:SKI";
     X509_aia := Some "rsync://rpki.example.net/repo/ta.cer";
     X509_crl := Some "rsync://rpki.example.net/repo/ta.crl";
     X509_expire := 1700000000;
     X509_purpose := CERT_PURPOSE_CA; X509_pubkey := None |}.

Definition ca_der : string := "ca.der".

(** autonomousSysNum { asnum [0] { 64500 }, asnum [0] inherit }, critical *)
Definition as_ext_id_then_inherit : X509_EXTENSION :=
  {| ext_nid := NID_sbgp_autonomousSysNum;
     ext_der :=
       Some (Der.seq
               [ Der.oid (Der.bytes [43; 6; 1; 5; 5; 7; 1; 8]);
                 Der.tlv 1 (Der.bytes [255]);
                 Der.tlv 4
                   (Der.seq
                      [ Der.tlv 160
                          (Der.seq
                             [ Der.tlv 2 (Der.bytes [0; 251; 244]) ]);
                        Der.tlv 160 (Der.tlv 5 EmptyString) ])
               ]) |}.

(** A self-signed certificate with that extension. *)
Definition ta2_x509 : X509 :=
  {| X509_exts := [as_ext_id_then_inherit; sia_ext sia_repo_mft];
     X509_aki := Some "TA2:SKI"; X509_ski := Some "TA2:SKI";
     X509_aia := None; X509_crl := None;
     X509_expire := 1700000000;
     X509_purpose := CERT_PURPOSE_CA; X509_pubkey := None |}.

Definition ta2_der : string := "ta2.der".

(** A self-signed certificate that carries an AIA and a CRL distribution
    point. *)
Definition ta3_x509 : X509 :=
  {| X509_exts := [as_ext; sia_ext sia_repo_mft];
     X509_aki := None; X509_ski := Some "TA3:SKI";
     X509_aia := Some "rsync://rpki.example.net/repo/ta3.cer";
     X509_crl := Some "rsync://rpki.example.net/repo/ta3.crl";
     X509_expire := 1700000000;
     X509_purpose := CERT_PURPOSE_CA; X509_pubkey := None |}.

Definition ta3_der : string := "ta3.der".

(** The certificate decoder, on the certificates above. *)
Definition d2i_X509 (der : string) : option X509 :=
  if bool_decide (der = ca_der) then Some ca_x509
  else if bool_decide (der = ta2_der) then Some ta2_x509
  else if bool_decide (der = ta3_der) then Some ta3_x509
  else None.

(** The certificates of scenarios S2 and S3, below the trust anchor. *)
Definition child_10_1_16 : cert :=
  {| ips := [ mk_cert_ip AFI_IPV4
                (CERT_IP_ADDR (mk_ip_addr 16 (v4 10 1 0 0)))
                (v4 10 1 0 0) (v4 10 1 255 255) ];
     as_ := [CERT_AS_ID 64500];
     repo := Some "rsync://rpki.example.net/repo/ca/";
     mft := Some "rsync://rpki.example.net/repo/ca/ca.mft";
     notify := None;
     crl := Some "rsync://rpki.example.net/repo/ta.crl";
     aia := Some "rsync://rpki.example.net/repo/ta.cer";
     aki := Some "TA:SKI"; ski := Some "CA:SKI"; tal := None; valid := 0;
     x509 := None; expires := 1700000000;
     purpose := CERT_PURPOSE_CA; pubkey := None |}.

Definition child_11_8 : cert :=
  set_ips [ mk_cert_ip AFI_IPV4
              (CERT_IP_ADDR (mk_ip_addr 8 (v4 11 0 0 0)))
              (v4 11 0 0 0) (v4 11 255 255 255) ] child_10_1_16.

Definition cert_parse_inner :=
  cert_parse_inner d2i_X509 Der.d2i_ASN1_SEQUENCE_ANY Der.d2i_ASN1_TYPE
    Der.ASN1_frame Der.OBJ_obj2nid SpecModel.as_id_parse
    SpecModel.as_check_overlap SpecModel.ip_addr_afi_parse
    SpecModel.ip_addr_parse SpecModel.ip_cert_compose_ranges
    SpecModel.ip_addr_check_overlap.

Definition sbgp_sia_resource :=
  sbgp_sia_resource Der.d2i_ASN1_SEQUENCE_ANY Der.ASN1_frame.

(** A BGPsec router certificate as the validator hands it on. *)
Definition router_cert : cert :=
  {| ips := []; as_ := [CERT_AS_RANGE 64500 64502; CERT_AS_ID 64510];
     repo := None; mft := None; notify := None;
     crl := Some "rsync://rpki.example.net/repo/ca.crl";
     aia := Some "rsync://rpki.example.net/repo/ca.cer";
     aki := Some "CA:SKI"; ski := Some "RTR:SKI";
     tal := Some "example"; valid := 1; x509 := None;
     expires := 1700000000;
     purpose := CERT_PURPOSE_BGPSEC_ROUTER; pubkey := Some "MFkw" |}.

(** A BRK stored earlier for AS 64501 of the same router key. *)
Definition brk_64501 : brk :=
  {| brk_asid := 64501; brk_tal := "older"; brk_ski := "RTR:SKI";
     brk_pubkey := "MFkw"; brk_expires := 1600000000 |}.

Definition brks : brk_tree := {[ brk_key_of brk_64501 := brk_64501 ]}.

End Sample.

(** ** Notions for the further properties *)

(** *** URIs *)

(** A printing character other than the space. *)
Definition uri_char (c : ascii) : Prop := 33 <= C.code c <= 126.

Definition same_char_ci (a b : ascii) : Prop := C.tolower a = C.tolower b.

(** [uri] starts with [p], letter case apart. *)
Definition has_proto (uri p : string) : Prop :=
  exists pre rest,
    uri = pre +:+ rest /\ Forall2 same_char_ci (chars pre) (chars p).

(** [n] occurs in [h]. *)
Definition occurs_in (n h : string) : Prop :=
  exists pre suf, h = pre +:+ (n +:+ suf).

(** *** Coverage of the resources of a certificate *)

Definition cert_as_covered (as_check_covered : Z -> Z -> list cert_as -> Z)
    (a : auth) (pu : cert_purpose) (e : cert_as) : Prop :=
  match e with
  | CERT_AS_INHERIT => pu <> CERT_PURPOSE_BGPSEC_ROUTER
  | CERT_AS_ID id => valid_as as_check_covered (Some a) id id = 1
  | CERT_AS_RANGE min max => valid_as as_check_covered (Some a) min max = 1
  end.

Definition cert_ip_covered
    (ip_addr_check_covered : afi -> list Z -> list Z -> list cert_ip -> Z)
    (a : auth) (ip : cert_ip) : Prop :=
  valid_ip ip_addr_check_covered (Some a)
    (ip_afi ip) (ip_min ip) (ip_max ip) = 1.

(** *** What the parser builds *)

(** An AS entry as [sbgp_asid] and [sbgp_asrange] let it through. *)
Definition as_entry_parsed (e : cert_as) : Prop :=
  match e with
  | CERT_AS_ID id => id <> 0
  | CERT_AS_RANGE min max => min < max
  | CERT_AS_INHERIT => True
  end.

(** An IP entry as the parser appends it: an inherit with zeroed [min] and
    [max], or what [ip_cert_compose_ranges] returned for an address or a
    range whose [min] and [max] were still zeroed. *)
Definition ip_entry_parsed (ip_cert_compose_ranges : cert_ip -> option cert_ip)
    (ip : cert_ip) : Prop :=
  (ip_type ip = CERT_IP_INHERIT /\
   ip_min ip = replicate 16 0 /\ ip_max ip = replicate 16 0) \/
  exists q,
    ip_type q <> CERT_IP_INHERIT /\
    ip_min q = replicate 16 0 /\ ip_max q = replicate 16 0 /\
    ip_cert_compose_ranges q = Some ip.

(** [ip_cert_compose_ranges] fills in [min] and [max] of the entry it is
    given: what it returns has the type of that entry. *)
Definition compose_keeps_type
    (ip_cert_compose_ranges : cert_ip -> option cert_ip) : Prop :=
  forall q ip, ip_cert_compose_ranges q = Some ip -> ip_type ip = ip_type q.

(** An inheriting IP entry has zeroed [min] and [max]. *)
Definition inherit_zeroed (ip : cert_ip) : Prop :=
  ip_type ip = CERT_IP_INHERIT ->
  ip_min ip = replicate 16 0 /\ ip_max ip = replicate 16 0.

(** [l'] is [l] followed by entries that each satisfied [ok] and passed
    the check [chk] against all entries before them. *)
Inductive built {A : Type} (chk : A -> list A -> bool) (ok : A -> Prop)
    (l : list A) : list A -> Prop :=
  | built_refl : built chk ok l l
  | built_snoc (l' : list A) (a : A) :
      built chk ok l l' -> ok a -> chk a l' = true ->
      built chk ok l (l' ++ [a]).

(** Every entry of [l] passed the check against the entries before it. *)
Definition accumulated {A : Type} (chk : A -> list A -> bool) (l : list A)
  : Prop :=
  forall (i : nat) (a : A), l !! i = Some a -> chk a (take i l) = true.

(** Two parse states that differ at most in the AS set, in the IP set, in
    the SIA pointers. *)
Definition same_but_as (p p' : cert) : Prop := set_as [] p' = set_as [] p.
Definition same_but_ips (p p' : cert) : Prop := set_ips [] p' = set_ips [] p.
Definition same_but_sia (p p' : cert) : Prop :=
  set_mft None (set_repo None (set_notify None p')) =
  set_mft None (set_repo None (set_notify None p)).

(** The SIA pointers of a parse state are well-formed URIs. *)
Definition mft_uri_ok (m : string) : Prop :=
  valid_uri m (Some "rsync://") = 1 /\ ends_in_ext m "m" "f" "t".

Definition sia_uris (p : cert) : Prop :=
  (forall m, mft p = Some m -> mft_uri_ok m) /\
  (forall r, repo p = Some r -> valid_uri r (Some "rsync://") = 1) /\
  (forall n, notify p = Some n -> valid_uri n (Some "https://") = 1).

(** A pointer, once set, stays as it is. *)
Definition sia_kept (p p' : cert) : Prop :=
  (forall m, mft p = Some m -> mft p' = Some m) /\
  (forall r, repo p = Some r -> repo p' = Some r) /\
  (forall n, notify p = Some n -> notify p' = Some n).

(** The extensions the dispatcher of [cert_parse_inner] hands to a parser. *)
Definition ext_handled (ext : X509_EXTENSION) : bool :=
  match ext_nid ext with
  | NID_sbgp_ipAddrBlock | NID_sbgp_autonomousSysNum | NID_sinfo_access =>
      true
  | _ => false
  end.

Definition is_sia_extb (ext : X509_EXTENSION) : bool :=
  bool_decide (ext_nid ext = NID_sinfo_access).

(** One step of the AS parser: only the AS set changes, by appending
    entries that are well-formed and passed the overlap check.  Likewise
    for the IP parser and for the SIA parser. *)
Definition as_step (as_check_overlap : cert_as -> list cert_as -> bool)
    (p p' : cert) : Prop :=
  same_but_as p p' /\
  built as_check_overlap as_entry_parsed (as_ p) (as_ p').

Definition ip_step (ip_addr_check_overlap : cert_ip -> list cert_ip -> bool)
    (ip_cert_compose_ranges : cert_ip -> option cert_ip)
    (p p' : cert) : Prop :=
  same_but_ips p p' /\
  built ip_addr_check_overlap (ip_entry_parsed ip_cert_compose_ranges)
    (ips p) (ips p').

Definition sia_step (p p' : cert) : Prop :=
  same_but_sia p p' /\ sia_kept p p' /\ (sia_uris p -> sia_uris p').

(** An accessDescription of the SIA payload that decodes to the access
    method [oid]. *)
Definition is_entry_for
    (d2i_ASN1_SEQUENCE_ANY : string -> option (list ASN1_TYPE))
    (oid : string) (t : ASN1_TYPE) : Prop :=
  exists d data,
    t = V_ASN1_SEQUENCE d /\
    d2i_ASN1_SEQUENCE_ANY d = Some [V_ASN1_OBJECT oid; V_ASN1_OTHER data].

(** The pointer an access method is stored in. *)
Definition sia_field (oid : string) (p : cert) : option string :=
  if OBJ_eq oid carepo_oid then repo p
  else if OBJ_eq oid mft_oid then mft p
  else notify p.

Definition sia_oid (oid : string) : Prop :=
  oid = carepo_oid \/ oid = mft_oid \/ oid = notify_oid.

(** ** cert.c: trust anchors *)

Section TaParser.

Variable d2i_X509 : string -> option X509.
Variable d2i_ASN1_SEQUENCE_ANY : string -> option (list ASN1_TYPE).
Variable d2i_ASN1_TYPE : string -> option ASN1_TYPE.
Variable ASN1_frame : string -> option (string * Z * Z).
Variable OBJ_obj2nid : string -> NID.
Variable as_id_parse : Z -> option Z.
Variable as_check_overlap : cert_as -> list cert_as -> bool.
Variable ip_addr_afi_parse : string -> option afi.
Variable ip_addr_parse : ASN1_BIT_STRING -> afi -> option ip_addr.
Variable ip_cert_compose_ranges : cert_ip -> option cert_ip.
Variable ip_addr_check_overlap : cert_ip -> list cert_ip -> bool.

(** Public keys are handled by the crypto library: [d2i_PUBKEY] decodes
    the key of the TAL, [X509_get_pubkey] extracts the key of the
    certificate, [EVP_PKEY_cmp] returns 1 when two keys match. *)
Variable EVP_PKEY : Type.
Variable d2i_PUBKEY : string -> option EVP_PKEY.
Variable X509_get_pubkey : X509 -> option EVP_PKEY.
Variable EVP_PKEY_cmp : EVP_PKEY -> EVP_PKEY -> Z.

(** [ta_parse]; [*xp] is the handle [cert_parse_inner] stored in the
    record, and [rc] starts at 0. *)
Definition ta_parse (fn : string) (der : option string)
    (pkey : option string) : result (option cert) :=
  r ← cert_parse_inner d2i_X509 d2i_ASN1_SEQUENCE_ANY d2i_ASN1_TYPE
        ASN1_frame OBJ_obj2nid as_id_parse as_check_overlap
        ip_addr_afi_parse ip_addr_parse ip_cert_compose_ranges
        ip_addr_check_overlap fn der true;
  match r with
  | None => Ok None
  | Some p =>
      match pkey with
      | None => Ok None
      | Some pkey =>
          match x509 p with
          | None => Exit                      (* assert on the handle *)
          | Some x =>
              match d2i_PUBKEY pkey with
              | None => Exit                  (* assert on the TAL key *)
              | Some pk =>
                  match X509_get_pubkey x with
                  | None => Ok None
                  | Some opk =>
                      if negb (EVP_PKEY_cmp pk opk =? 1) then Ok None
                      else Ok (Some p)
                  end
              end
          end
      end
  end.

End TaParser.

(** ** Further concrete objects *)

Module Fixture.

(** The accessDescription rpkiManifest of the sample CA, and an SIA payload
    that holds it twice. *)
Definition mft_entry : string :=
  Der.seq [ Der.oid mft_oid;
            Der.uri "rsync://rpki.example.net/repo/ca.mft" ].

Definition sia_two_mft : string := Der.seq [ mft_entry; mft_entry ].

(** Keys stand as strings, the key of a sample certificate being named
    after its SKI; two keys match when the strings agree. *)
Definition d2i_PUBKEY (k : string) : option string := Some k.
Definition X509_get_pubkey (x : X509) : option string := X509_ski x.
Definition EVP_PKEY_cmp (a b : string) : Z :=
  if bool_decide (a = b) then 1 else 0.

Definition ta_parse :=
  ta_parse Sample.d2i_X509 Der.d2i_ASN1_SEQUENCE_ANY Der.d2i_ASN1_TYPE
    Der.ASN1_frame Der.OBJ_obj2nid SpecModel.as_id_parse
    SpecModel.as_check_overlap SpecModel.ip_addr_afi_parse
    SpecModel.ip_addr_parse SpecModel.ip_cert_compose_ranges
    SpecModel.ip_addr_check_overlap string d2i_PUBKEY X509_get_pubkey
    EVP_PKEY_cmp.

(** ipAddrBlocks { IPv4 { 10.0.0.0/8 }, IPv6 inherit }, critical *)
Definition ip_ext : X509_EXTENSION :=
  {| ext_nid := NID_sbgp_ipAddrBlock;
     ext_der :=
       Some (Der.seq
               [ Der.oid (Der.bytes [43; 6; 1; 5; 5; 7; 1; 7]);
                 Der.tlv 1 (Der.bytes [255]);
                 Der.tlv 4
                   (Der.seq
                      [ Der.seq
                          [ Der.tlv 4 (Der.bytes [0; 1]);
                            Der.seq [ Der.tlv 3 (Der.bytes [0; 10]) ] ];
                        Der.seq
                          [ Der.tlv 4 (Der.bytes [0; 2]);
                            Der.tlv 5 EmptyString ] ])
               ]) |}.

(** A CA certificate with these IP resources. *)
Definition ca_ip_x509 : X509 :=
  {| X509_exts := [ip_ext; Sample.sia_ext Sample.sia_repo_mft];
     X509_aki := Some "TA:SKI"; X509_ski := Some "CA2:SKI";
     X509_aia := Some "rsync://rpki.example.net/repo/ta.cer";
     X509_crl := Some "rsync://rpki.example.net/repo/ta.crl";
     X509_expire := 1700000000;
     X509_purpose := CERT_PURPOSE_CA; X509_pubkey := None |}.

Definition ca_ip_der : string := "ca_ip.der".

Definition d2i_X509 (der : string) : option X509 :=
  if bool_decide (der = ca_ip_der) then Some ca_ip_x509
  else Sample.d2i_X509 der.

Definition cert_parse_inner :=
  cert_parse_inner d2i_X509 Der.d2i_ASN1_SEQUENCE_ANY Der.d2i_ASN1_TYPE
    Der.ASN1_frame Der.OBJ_obj2nid SpecModel.as_id_parse
    SpecModel.as_check_overlap SpecModel.ip_addr_afi_parse
    SpecModel.ip_addr_parse SpecModel.ip_cert_compose_ranges
    SpecModel.ip_addr_check_overlap.

End Fixture.


(** *** BGPsec router keys *)

(** The AS number [n] is listed by the AS resources [l]: as an identifier,
    or within a range. *)
Definition as_listed (n : Z) (l : list cert_as) : Prop :=
  Exists (fun a =>
            match a with
            | CERT_AS_ID id => n = id
            | CERT_AS_RANGE min max => min <= n <= max
            | CERT_AS_INHERIT => False
            end) l.

(** Every entry of [t] is still in [t'] under its key, with the same AS
    number, SKI and public key, and an expiry that is not earlier. *)
Definition brk_kept (t t' : brk_tree) : Prop :=
  forall key b,
    t !! key = Some b ->
    exists b',
      t' !! key = Some b' /\ brk_asid b' = brk_asid b /\
      brk_ski b' = brk_ski b /\ brk_pubkey b' = brk_pubkey b /\
      brk_expires b <= brk_expires b'.

(** Every entry of [t'] is an entry of [t], or carries the expiry and the
    TAL of the certificate [c]. *)
Definition brk_stamped (c : cert) (t t' : brk_tree) : Prop :=
  forall key b',
    t' !! key = Some b' ->
    t !! key = Some b' \/
    (brk_expires b' = expires c /\ tal c = Some (brk_tal b')).

(** The AS numbers [l] have an entry for the key [(s, k)] that expires no
    earlier than [c]. *)
Definition brk_present (c : cert) (s k : string) (l : list Z)
    (t : brk_tree) : Prop :=
  forall n, n ∈ l ->
    exists b, t !! (to_uint32 n, s, k) = Some b /\ expires c <= brk_expires b.


(** *** The orders of the two trees *)

(** [authcmp]: both nodes carry a certificate whose SKI is dereferenced. *)
Definition authcmp (a b : auth) : result Z :=
  match ski (auth_cert a), ski (auth_cert b) with
  | Some x, Some y => Ok (C.strcmp x y)
  | _, _ => Undefined
  end.

(** [brkcmp] *)
Definition brkcmp (a b : brk) : Z :=
  if brk_asid a >? brk_asid b then 1
  else if brk_asid a <? brk_asid b then -1
  else
    let rv := C.strcmp (brk_ski a) (brk_ski b) in
    if rv >? 0 then 1
    else if rv <? 0 then -1
    else C.strcmp (brk_pubkey a) (brk_pubkey b).

(** A C string holds no NUL before its end. *)
Definition c_string (s : string) : Prop :=
  Forall (fun c => C.code c <> 0) (chars s).

Definition brk_strings (b : brk) : Prop :=
  c_string (brk_ski b) /\ c_string (brk_pubkey b).

(* ===================================================================== *)
(** * Part II: properties                                                 *)
(* ===================================================================== *)

(** ** Characters and strings *)

Lemma code_inj (a b : ascii) : C.code a = C.code b -> a = b.
Proof.
  unfold C.code. intros H. apply N2Z.inj in H.
  rewrite <- (ascii_N_embedding a), <- (ascii_N_embedding b). now rewrite H.
Qed.

Lemma code_range (a : ascii) : 0 <= C.code a < 256.
Proof.
  unfold C.code. pose proof (N_ascii_bounded a) as H. lia.
Qed.

Lemma ascii_eqb_true (a b : ascii) : Ascii.eqb a b = true <-> a = b.
Proof. apply Ascii.eqb_eq. Qed.

Lemma filename_char_spec (c : ascii) :
  filename_char c = true <-> in_filename_class c.
Proof.
  unfold filename_char, in_filename_class, C.isalnum, C.isdigit, C.isupper,
    C.islower.
  rewrite !orb_true_iff, !andb_true_iff, !Z.leb_le, !ascii_eqb_true.
  tauto.
Qed.

Lemma filename_chars_spec (s : string) :
  filename_chars s = true <-> Forall in_filename_class (chars s).
Proof.
  induction s as [|c s IH]; simpl.
  - split; auto.
  - destruct (filename_char c) eqn:E; simpl.
    + rewrite IH. split.
      * intros H. constructor; [now apply filename_char_spec | exact H].
      * intros H. now inversion H.
    + split; [discriminate|].
      intros H. inversion H as [|? ? Hc _]; subst.
      apply filename_char_spec in Hc. congruence.
Qed.

Lemma occurrences_cons (c x : ascii) (s : string) :
  occurrences c (String x s) =
  if Ascii.eqb x c then S (occurrences c s) else occurrences c s.
Proof.
  unfold occurrences. simpl. rewrite filter_cons.
  destruct (Ascii.eqb_spec x c); destruct (decide (x = c)); try congruence;
    reflexivity.
Qed.

Lemma strchr_None (c : ascii) (s : string) :
  C.strchr s c = None <-> occurrences c s = 0%nat.
Proof.
  induction s as [|x s IH]; [easy|].
  rewrite occurrences_cons. simpl.
  destruct (Ascii.eqb x c); [easy|].
  rewrite <- IH. destruct (C.strchr s c); easy.
Qed.

Lemma strrchr_None (c : ascii) (s : string) :
  C.strrchr s c = None <-> occurrences c s = 0%nat.
Proof.
  induction s as [|x s IH]; [easy|].
  rewrite occurrences_cons. simpl.
  destruct (C.strrchr s c) as [i|].
  - destruct (Ascii.eqb x c); [easy|].
    split; [discriminate|]. intros H. apply IH in H. discriminate.
  - destruct (Ascii.eqb x c); [easy|]. rewrite <- IH. easy.
Qed.

(** The first and the last occurrence coincide exactly when there is at
    most one. *)
Lemma strchr_strrchr (c : ascii) (s : string) :
  C.strchr s c = C.strrchr s c <-> (occurrences c s <= 1)%nat.
Proof.
  induction s as [|x s IH]; [simpl; unfold occurrences; simpl; split; auto|].
  rewrite occurrences_cons. simpl.
  destruct (Ascii.eqb x c).
  - destruct (C.strrchr s c) as [i|] eqn:E.
    + split; [discriminate|]. intros H.
      assert (occurrences c s = 0%nat) as H0 by lia.
      apply strrchr_None in H0. congruence.
    + apply strrchr_None in E. split; [lia | reflexivity].
  - rewrite <- IH.
    destruct (C.strchr s c), (C.strrchr s c); simpl; split; congruence.
Qed.

Lemma length_advance (k : nat) (s : string) :
  String.length (C.advance k s) = (String.length s - k)%nat.
Proof.
  revert s. induction k as [|k IH]; intros [|x s]; simpl; auto.
Qed.

Lemma advance_app (pre suf : string) :
  C.advance (String.length pre) (pre +:+ suf) = suf.
Proof. induction pre as [|x pre IH]; simpl; auto. Qed.

Lemma take_advance (k : nat) (s : string) :
  s = buf_take k s +:+ C.advance k s.
Proof.
  revert s. induction k as [|k IH]; intros [|x s]; simpl; auto.
  change (String x s = String x (buf_take k s +:+ C.advance k s)).
  f_equal. apply IH.
Qed.

Lemma length_append (a b : string) :
  String.length (a +:+ b) = (String.length a + String.length b)%nat.
Proof. induction a as [|x a IH]; simpl; auto. Qed.

Lemma chars_append (a b : string) : chars (a +:+ b) = chars a ++ chars b.
Proof. induction a as [|x a IH]; simpl; auto. now rewrite IH. Qed.

(** Lower-casing identifies a character with a lower-case letter exactly
    when it is that letter in either case. *)
Lemma tolower_same_letter (c e : ascii) :
  C.islower e = true ->
  C.tolower c = C.tolower e <-> same_letter c e.
Proof.
  unfold same_letter, C.tolower, C.islower, C.isupper.
  rewrite andb_true_iff, !Z.leb_le. intros [H1 H2].
  destruct (andb (65 <=? C.code e) (C.code e <=? 90)) eqn:Ee.
  { apply andb_true_iff in Ee. rewrite !Z.leb_le in Ee. lia. }
  destruct (andb (65 <=? C.code c) (C.code c <=? 90)) eqn:Ec.
  - apply andb_true_iff in Ec. rewrite !Z.leb_le in Ec.
    split; [intros; right; lia|].
    intros [->|H]; lia.
  - apply andb_false_iff in Ec. rewrite !Z.leb_gt in Ec.
    split.
    + intros H. left. now apply code_inj.
    + intros [->|H]; [reflexivity | lia].
Qed.

Lemma tolower_dot (c : ascii) :
  C.tolower c = C.tolower "." <-> c = "."%char.
Proof.
  change (C.tolower ".") with 46.
  unfold C.tolower, C.isupper.
  destruct (andb (65 <=? C.code c) (C.code c <=? 90)) eqn:Ec.
  - apply andb_true_iff in Ec. rewrite !Z.leb_le in Ec.
    split; [lia | intros ->; change (C.code ".") with 46 in Ec; lia].
  - split.
    + intros H. apply code_inj. exact H.
    + intros ->. reflexivity.
Qed.

Lemma strcasecmp_cons (x y : ascii) (a b : string) :
  C.strcasecmp (String x a) (String y b) = 0 <->
  C.tolower x = C.tolower y /\ C.strcasecmp a b = 0.
Proof.
  simpl. destruct (Z.eqb_spec (C.tolower x) (C.tolower y)) as [E|E].
  - tauto.
  - split; [lia | tauto].
Qed.

(** A comparison with a dot and three lower-case letters. *)
Lemma strcasecmp_ext (s : string) (e1 e2 e3 : ascii) :
  String.length s = 4%nat ->
  C.islower e1 = true -> C.islower e2 = true -> C.islower e3 = true ->
  C.strcasecmp s (String "." (String e1 (String e2 (String e3 EmptyString))))
    = 0 <->
  exists c1 c2 c3,
    s = String "." (String c1 (String c2 (String c3 EmptyString))) /\
    same_letter c1 e1 /\ same_letter c2 e2 /\ same_letter c3 e3.
Proof.
  intros Hlen H1 H2 H3.
  destruct s as [|c0 [|c1 [|c2 [|c3 [|? ?]]]]]; try discriminate.
  rewrite !strcasecmp_cons, tolower_dot, !tolower_same_letter by assumption.
  split.
  - intros (-> & ? & ? & ? & _). eauto 10.
  - intros (d1 & d2 & d3 & Heq & ? & ? & ?).
    injection Heq as -> -> -> ->. simpl. tauto.
Qed.

Lemma ends_in_ext_advance (fn : string) (e1 e2 e3 : ascii) :
  (4 <= String.length fn)%nat ->
  ends_in_ext fn e1 e2 e3 <->
  exists c1 c2 c3,
    C.advance (String.length fn - 4) fn =
      String "." (String c1 (String c2 (String c3 EmptyString))) /\
    same_letter c1 e1 /\ same_letter c2 e2 /\ same_letter c3 e3.
Proof.
  intros Hlen. unfold ends_in_ext. split.
  - intros (pre & c1 & c2 & c3 & -> & H).
    exists c1, c2, c3. split; [|exact H].
    rewrite length_append. simpl.
    replace (String.length pre + 4 - 4)%nat with (String.length pre) by lia.
    apply advance_app.
  - intros (c1 & c2 & c3 & Heq & H).
    exists (buf_take (String.length fn - 4) fn), c1, c2, c3.
    split; [|exact H]. rewrite <- Heq. apply take_advance.
Qed.

Lemma occurrences_ends_in_ext (fn : string) (e1 e2 e3 : ascii) :
  ends_in_ext fn e1 e2 e3 -> (1 <= occurrences "." fn)%nat.
Proof.
  intros (pre & c1 & c2 & c3 & -> & _).
  unfold occurrences. rewrite chars_append, filter_app, length_app. simpl.
  rewrite filter_cons. destruct (decide ("."%char = "."%char)); [|congruence].
  simpl. lia.
Qed.

(** C8. [valid_filename] returns 1 exactly for the names of length at
    least 5, made of letters, digits, dot, underscore and hyphen only, with
    exactly one dot, that end in [.cer], [.crl], [.gbr] or [.roa] in any
    letter case; on every other string it returns 0. *)
Theorem valid_filename_iff (fn : string) :
  (valid_filename fn = 1 <-> valid_filename_spec fn) /\
  (valid_filename fn = 1 \/ valid_filename fn = 0).
Proof.
  assert (Hext : forall e1 e2 e3,
    C.islower e1 = true -> C.islower e2 = true -> C.islower e3 = true ->
    (5 <= String.length fn)%nat ->
    C.strcasecmp (C.advance (Z.to_nat (C.strlen fn - 4)) fn)
      (String "." (String e1 (String e2 (String e3 EmptyString)))) = 0 <->
    ends_in_ext fn e1 e2 e3).
  { intros e1 e2 e3 H1 H2 H3 Hlen.
    unfold C.strlen.
    replace (Z.to_nat (Z.of_nat (String.length fn) - 4))
      with (String.length fn - 4)%nat by lia.
    rewrite ends_in_ext_advance by lia.
    apply strcasecmp_ext; auto.
    rewrite length_advance. lia. }
  unfold valid_filename, valid_filename_spec.
  destruct (Z.ltb_spec (C.strlen fn) 5) as [Hlt|Hge].
  { split; [|now right]. split; [discriminate|].
    intros [Hlen _]. unfold C.strlen in Hlt. lia. }
  assert (Hlen : (5 <= String.length fn)%nat) by (unfold C.strlen in Hge; lia).
  destruct (filename_chars fn) eqn:Hch; simpl.
  2:{ split; [|now right]. split; [discriminate|].
      intros (_ & Hall & _). apply filename_chars_spec in Hall. congruence. }
  apply filename_chars_spec in Hch.
  destruct (bool_decide_reflect (C.strchr fn "." ≠ C.strrchr fn ".")) as [Hd|Hd].
  { split; [|now right]. split; [discriminate|].
    intros (_ & _ & Hone & _). exfalso. apply Hd.
    apply strchr_strrchr. lia. }
  assert (Hd' : (occurrences "." fn <= 1)%nat).
  { apply strchr_strrchr. destruct (decide (C.strchr fn "." = C.strrchr fn "."));
      [assumption | contradiction]. }
  pose proof (Hext "c" "e" "r" eq_refl eq_refl eq_refl Hlen)%char as Hcer.
  pose proof (Hext "c" "r" "l" eq_refl eq_refl eq_refl Hlen)%char as Hcrl.
  pose proof (Hext "g" "b" "r" eq_refl eq_refl eq_refl Hlen)%char as Hgbr.
  pose proof (Hext "r" "o" "a" eq_refl eq_refl eq_refl Hlen)%char as Hroa.
  assert (Hone : forall e1 e2 e3, ends_in_ext fn e1 e2 e3 ->
            occurrences "." fn = 1%nat).
  { intros e1 e2 e3 He. apply occurrences_ends_in_ext in He. lia. }
  change (String "." (String "c" (String "e" (String "r" EmptyString))))
    with ".cer" in Hcer.
  change (String "." (String "c" (String "r" (String "l" EmptyString))))
    with ".crl" in Hcrl.
  change (String "." (String "g" (String "b" (String "r" EmptyString))))
    with ".gbr" in Hgbr.
  change (String "." (String "r" (String "o" (String "a" EmptyString))))
    with ".roa" in Hroa.
  destruct (Z.eqb_spec (C.strcasecmp
              (C.advance (Z.to_nat (C.strlen fn - 4)) fn) ".cer") 0) as [E1|E1].
  { split; [|now left]. split; [|reflexivity]. intros _.
    apply Hcer in E1. eauto 10. }
  destruct (Z.eqb_spec (C.strcasecmp
              (C.advance (Z.to_nat (C.strlen fn - 4)) fn) ".crl") 0) as [E2|E2].
  { split; [|now left]. split; [|reflexivity]. intros _.
    apply Hcrl in E2. eauto 10. }
  destruct (Z.eqb_spec (C.strcasecmp
              (C.advance (Z.to_nat (C.strlen fn - 4)) fn) ".gbr") 0) as [E3|E3].
  { split; [|now left]. split; [|reflexivity]. intros _.
    apply Hgbr in E3. eauto 10. }
  destruct (Z.eqb_spec (C.strcasecmp
              (C.advance (Z.to_nat (C.strlen fn - 4)) fn) ".roa") 0) as [E4|E4].
  { split; [|now left]. split; [|reflexivity]. intros _.
    apply Hroa in E4. eauto 10. }
  split; [|now right]. split; [discriminate|].
  intros (_ & _ & _ & [H|[H|[H|H]]]).
  - apply Hcer in H. contradiction.
  - apply Hcrl in H. contradiction.
  - apply Hgbr in H. contradiction.
  - apply Hroa in H. contradiction.
Qed.

(** ** The coverage walk *)

Section CoverageFacts.

Variable as_check_covered : Z -> Z -> list cert_as -> Z.
Variable ip_addr_check_covered : afi -> list Z -> list Z -> list cert_ip -> Z.

Lemma valid_as_at_walk (min max : Z) (a : auth) :
  valid_as_at as_check_covered a min max =
  walk_verdict (map (as_answer as_check_covered min max) (ancestors a)).
Proof.
  revert a. fix IH 1. intros [c parent t fn].
  cbn [valid_as_at ancestors map]. unfold walk_verdict.
  unfold as_answer at 1. cbn [auth_cert].
  assert (Hup : match parent with
                | Some p => valid_as_at as_check_covered p min max
                | None => 0
                end =
                walk_verdict (map (as_answer as_check_covered min max)
                  match parent with Some p => ancestors p | None => [] end)).
  { destruct parent as [p|]; [apply IH | reflexivity]. }
  unfold walk_verdict in Hup.
  destruct (asz c =? 0); cbn [negb first_definitive]; [exact Hup|].
  unfold classify.
  destruct (as_check_covered min max (as_ c) >? 0); [reflexivity|].
  destruct (as_check_covered min max (as_ c) <? 0);
    cbn [first_definitive]; [reflexivity|].
  exact Hup.
Qed.

Lemma valid_ip_at_walk (afi0 : afi) (min max : list Z) (a : auth) :
  valid_ip_at ip_addr_check_covered a afi0 min max =
  walk_verdict
    (map (ip_answer ip_addr_check_covered afi0 min max) (ancestors a)).
Proof.
  revert a. fix IH 1. intros [c parent t fn].
  cbn [valid_ip_at ancestors map]. unfold walk_verdict.
  unfold ip_answer at 1. cbn [auth_cert].
  unfold classify.
  destruct (ip_addr_check_covered afi0 min max (ips c) >? 0); [reflexivity|].
  destruct (ip_addr_check_covered afi0 min max (ips c) <? 0);
    cbn [first_definitive]; [reflexivity|].
  destruct parent as [p|]; [apply IH | reflexivity].
Qed.

Lemma walk_verdict_cases (l : list answer) :
  (walk_verdict l = 1 <-> first_definitive l = Some Covered) /\
  (walk_verdict l = 0 <-> first_definitive l <> Some Covered).
Proof.
  unfold walk_verdict.
  destruct (first_definitive l) as [[| |]|]; split; split; congruence.
Qed.

Lemma valid_as_walk (a : option auth) (min max : Z) :
  valid_as as_check_covered a min max =
  walk_verdict (map (as_answer as_check_covered min max) (chain a)).
Proof. destruct a as [a|]; [apply valid_as_at_walk | reflexivity]. Qed.

Lemma valid_ip_walk (a : option auth) (afi0 : afi) (min max : list Z) :
  valid_ip ip_addr_check_covered a afi0 min max =
  walk_verdict
    (map (ip_answer ip_addr_check_covered afi0 min max) (chain a)).
Proof. destruct a as [a|]; [apply valid_ip_at_walk | reflexivity]. Qed.

(** C1. Walking the parent links upward from the given authority, [valid_as]
    and [valid_ip] return 1 exactly when the first ancestor whose
    containment test gives a definitive answer gives a positive one, and 0
    exactly when that answer is negative or the chain ends without a
    definitive answer; an ancestor whose answer is indeterminate (for AS:
    an empty AS set, or a test returning zero) is passed over. *)
Theorem coverage_walk_first_definitive
    (a : option auth) (min max : Z) (afi0 : afi) (bmin bmax : list Z) :
  let as_answers := map (as_answer as_check_covered min max) (chain a) in
  let ip_answers :=
    map (ip_answer ip_addr_check_covered afi0 bmin bmax) (chain a) in
  (valid_as as_check_covered a min max = 1 <->
     first_definitive as_answers = Some Covered) /\
  (valid_as as_check_covered a min max = 0 <->
     first_definitive as_answers <> Some Covered) /\
  (valid_ip ip_addr_check_covered a afi0 bmin bmax = 1 <->
     first_definitive ip_answers = Some Covered) /\
  (valid_ip ip_addr_check_covered a afi0 bmin bmax = 0 <->
     first_definitive ip_answers <> Some Covered).
Proof.
  intros as_answers ip_answers.
  rewrite valid_as_walk, valid_ip_walk.
  fold as_answers ip_answers.
  destruct (walk_verdict_cases as_answers), (walk_verdict_cases ip_answers).
  auto.
Qed.

Lemma valid_ip_01 (a : option auth) (afi0 : afi) (min max : list Z) :
  valid_ip ip_addr_check_covered a afi0 min max = 0 \/
  valid_ip ip_addr_check_covered a afi0 min max = 1.
Proof.
  rewrite valid_ip_walk. unfold walk_verdict.
  destruct (first_definitive _) as [[| |]|]; auto.
Qed.

(** ** Trust anchors *)

(** X17. What [valid_ta] decides: it returns 1 exactly when the first AS
    entry, if any, does not inherit, no IP entry inherits, and the SKI is
    not yet a key of the tree. *)
Lemma valid_ta_decides (fn : string) (auths : auth_tree) (c : cert) (s : string) :
  ski c = Some s ->
  valid_ta fn auths c = Ok 1 <->
  (forall a, head (as_ c) = Some a -> a <> CERT_AS_INHERIT) /\
  Forall (fun ip => ip_type ip <> CERT_IP_INHERIT) (ips c) /\
  auths !! s = None.
Proof.
  intros Hs. unfold valid_ta, asz. rewrite Hs.
  assert (Hex : existsb is_CERT_IP_INHERIT (ips c) = false <->
                Forall (fun ip => ip_type ip <> CERT_IP_INHERIT) (ips c)).
  { induction (ips c) as [|ip l IH]; simpl.
    - split; auto.
    - rewrite orb_false_iff, IH, Forall_cons.
      unfold is_CERT_IP_INHERIT.
      destruct (ip_type ip); split; intros [? ?]; split; auto; congruence. }
  destruct (as_ c) as [|a0 l]; simpl.
  - destruct (existsb is_CERT_IP_INHERIT (ips c)).
    + split; [discriminate|]. intros (_ & H & _). apply Hex in H. discriminate.
    + destruct (auths !! s) eqn:E; simpl.
      * split; [discriminate | intros (_ & _ & ?); discriminate].
      * split; [|reflexivity]. intros _. split; [discriminate|].
        split; [now apply Hex | reflexivity].
  - destruct a0; simpl.
    3:{ split; [discriminate|]. intros (H & _). now specialize (H _ eq_refl). }
    all: destruct (existsb is_CERT_IP_INHERIT (ips c));
      [split; [discriminate|]; intros (_ & H & _); apply Hex in H; discriminate|].
    all: destruct (auths !! s) eqn:E; simpl;
      [split; [discriminate | intros (_ & _ & ?); discriminate]|].
    all: split; [|reflexivity]; intros _; split;
      [intros a [= <-]; discriminate|]; split; [now apply Hex | reflexivity].
Qed.

End CoverageFacts.

(** C2. A certificate whose AS set inherits at an entry other than the first
    is accepted as a trust anchor: [valid_ta] returns 1 on an empty tree
    for the AS set [64500; inherit]. *)
Theorem valid_ta_inherit_beyond_first :
  In CERT_AS_INHERIT (as_ Sample.ta_inherit_second) /\
  valid_ta "ta.cer" ∅ Sample.ta_inherit_second = Ok 1.
Proof. split; [right; left; reflexivity | reflexivity]. Qed.

(** ** Route origin authorizations *)

Section RoaFacts.

Variable ip_addr_check_covered : afi -> list Z -> list Z -> list cert_ip -> Z.

Lemma valid_roa_ips_spec (a : auth) (l : list roa_ip) :
  (valid_roa_ips ip_addr_check_covered a l = 1 <->
     Forall (roa_ip_covered ip_addr_check_covered a) l) /\
  (valid_roa_ips ip_addr_check_covered a l = 1 \/
   valid_roa_ips ip_addr_check_covered a l = 0).
Proof.
  induction l as [|ip l [IH1 IH2]]; cbn [valid_roa_ips].
  - split; [split; auto | auto].
  - destruct (valid_ip_01 ip_addr_check_covered (Some a) (roa_ip_afi ip)
                (roa_ip_min ip) (roa_ip_max ip)) as [E|E]; rewrite E; cbn [Z.eqb negb].
    + split; [|auto]. split; [discriminate|].
      intros H. inversion H as [|? ? Hc _]; subst.
      unfold roa_ip_covered in Hc. congruence.
    + split; [|exact IH2]. rewrite IH1. split.
      * intros H. constructor; [exact E | exact H].
      * intros H. now inversion H.
Qed.

(** C4, as the code has it. Once the parent authority is located, [valid_roa]
    stamps the ROA with the parent's TAL identifier and then checks the
    prefixes: it returns 1 exactly when every prefix is covered by the
    chain and 0 otherwise, the ROA carrying the TAL in both cases.  When no
    parent is located it returns 0 and leaves the ROA as it was. *)
Theorem valid_roa_stamps_once_parent_found
    (fn : string) (auths : auth_tree) (r : roa) (a : auth) (t : string) :
  (valid_ski_aki fn auths (roa_ski r) (roa_aki r) = Ok None ->
   valid_roa ip_addr_check_covered fn auths r = Ok (0, r)) /\
  (valid_ski_aki fn auths (roa_ski r) (roa_aki r) = Ok (Some a) ->
   auth_tal a = Some t ->
   exists v,
     valid_roa ip_addr_check_covered fn auths r =
       Ok (v, {| roa_asid := roa_asid r; roa_ips := roa_ips r;
                 roa_valid := roa_valid r; roa_ski := roa_ski r;
                 roa_aki := roa_aki r; roa_tal := Some t |}) /\
     (v = 1 <-> Forall (roa_ip_covered ip_addr_check_covered a) (roa_ips r)) /\
     (v = 1 \/ v = 0)).
Proof.
  unfold valid_roa. split.
  - intros ->. reflexivity.
  - intros -> Ht. simpl. rewrite Ht. simpl.
    exists (valid_roa_ips ip_addr_check_covered a (roa_ips r)).
    split; [reflexivity|]. apply valid_roa_ips_spec.
Qed.

End RoaFacts.

Lemma valid_roa_stamps_once_parent_found_witness :
  valid_ski_aki "a.roa" Sample.auths (roa_ski Sample.roa_10_1_24)
    (roa_aki Sample.roa_10_1_24) = Ok (Some Sample.ta_auth) /\
  auth_tal Sample.ta_auth = Some "example" /\
  exists v,
    valid_roa SpecModel.ip_addr_check_covered "a.roa" Sample.auths
      Sample.roa_10_1_24 =
      Ok (v, {| roa_asid := roa_asid Sample.roa_10_1_24;
                roa_ips := roa_ips Sample.roa_10_1_24;
                roa_valid := roa_valid Sample.roa_10_1_24;
                roa_ski := roa_ski Sample.roa_10_1_24;
                roa_aki := roa_aki Sample.roa_10_1_24;
                roa_tal := Some "example" |}) /\
    (v = 1 <->
     Forall (roa_ip_covered SpecModel.ip_addr_check_covered Sample.ta_auth)
       (roa_ips Sample.roa_10_1_24)) /\
    (v = 1 \/ v = 0).
Proof.
  split; [reflexivity|]. split; [reflexivity|].
  apply (proj2 (valid_roa_stamps_once_parent_found
                  SpecModel.ip_addr_check_covered "a.roa" Sample.auths
                  Sample.roa_10_1_24 Sample.ta_auth "example"));
    reflexivity.
Defined.

(** C4, as stated, fails: on a ROA asserting 11.1.0.0/16 below a trust anchor
    holding 10.0.0.0/8, [valid_roa] returns 0 and yet leaves the ROA
    stamped with the TAL. *)
Lemma valid_roa_failure_changes_roa :
  exists r',
    valid_roa SpecModel.ip_addr_check_covered "b.roa" Sample.auths
      Sample.roa_11_1_16 = Ok (0, r') /\
    roa_tal r' = Some "example" /\
    r' <> Sample.roa_11_1_16.
Proof.
  eexists. split; [reflexivity|]. split; [reflexivity|]. discriminate.
Qed.

(** ** The certificate parser *)

Lemma is_prefix_spec (r m : string) :
  C.is_prefix r m = true <-> byte_prefix r m.
Proof.
  unfold byte_prefix. revert m. induction r as [|x r IH]; intros m; simpl.
  - split; [intros _; now exists m | reflexivity].
  - destruct m as [|y m]; simpl.
    + split; [discriminate | intros [t Ht]; discriminate].
    + rewrite andb_true_iff, ascii_eqb_true, IH. split.
      * intros [-> [t ->]]. now exists t.
      * intros [t Ht]. injection Ht as -> ->. split; [reflexivity | now exists t].
Qed.

(** [strstr(m, r) == m] says that [r] is a prefix of [m]. *)
Lemma strstr_at_start (m r : string) :
  C.strstr m r = Some O <-> byte_prefix r m.
Proof.
  rewrite <- is_prefix_spec.
  destruct m as [|y m]; simpl C.strstr.
  - destruct (C.is_prefix r EmptyString); split; congruence.
  - destruct (C.is_prefix r (String y m)); [split; congruence|].
    destruct (C.strstr m r); simpl; split; congruence.
Qed.

Ltac break_in H :=
  repeat match type of H with
         | context [match ?x with _ => _ end] =>
             destruct x eqn:?; try discriminate H
         end.

Lemma same_sia_refl (p : cert) : same_sia p p.
Proof. split; reflexivity. Qed.

Lemma same_sia_trans (p q r : cert) :
  same_sia p q -> same_sia q r -> same_sia p r.
Proof. intros [? ?] [? ?]. split; congruence. Qed.

Lemma sia_ok_same (p p' : cert) : same_sia p p' -> sia_ok p -> sia_ok p'.
Proof.
  intros [Hm Hr] (m & r & ? & ? & ?). exists m, r. repeat split; congruence.
Qed.

Create HintDb sia.
#[local] Hint Resolve same_sia_refl same_sia_trans : sia.

Section ParserFacts.

Variable d2i_X509 : string -> option X509.
Variable d2i_ASN1_SEQUENCE_ANY : string -> option (list ASN1_TYPE).
Variable d2i_ASN1_TYPE : string -> option ASN1_TYPE.
Variable ASN1_frame : string -> option (string * Z * Z).
Variable OBJ_obj2nid : string -> NID.
Variable as_id_parse : Z -> option Z.
Variable as_check_overlap : cert_as -> list cert_as -> bool.
Variable ip_addr_afi_parse : string -> option afi.
Variable ip_addr_parse : ASN1_BIT_STRING -> afi -> option ip_addr.
Variable ip_cert_compose_ranges : cert_ip -> option cert_ip.
Variable ip_addr_check_overlap : cert_ip -> list cert_ip -> bool.

(** *** The AS and IP extensions leave the SIA pointers alone *)

Lemma append_as_sia p a p' :
  append_as as_check_overlap p a = Some p' -> same_sia p p'.
Proof.
  unfold append_as. intros H. break_in H. injection H as <-. split; reflexivity.
Qed.

Lemma append_ip_sia p ip p' :
  append_ip ip_addr_check_overlap p ip = Some p' -> same_sia p p'.
Proof.
  unfold append_ip. intros H. break_in H. injection H as <-. split; reflexivity.
Qed.

Lemma sbgp_asid_sia p i p' :
  sbgp_asid as_id_parse as_check_overlap p i = Some p' -> same_sia p p'.
Proof.
  unfold sbgp_asid. intros H. break_in H. eauto using append_as_sia.
Qed.

Lemma sbgp_asrange_sia p d p' :
  sbgp_asrange d2i_ASN1_SEQUENCE_ANY as_id_parse as_check_overlap p d = Some p' ->
  same_sia p p'.
Proof.
  unfold sbgp_asrange. intros H. break_in H. eauto using append_as_sia.
Qed.

Lemma sbgp_asnum_elems_sia seq p p' :
  sbgp_asnum_elems d2i_ASN1_SEQUENCE_ANY as_id_parse as_check_overlap p seq
    = Some p' ->
  same_sia p p'.
Proof.
  revert p. induction seq as [|t seq IH]; intros p H; simpl in H.
  - injection H as <-. auto with sia.
  - break_in H;
      eauto using same_sia_trans, sbgp_asid_sia, sbgp_asrange_sia.
Qed.

Lemma sbgp_asnum_sia p d p' :
  sbgp_asnum d2i_ASN1_SEQUENCE_ANY d2i_ASN1_TYPE as_id_parse as_check_overlap
    p d = Some p' ->
  same_sia p p'.
Proof.
  unfold sbgp_asnum. intros H. break_in H;
    eauto using append_as_sia, sbgp_asnum_elems_sia.
Qed.

Lemma sbgp_assysnum_elems_sia sseq p p' :
  sbgp_assysnum_elems d2i_ASN1_SEQUENCE_ANY d2i_ASN1_TYPE ASN1_frame
    as_id_parse as_check_overlap p sseq = Some p' ->
  same_sia p p'.
Proof.
  revert p. induction sseq as [|t sseq IH]; intros p H; simpl in H.
  - injection H as <-. auto with sia.
  - break_in H; eauto using same_sia_trans, sbgp_asnum_sia.
Qed.

Lemma sbgp_assysnum_sia p ext p' :
  sbgp_assysnum d2i_ASN1_SEQUENCE_ANY d2i_ASN1_TYPE ASN1_frame
    as_id_parse as_check_overlap p ext = Some p' ->
  same_sia p p'.
Proof.
  unfold sbgp_assysnum. intros H. break_in H.
  eauto using sbgp_assysnum_elems_sia.
Qed.

Lemma sbgp_addr_sia p afi0 bs p' :
  sbgp_addr ip_addr_parse ip_cert_compose_ranges ip_addr_check_overlap
    p afi0 bs = Some p' ->
  same_sia p p'.
Proof.
  unfold sbgp_addr. intros H. break_in H. eauto using append_ip_sia.
Qed.

Lemma sbgp_addr_range_sia p afi0 d p' :
  sbgp_addr_range d2i_ASN1_SEQUENCE_ANY ip_addr_parse ip_cert_compose_ranges
    ip_addr_check_overlap p afi0 d = Some p' ->
  same_sia p p'.
Proof.
  unfold sbgp_addr_range. intros H. break_in H. eauto using append_ip_sia.
Qed.

Lemma sbgp_addr_or_range_elems_sia seq p afi0 p' :
  sbgp_addr_or_range_elems d2i_ASN1_SEQUENCE_ANY ip_addr_parse
    ip_cert_compose_ranges ip_addr_check_overlap p afi0 seq = Some p' ->
  same_sia p p'.
Proof.
  revert p. induction seq as [|t seq IH]; intros p H; simpl in H.
  - injection H as <-. auto with sia.
  - break_in H;
      eauto using same_sia_trans, sbgp_addr_sia, sbgp_addr_range_sia.
Qed.

Lemma sbgp_ipaddrfam_sia p d p' :
  sbgp_ipaddrfam d2i_ASN1_SEQUENCE_ANY ip_addr_afi_parse ip_addr_parse
    ip_cert_compose_ranges ip_addr_check_overlap p d = Some p' ->
  same_sia p p'.
Proof.
  unfold sbgp_ipaddrfam, sbgp_addr_or_range. intros H. break_in H;
    eauto using append_ip_sia, sbgp_addr_or_range_elems_sia.
Qed.

Lemma sbgp_ipaddrblk_elems_sia sseq p p' :
  sbgp_ipaddrblk_elems d2i_ASN1_SEQUENCE_ANY ip_addr_afi_parse ip_addr_parse
    ip_cert_compose_ranges ip_addr_check_overlap p sseq = Some p' ->
  same_sia p p'.
Proof.
  revert p. induction sseq as [|t sseq IH]; intros p H; simpl in H.
  - injection H as <-. auto with sia.
  - break_in H; eauto using same_sia_trans, sbgp_ipaddrfam_sia.
Qed.

Lemma sbgp_ipaddrblk_sia p ext p' :
  sbgp_ipaddrblk d2i_ASN1_SEQUENCE_ANY ip_addr_afi_parse ip_addr_parse
    ip_cert_compose_ranges ip_addr_check_overlap p ext = Some p' ->
  same_sia p p'.
Proof.
  unfold sbgp_ipaddrblk. intros H. break_in H.
  eauto using sbgp_ipaddrblk_elems_sia.
Qed.

(** *** The SIA extension *)

Lemma sbgp_sia_resource_ok p d p' :
  sbgp_sia_resource d2i_ASN1_SEQUENCE_ANY ASN1_frame p d = Ok (Some p') ->
  sia_ok p'.
Proof.
  unfold sbgp_sia_resource. intros H. break_in H.
  injection H as <-.
  match goal with
  | E : bool_decide _ = false |- _ => apply bool_decide_eq_false in E;
      apply dec_stable in E; apply strstr_at_start in E
  end.
  unfold sia_ok. eauto.
Qed.

Lemma sbgp_sia_ok p ext p' :
  sbgp_sia d2i_ASN1_SEQUENCE_ANY ASN1_frame OBJ_obj2nid p ext = Ok (Some p') ->
  sia_ok p'.
Proof.
  unfold sbgp_sia. intros H. break_in H. eauto using sbgp_sia_resource_ok.
Qed.

(** *** The extension loop and the final checks *)

Lemma cert_parse_exts_sia exts p sp p' sp' :
  cert_parse_exts d2i_ASN1_SEQUENCE_ANY d2i_ASN1_TYPE ASN1_frame OBJ_obj2nid
    as_id_parse as_check_overlap ip_addr_afi_parse ip_addr_parse
    ip_cert_compose_ranges ip_addr_check_overlap p sp exts
    = Ok (Some (p', sp')) ->
  (sia_ok p -> sia_ok p') /\ (Exists is_sia_ext exts -> sia_ok p').
Proof.
  revert p sp. induction exts as [|ext exts IH]; intros p sp H; simpl in H.
  - injection H as <- <-. split; [auto|]. intros HE. inversion HE.
  - assert (Hskip :
      cert_parse_exts d2i_ASN1_SEQUENCE_ANY d2i_ASN1_TYPE ASN1_frame
        OBJ_obj2nid as_id_parse as_check_overlap ip_addr_afi_parse
        ip_addr_parse ip_cert_compose_ranges ip_addr_check_overlap
        p sp exts = Ok (Some (p', sp')) ->
      ext_nid ext <> NID_sinfo_access ->
      (sia_ok p -> sia_ok p') /\ (Exists is_sia_ext (ext :: exts) -> sia_ok p')).
    { intros H' Hn. destruct (IH _ _ H') as [IH1 IH2]. split; [exact IH1|].
      intros HE. inversion HE; subst; [contradiction | auto]. }
    destruct (ext_nid ext) eqn:En; try (apply Hskip; [exact H | congruence]).
    + (* sbgp-ipAddrBlock *)
      destruct (sbgp_ipaddrblk _ _ _ _ _ _ ext) as [p1|] eqn:E1;
        [|discriminate].
      apply sbgp_ipaddrblk_sia in E1. destruct (IH _ _ H) as [IH1 IH2].
      split; [eauto using sia_ok_same|].
      intros HE. inversion HE; subst; [unfold is_sia_ext in *; congruence | auto].
    + (* sbgp-autonomousSysNum *)
      destruct (sbgp_assysnum _ _ _ _ _ _ ext) as [p1|] eqn:E1;
        [|discriminate].
      apply sbgp_assysnum_sia in E1. destruct (IH _ _ H) as [IH1 IH2].
      split; [eauto using sia_ok_same|].
      intros HE. inversion HE; subst; [unfold is_sia_ext in *; congruence | auto].
    + (* subjectInfoAccess *)
      destruct (sbgp_sia _ _ _ p ext) as [[p1|]| |] eqn:E1;
        try discriminate.
      apply sbgp_sia_ok in E1. simpl in H. destruct (IH _ _ H) as [IH1 IH2].
      split; auto.
Qed.

Lemma cert_parse_checks_fields x ta sp p c :
  cert_parse_checks x ta sp p = Some c ->
  mft c = mft p /\ repo c = repo p /\ x509 c = Some x /\
  aki c = X509_aki x /\ ski c = X509_ski x /\
  aia c = (if ta then aia p else X509_aia x) /\
  crl c = (if ta then crl p else X509_crl x).
Proof.
  unfold cert_parse_checks. intros H.
  destruct (match purpose (set_identity x ta p) with
            | CERT_PURPOSE_INVALID => None
            | CERT_PURPOSE_CA => _
            | CERT_PURPOSE_BGPSEC_ROUTER => _
            end) as [q|] eqn:Eq; [|discriminate].
  assert (Hq : q = set_identity x ta p \/
               q = set_pubkey (X509_pubkey x) (set_identity x ta p)).
  { break_in Eq; injection Eq as <-; auto. }
  break_in H; injection H as <-;
    destruct Hq as [-> | ->]; repeat split; reflexivity.
Qed.

Lemma cert_parse_checks_identity x ta sp p c :
  cert_parse_checks x ta sp p = Some c ->
  (ta = true ->
     (forall a, aki c = Some a -> ski c = Some a) /\
     aia c = None /\ crl c = None) /\
  (ta = false ->
     exists a s, aki c = Some a /\ ski c = Some s /\ a <> s /\
                 aia c <> None).
Proof.
  unfold cert_parse_checks. intros H.
  destruct (match purpose (set_identity x ta p) with
            | CERT_PURPOSE_INVALID => None
            | CERT_PURPOSE_CA => _
            | CERT_PURPOSE_BGPSEC_ROUTER => _
            end) as [q|] eqn:Eq; [|discriminate].
  destruct (ski q) as [s|] eqn:Es; [|discriminate].
  destruct ta; cbn [andb negb] in H.
  - split; [|discriminate]. intros _.
    destruct (aki q) as [a|] eqn:Ea.
    + destruct (C.streq a s) eqn:Eas; cbn [negb] in H; [|discriminate].
      apply bool_decide_eq_true in Eas. subst a.
      destruct (bool_decide (aia q <> None)) eqn:E1; [discriminate|].
      destruct (bool_decide (crl q <> None)) eqn:E2; [discriminate|].
      injection H as <-. cbn.
      apply bool_decide_eq_false, dec_stable in E1.
      apply bool_decide_eq_false, dec_stable in E2.
      repeat split; congruence.
    + destruct (bool_decide (aia q <> None)) eqn:E1; [discriminate|].
      destruct (bool_decide (crl q <> None)) eqn:E2; [discriminate|].
      injection H as <-. cbn.
      apply bool_decide_eq_false, dec_stable in E1.
      apply bool_decide_eq_false, dec_stable in E2.
      repeat split; congruence.
  - split; [discriminate|]. intros _.
    destruct (bool_decide (aki q = None)) eqn:E0; [discriminate|].
    apply bool_decide_eq_false in E0.
    destruct (aki q) as [a|] eqn:Ea; [|contradiction].
    destruct (C.streq a s) eqn:Eas; [discriminate|].
    apply bool_decide_eq_false in Eas.
    destruct (bool_decide (aia q = None)) eqn:E1; [discriminate|].
    apply bool_decide_eq_false in E1.
    injection H as <-. cbn. exists a, s. auto.
Qed.

(** What the parser accepts meets the assertions of [cert_read]. *)
Lemma cert_parse_checks_read_asserts x ta sp p c :
  cert_parse_checks x ta sp p = Some c ->
  (mft c <> None \/ purpose c = CERT_PURPOSE_BGPSEC_ROUTER) /\
  ski c <> None.
Proof.
  unfold cert_parse_checks. intros H.
  destruct (purpose (set_identity x ta p)) eqn:Ep; try discriminate.
  - destruct (bool_decide (mft (set_identity x ta p) = None)) eqn:Em;
      [discriminate|].
    apply bool_decide_eq_false in Em.
    destruct (_ && _); [discriminate|].
    destruct (ski (set_identity x ta p)) eqn:Es; [|discriminate].
    break_in H; injection H as <-; split; try (left; exact Em);
      cbn; cbn in Es; congruence.
  - destruct (bool_decide _); [discriminate|].
    destruct (_ >? _); [discriminate|].
    destruct sp; [discriminate|].
    destruct (ski _) eqn:Es; [|discriminate].
    break_in H; injection H as <-; split; try (right; exact Ep);
      cbn; cbn in Es; congruence.
Qed.

(** For a trust anchor the checks do not look at the AIA and the CRL
    distribution point of the X.509 object. *)
Lemma cert_parse_checks_ta_aia_crl (x : X509) (a c : option string)
    (sp : bool) (p : cert) :
  cert_parse_checks (with_aia_crl a c x) true sp p =
  set_x509 (Some (with_aia_crl a c x)) <$> cert_parse_checks x true sp p.
Proof.
  unfold cert_parse_checks.
  change (set_identity (with_aia_crl a c x) true p)
    with (set_identity x true p).
  change (X509_pubkey (with_aia_crl a c x)) with (X509_pubkey x).
  destruct (match purpose (set_identity x true p) with
            | CERT_PURPOSE_INVALID => None
            | CERT_PURPOSE_CA => _
            | CERT_PURPOSE_BGPSEC_ROUTER => _
            end) as [q|]; [|reflexivity].
  destruct (ski q) as [s|]; [|reflexivity].
  cbn [andb negb].
  destruct (match aki q with Some a0 => negb (C.streq a0 s) | None => false
            end); [reflexivity|].
  destruct (bool_decide (aia q ≠ None)); [reflexivity|].
  destruct (bool_decide (crl q ≠ None)); reflexivity.
Qed.

(** A breach the parser refuses never yields a record. *)
Lemma identity_refused_checks (x : X509) (ta sp : bool) (p c : cert) :
  identity_refused ta x -> cert_parse_checks x ta sp p <> Some c.
Proof.
  intros Hviol H.
  pose proof (cert_parse_checks_fields _ _ _ _ _ H)
    as (_ & _ & _ & Haki & Hski & Haia & _).
  apply cert_parse_checks_identity in H. destruct H as [Hta Hnta].
  unfold identity_refused in Hviol. destruct ta.
  - destruct Hviol as (a & Ha & Hs).
    destruct (Hta eq_refl) as (Heq & _). apply Hs.
    rewrite <- Hski. apply Heq. congruence.
  - destruct (Hnta eq_refl) as (a & s0 & Ha & Hs & Hne & Hai).
    destruct Hviol as [Hn | [(a' & Ha' & Hs') | Hn]]; congruence.
Qed.

(** C5. A trust anchor that carries an AIA or a CRL distribution point is
    not refused.  With [ta] set the parser never reads the two fields off
    the X.509 object, so its checks "trust anchor must not have AIA" and
    "trust anchor may not specify CRL resource" cannot fire: whatever AIA
    [a] and CRL distribution point [c] the certificate carries, the parse
    ends as it does for the same certificate with any other AIA and CRL,
    and a record that comes out holds the certificate as its X.509 handle
    and has neither AIA nor CRL. *)
Theorem ta_aia_crl_accepted (d2i_X509' : string -> option X509)
    (fn der : string) (x : X509) (a c : option string) :
  d2i_X509 der = Some x ->
  d2i_X509' der = Some (with_aia_crl a c x) ->
  outcome
    (cert_parse_inner d2i_X509' d2i_ASN1_SEQUENCE_ANY d2i_ASN1_TYPE
       ASN1_frame OBJ_obj2nid as_id_parse as_check_overlap ip_addr_afi_parse
       ip_addr_parse ip_cert_compose_ranges ip_addr_check_overlap
       fn (Some der) true) =
  outcome
    (cert_parse_inner d2i_X509 d2i_ASN1_SEQUENCE_ANY d2i_ASN1_TYPE
       ASN1_frame OBJ_obj2nid as_id_parse as_check_overlap ip_addr_afi_parse
       ip_addr_parse ip_cert_compose_ranges ip_addr_check_overlap
       fn (Some der) true) /\
  forall r : cert,
    cert_parse_inner d2i_X509' d2i_ASN1_SEQUENCE_ANY d2i_ASN1_TYPE
      ASN1_frame OBJ_obj2nid as_id_parse as_check_overlap ip_addr_afi_parse
      ip_addr_parse ip_cert_compose_ranges ip_addr_check_overlap
      fn (Some der) true = Ok (Some r) ->
    x509 r = Some (with_aia_crl a c x) /\ aia r = None /\ crl r = None.
Proof.
  intros Hx Hx'. unfold cert_parse_inner. rewrite Hx, Hx'.
  change (X509_exts (with_aia_crl a c x)) with (X509_exts x).
  destruct (cert_parse_exts _ _ _ _ _ _ _ _ _ _ _ _ _) as [[[p sp]|]| |];
    cbn [mbind result_bind];
    try (split; [reflexivity | discriminate]).
  rewrite cert_parse_checks_ta_aia_crl.
  destruct (cert_parse_checks x true sp p) as [q|] eqn:E;
    [|split; [reflexivity | discriminate]].
  split; [reflexivity|].
  intros r [= <-].
  apply cert_parse_checks_identity in E. destruct E as [Hta _].
  destruct (Hta eq_refl) as (_ & Ha & Hc).
  split; [reflexivity|]. split; [exact Ha | exact Hc].
Qed.

(** X20. The identity rules the parser does enforce.  In a record that
    comes out of the parser, for a trust anchor an AKI, if present, equals
    the SKI; for any other certificate the AKI is present and differs from
    the SKI and the AIA is present.  A certificate whose AKI, SKI or (when
    it is no trust anchor) AIA break these rules never yields a record,
    and gets the null result whenever the extension loop returns. *)
Theorem identity_fields_enforced (fn : string) (der : option string)
    (ta : bool) :
  (forall c : cert,
     cert_parse_inner d2i_X509 d2i_ASN1_SEQUENCE_ANY d2i_ASN1_TYPE ASN1_frame
       OBJ_obj2nid as_id_parse as_check_overlap ip_addr_afi_parse
       ip_addr_parse ip_cert_compose_ranges ip_addr_check_overlap fn der ta
       = Ok (Some c) ->
     (ta = true -> forall a, aki c = Some a -> ski c = Some a) /\
     (ta = false ->
        exists a s, aki c = Some a /\ ski c = Some s /\ a <> s /\
                    aia c <> None)) /\
  (forall (d : string) (x : X509),
     der = Some d -> d2i_X509 d = Some x -> identity_refused ta x ->
     (forall c : cert,
        cert_parse_inner d2i_X509 d2i_ASN1_SEQUENCE_ANY d2i_ASN1_TYPE
          ASN1_frame OBJ_obj2nid as_id_parse as_check_overlap
          ip_addr_afi_parse ip_addr_parse ip_cert_compose_ranges
          ip_addr_check_overlap fn der ta <> Ok (Some c)) /\
     (forall r,
        cert_parse_exts d2i_ASN1_SEQUENCE_ANY d2i_ASN1_TYPE ASN1_frame
          OBJ_obj2nid as_id_parse as_check_overlap ip_addr_afi_parse
          ip_addr_parse ip_cert_compose_ranges ip_addr_check_overlap
          cert_zero false (X509_exts x) = Ok r ->
        cert_parse_inner d2i_X509 d2i_ASN1_SEQUENCE_ANY d2i_ASN1_TYPE
          ASN1_frame OBJ_obj2nid as_id_parse as_check_overlap
          ip_addr_afi_parse ip_addr_parse ip_cert_compose_ranges
          ip_addr_check_overlap fn der ta = Ok None)).
Proof.
  unfold cert_parse_inner. split.
  - intros c H.
    destruct der as [d|]; [|discriminate].
    destruct (d2i_X509 d) as [x|]; [|discriminate].
    destruct (cert_parse_exts _ _ _ _ _ _ _ _ _ _ _ _ _) as [[[p sp]|]| |];
      try discriminate.
    simpl in H. injection H as H.
    apply cert_parse_checks_identity in H. destruct H as [Hta Hnta].
    split; [|exact Hnta]. intros Et. exact (proj1 (Hta Et)).
  - intros d x -> Hx Hviol. rewrite Hx. split.
    + intros c H.
      destruct (cert_parse_exts _ _ _ _ _ _ _ _ _ _ _ _ _)
        as [[[p sp]|]| |]; try discriminate.
      simpl in H. injection H as H.
      exact (identity_refused_checks _ _ _ _ _ Hviol H).
    + intros r ->. cbn [mbind result_bind].
      destruct r as [[p sp]|]; [|reflexivity].
      destruct (cert_parse_checks x ta sp p) as [c|] eqn:E; [|reflexivity].
      destruct (identity_refused_checks _ _ _ _ _ Hviol E).
Qed.

(** C6. In every certificate the parser accepts and whose X.509 object
    carries an SIA extension, the caRepository URI is a byte prefix of the
    rpkiManifest URI; and an SIA payload whose entries parse and leave a
    repository that is not a byte prefix of the manifest is rejected. *)
Theorem sia_repo_prefix_of_mft :
  (forall (fn : string) (der : option string) (ta : bool) (c : cert)
          (x : X509),
     cert_parse_inner d2i_X509 d2i_ASN1_SEQUENCE_ANY d2i_ASN1_TYPE ASN1_frame
       OBJ_obj2nid as_id_parse as_check_overlap ip_addr_afi_parse
       ip_addr_parse ip_cert_compose_ranges ip_addr_check_overlap fn der ta
       = Ok (Some c) ->
     x509 c = Some x ->
     Exists is_sia_ext (X509_exts x) ->
     exists m r, mft c = Some m /\ repo c = Some r /\ byte_prefix r m) /\
  (forall (p p' : cert) (d : string) (seq : list ASN1_TYPE) (m r : string),
     d2i_ASN1_SEQUENCE_ANY d = Some seq ->
     sbgp_sia_entries d2i_ASN1_SEQUENCE_ANY ASN1_frame p seq = Some p' ->
     mft p' = Some m -> repo p' = Some r ->
     ~ byte_prefix r m ->
     sbgp_sia_resource d2i_ASN1_SEQUENCE_ANY ASN1_frame p d = Ok None).
Proof.
  split.
  - unfold cert_parse_inner. intros fn der ta c x H Hx HE.
    destruct der as [d|]; [|discriminate].
    destruct (d2i_X509 d) as [x0|]; [|discriminate].
    destruct (cert_parse_exts _ _ _ _ _ _ _ _ _ _ _ _ _) as [[[p sp]|]| |]
      eqn:Eexts; try discriminate.
    simpl in H. injection H as H.
    apply cert_parse_checks_fields in H.
    destruct H as (Hm & Hr & Hx0 & _).
    assert (x0 = x) by congruence. subst x0.
    apply cert_parse_exts_sia in Eexts. destruct Eexts as [_ Hsia].
    destruct (Hsia HE) as (m & r & ? & ? & ?).
    exists m, r. repeat split; congruence.
  - intros p p' d seq m r Hd He Hm Hr Hn.
    unfold sbgp_sia_resource. rewrite Hd, He, Hm, Hr.
    rewrite bool_decide_eq_true_2; [reflexivity|].
    intros Hs. apply Hn. now apply strstr_at_start.
Qed.

(** When the entries parse and leave the manifest or the repository unset,
    the final comparison hands a null pointer to [strstr]. *)
Lemma sbgp_sia_resource_null (p p' : cert) (d : string)
    (seq : list ASN1_TYPE) :
  d2i_ASN1_SEQUENCE_ANY d = Some seq ->
  sbgp_sia_entries d2i_ASN1_SEQUENCE_ANY ASN1_frame p seq = Some p' ->
  mft p' = None \/ repo p' = None ->
  sbgp_sia_resource d2i_ASN1_SEQUENCE_ANY ASN1_frame p d = Undefined.
Proof.
  intros Hd He Hn. unfold sbgp_sia_resource. rewrite Hd, He.
  destruct Hn as [-> | ->]; [reflexivity|].
  destruct (mft p'); reflexivity.
Qed.

End ParserFacts.

Lemma ta_aia_crl_accepted_witness :
  X509_aia Sample.ta3_x509 <> None /\ X509_crl Sample.ta3_x509 <> None /\
  exists r,
    Sample.cert_parse_inner "ta3.cer" (Some Sample.ta3_der) true
      = Ok (Some r) /\
    x509 r = Some Sample.ta3_x509 /\ aia r = None /\ crl r = None.
Proof.
  split; [discriminate|]. split; [discriminate|].
  eexists. split; [vm_compute; reflexivity|].
  apply (proj2 (ta_aia_crl_accepted
           (fun _ => Some (with_aia_crl None None Sample.ta3_x509))
           Der.d2i_ASN1_SEQUENCE_ANY Der.d2i_ASN1_TYPE Der.ASN1_frame
           Der.OBJ_obj2nid SpecModel.as_id_parse SpecModel.as_check_overlap
           SpecModel.ip_addr_afi_parse SpecModel.ip_addr_parse
           SpecModel.ip_cert_compose_ranges SpecModel.ip_addr_check_overlap
           Sample.d2i_X509 "ta3.cer" Sample.ta3_der
           (with_aia_crl None None Sample.ta3_x509)
           (X509_aia Sample.ta3_x509) (X509_crl Sample.ta3_x509)
           eq_refl eq_refl)).
  vm_compute. reflexivity.
Defined.

Lemma identity_fields_enforced_witness :
  (exists c,
     Sample.cert_parse_inner "ca.cer" (Some Sample.ca_der) false = Ok (Some c)
     /\ exists a s, aki c = Some a /\ ski c = Some s /\ a <> s /\
                    aia c <> None) /\
  (identity_refused false Sample.ta2_x509 /\
   Sample.cert_parse_inner "ta2.cer" (Some Sample.ta2_der) false = Ok None).
Proof.
  split.
  - eexists. split; [vm_compute; reflexivity|].
    refine (proj2 (proj1 (identity_fields_enforced Sample.d2i_X509
           Der.d2i_ASN1_SEQUENCE_ANY Der.d2i_ASN1_TYPE Der.ASN1_frame
           Der.OBJ_obj2nid SpecModel.as_id_parse SpecModel.as_check_overlap
           SpecModel.ip_addr_afi_parse SpecModel.ip_addr_parse
           SpecModel.ip_cert_compose_ranges SpecModel.ip_addr_check_overlap
           "ca.cer" (Some Sample.ca_der) false) _ _) eq_refl).
    vm_compute. reflexivity.
  - assert (Hv : identity_refused false Sample.ta2_x509).
    { right. left. exists "TA2:SKI". split; reflexivity. }
    split; [exact Hv|].
    eapply (proj2 (proj2 (identity_fields_enforced Sample.d2i_X509
           Der.d2i_ASN1_SEQUENCE_ANY Der.d2i_ASN1_TYPE Der.ASN1_frame
           Der.OBJ_obj2nid SpecModel.as_id_parse SpecModel.as_check_overlap
           SpecModel.ip_addr_afi_parse SpecModel.ip_addr_parse
           SpecModel.ip_cert_compose_ranges SpecModel.ip_addr_check_overlap
           "ta2.cer" (Some Sample.ta2_der) false)
             Sample.ta2_der Sample.ta2_x509 eq_refl eq_refl Hv)).
    vm_compute. reflexivity.
Defined.

Lemma sia_repo_prefix_of_mft_witness :
  (exists c x,
     Sample.cert_parse_inner "ca.cer" (Some Sample.ca_der) false = Ok (Some c)
     /\ x509 c = Some x /\ Exists is_sia_ext (X509_exts x)
     /\ exists m r, mft c = Some m /\ repo c = Some r /\ byte_prefix r m) /\
  Sample.sbgp_sia_resource cert_zero Sample.sia_mft_elsewhere = Ok None.
Proof.
  pose proof (sia_repo_prefix_of_mft Sample.d2i_X509
           Der.d2i_ASN1_SEQUENCE_ANY Der.d2i_ASN1_TYPE Der.ASN1_frame
           Der.OBJ_obj2nid SpecModel.as_id_parse SpecModel.as_check_overlap
           SpecModel.ip_addr_afi_parse SpecModel.ip_addr_parse
           SpecModel.ip_cert_compose_ranges SpecModel.ip_addr_check_overlap)
    as [Hacc Hrej].
  split.
  - eexists. exists Sample.ca_x509.
    assert (HE : Exists is_sia_ext (X509_exts Sample.ca_x509)).
    { apply Exists_cons_tl, Exists_cons_hd. reflexivity. }
    split; [vm_compute; reflexivity|].
    split; [reflexivity|]. split; [exact HE|].
    apply (Hacc "ca.cer" (Some Sample.ca_der) false _ Sample.ca_x509);
      [vm_compute; reflexivity | reflexivity | exact HE].
  - eapply (Hrej cert_zero _ Sample.sia_mft_elsewhere).
    + vm_compute. reflexivity.
    + vm_compute. reflexivity.
    + reflexivity.
    + reflexivity.
    + intros H. apply is_prefix_spec in H. vm_compute in H. discriminate.
Defined.

(** C9. On an SIA payload whose only accessDescription is rpkiNotify, every
    entry parses, the manifest and the repository stay unset, and the final
    comparison of [sbgp_sia_resource] calls [strstr] on null pointers. *)
Theorem sia_notify_only_undefined :
  (exists seq p',
     Der.d2i_ASN1_SEQUENCE_ANY Sample.sia_notify_only = Some seq /\
     sbgp_sia_entries Der.d2i_ASN1_SEQUENCE_ANY Der.ASN1_frame cert_zero seq
       = Some p' /\
     notify p' = Some "https://rrdp.example.net/notify.xml" /\
     mft p' = None /\ repo p' = None) /\
  Sample.sbgp_sia_resource cert_zero Sample.sia_notify_only = Undefined.
Proof.
  split.
  - eexists. eexists. split; [vm_compute; reflexivity|].
    split; [vm_compute; reflexivity|]. repeat split.
  - vm_compute. reflexivity.
Qed.

(** ** The IPC stream *)

Lemma length_le_bytes (n : nat) (v : Z) : length (le_bytes n v) = n.
Proof. revert v. induction n as [|n IH]; intros v; simpl; auto. Qed.

Lemma le_value_le_bytes (n : nat) (v : Z) :
  le_value (le_bytes n v) = v mod 256 ^ Z.of_nat n.
Proof.
  revert v. induction n as [|n IH]; intros v.
  - simpl. now rewrite Z.mod_1_r.
  - cbn [le_bytes le_value]. rewrite IH.
    rewrite Nat2Z.inj_succ, Z.pow_succ_r by lia.
    rewrite Z.rem_mul_r by lia. reflexivity.
Qed.

Lemma le_value_unsigned (n : nat) (v : Z) :
  0 <= v < 256 ^ Z.of_nat n -> le_value (le_bytes n v) = v.
Proof. intros H. rewrite le_value_le_bytes. now apply Z.mod_small. Qed.

Lemma le_value_int (v : Z) :
  - 2 ^ 31 <= v < 2 ^ 31 -> to_int (le_value (le_bytes sizeof_int v)) = v.
Proof.
  intros H. rewrite le_value_le_bytes. unfold to_int, sizeof_int.
  change (256 ^ Z.of_nat 4) with (2 ^ 32).
  rewrite Zplus_mod_idemp_l. rewrite Z.mod_small; lia.
Qed.

Lemma le_value_time_t (v : Z) :
  - 2 ^ 63 <= v < 2 ^ 63 -> to_time_t (le_value (le_bytes sizeof_time_t v)) = v.
Proof.
  intros H. rewrite le_value_le_bytes. unfold to_time_t, sizeof_time_t.
  change (256 ^ Z.of_nat 8) with (2 ^ 64).
  rewrite Zplus_mod_idemp_l. rewrite Z.mod_small; lia.
Qed.

Lemma io_read_buf_app (bs rest : list Z) (n : nat) :
  length bs = n -> io_read_buf (bs ++ rest) n = Ok (bs, rest).
Proof.
  intros <-. unfold io_read_buf.
  destruct (Nat.ltb_spec (length (bs ++ rest)) (length bs)) as [H|H].
  - rewrite length_app in H. lia.
  - now rewrite take_app_length, drop_app_length.
Qed.

Lemma io_read_le_bytes (n : nat) (v : Z) (rest : list Z) :
  io_read_buf (le_bytes n v ++ rest) n = Ok (le_bytes n v, rest).
Proof. apply io_read_buf_app, length_le_bytes. Qed.

Lemma string_of_bytes_of_string (s : string) :
  string_of_bytes (bytes_of_string s) = s.
Proof.
  unfold string_of_bytes, bytes_of_string. rewrite map_map.
  rewrite <- (string_of_list_ascii_of_string s) at 2. f_equal.
  induction (list_ascii_of_string s) as [|a l IH]; simpl; [reflexivity|].
  rewrite IH. f_equal. unfold C.code. rewrite N2Z.id.
  apply ascii_N_embedding.
Qed.

Lemma length_bytes_of_string (s : string) :
  length (bytes_of_string s) = String.length s.
Proof.
  unfold bytes_of_string. rewrite length_map.
  induction s as [|a s IH]; simpl; auto.
Qed.

(** Writing appends to what the buffer holds. *)
Lemma io_str_buffer_app (b : list Z) (s : option string) :
  io_str_buffer b s = b ++ io_str_buffer [] s.
Proof.
  unfold io_str_buffer, io_simple_buffer. destruct s; simpl;
    now rewrite <- ?app_assoc.
Qed.

Lemma ip_addr_buffer_app (b : list Z) (a : ip_addr) :
  ip_addr_buffer b a = b ++ ip_addr_buffer [] a.
Proof.
  unfold ip_addr_buffer, io_simple_buffer. simpl. now rewrite <- app_assoc.
Qed.

Lemma cert_ip_buffer_app (b : list Z) (p : cert_ip) :
  cert_ip_buffer b p = b ++ cert_ip_buffer [] p.
Proof.
  unfold cert_ip_buffer, ip_addr_range_buffer, io_simple_buffer.
  destruct (ip_type p); rewrite ?app_nil_l;
    rewrite ?(ip_addr_buffer_app (_ ++ _));
    rewrite <- ?app_assoc; reflexivity.
Qed.

Lemma cert_as_buffer_app (b : list Z) (p : cert_as) :
  cert_as_buffer b p = b ++ cert_as_buffer [] p.
Proof.
  unfold cert_as_buffer, io_simple_buffer.
  destruct p; rewrite ?app_nil_l, <- ?app_assoc; reflexivity.
Qed.

Lemma fold_left_buffer_app {A : Type} (wr : list Z -> A -> list Z) :
  (forall b x, wr b x = b ++ wr [] x) ->
  forall l b, fold_left wr l b = b ++ fold_left wr l [].
Proof.
  intros Hwr. induction l as [|x l IH]; intros b; simpl.
  - now rewrite app_nil_r.
  - rewrite IH, (IH (wr [] x)), Hwr. now rewrite app_assoc.
Qed.

(** Reading back what was written. *)
Lemma io_read_str_buffer (s : option string) (rest : list Z) :
  str_wire_ok s = true ->
  io_read_str (io_str_buffer [] s ++ rest) = Ok (s, rest).
Proof.
  unfold str_wire_ok, io_read_str, io_str_buffer, io_simple_buffer.
  destruct s as [s|]; intros H.
  - apply andb_true_iff in H. rewrite Z.ltb_lt, Z.leb_le in H.
    unfold SIZE_MAX in H.
    rewrite app_nil_l, <- app_assoc, io_read_le_bytes.
    cbn [mbind result_bind].
    rewrite le_value_unsigned
      by (change (256 ^ Z.of_nat sizeof_size_t) with (2 ^ 64); lia).
    destruct (Z.eqb_spec (C.strlen s) 0) as [E|_]; [lia|].
    rewrite io_read_buf_app
      by (rewrite length_bytes_of_string; unfold C.strlen; lia).
    cbn [mbind result_bind]. now rewrite string_of_bytes_of_string.
  - rewrite app_nil_l, io_read_le_bytes. reflexivity.
Qed.

Lemma ip_addr_read_buffer (a : ip_addr) (rest : list Z) :
  ip_addr_wire_ok a = true ->
  ip_addr_read (ip_addr_buffer [] a ++ rest) = Ok (a, rest).
Proof.
  unfold ip_addr_wire_ok, ip_addr_read, ip_addr_buffer, io_simple_buffer.
  rewrite !andb_true_iff, !Z.leb_le, bool_decide_eq_true.
  intros [[H1 H2] H3].
  rewrite app_nil_l, <- app_assoc, io_read_le_bytes.
  cbn [mbind result_bind].
  rewrite io_read_buf_app by assumption.
  cbn [mbind result_bind].
  rewrite le_value_unsigned by (change (256 ^ Z.of_nat 1) with 256; lia).
  now destruct a.
Qed.

Lemma ip_addr_range_read_buffer (r : ip_addr_range) (rest : list Z) :
  ip_addr_wire_ok (range_min r) = true ->
  ip_addr_wire_ok (range_max r) = true ->
  ip_addr_range_read (ip_addr_range_buffer [] r ++ rest) = Ok (r, rest).
Proof.
  intros H1 H2. unfold ip_addr_range_read, ip_addr_range_buffer.
  rewrite ip_addr_buffer_app, <- app_assoc.
  rewrite ip_addr_read_buffer by assumption. cbn [mbind result_bind].
  rewrite ip_addr_read_buffer by assumption. cbn [mbind result_bind].
  now destruct r.
Qed.

Lemma cert_ip_read_buffer (p : cert_ip) (rest : list Z) :
  cert_ip_wire_ok p = true ->
  cert_ip_read (cert_ip_buffer [] p ++ rest) = Ok (p, rest).
Proof.
  destruct p as [a t mn mx]. unfold cert_ip_wire_ok, cert_ip_read.
  cbn [ip_type ip_min ip_max ip_afi].
  unfold cert_ip_buffer, io_simple_buffer. cbn [ip_type ip_min ip_max ip_afi].
  assert (Hafi : afi_of_val (le_value (le_bytes sizeof_enum (afi_val a)))
                 = Some a) by (destruct a; reflexivity).
  destruct t as [ad|r|]; cbn [ip_type_val].
  - rewrite !andb_true_iff, !bool_decide_eq_true. intros [[Hmn Hmx] Had].
    rewrite ip_addr_buffer_app, app_nil_l, <- !app_assoc.
    rewrite io_read_le_bytes. cbn [mbind result_bind].
    rewrite io_read_le_bytes. cbn [mbind result_bind].
    rewrite Hafi.
    change (le_value (le_bytes sizeof_enum TAG_IP_ADDR)) with 0.
    cbn [Z.eqb negb TAG_IP_INHERIT TAG_IP_RANGE TAG_IP_ADDR].
    rewrite io_read_buf_app by assumption. cbn [mbind result_bind].
    rewrite io_read_buf_app by assumption. cbn [mbind result_bind].
    rewrite ip_addr_read_buffer by assumption. reflexivity.
  - rewrite !andb_true_iff, !bool_decide_eq_true.
    intros [[[Hmn Hmx] Hlo] Hhi].
    unfold ip_addr_range_buffer.
    rewrite (ip_addr_buffer_app (ip_addr_buffer _ _)).
    rewrite ip_addr_buffer_app, app_nil_l, <- !app_assoc.
    rewrite io_read_le_bytes. cbn [mbind result_bind].
    rewrite io_read_le_bytes. cbn [mbind result_bind].
    rewrite Hafi.
    change (le_value (le_bytes sizeof_enum TAG_IP_RANGE)) with 2.
    cbn [Z.eqb negb TAG_IP_INHERIT TAG_IP_RANGE TAG_IP_ADDR Pos.eqb].
    rewrite io_read_buf_app by assumption. cbn [mbind result_bind].
    rewrite io_read_buf_app by assumption. cbn [mbind result_bind].
    pose proof (ip_addr_range_read_buffer r rest Hlo Hhi) as Hr.
    unfold ip_addr_range_buffer in Hr.
    rewrite ip_addr_buffer_app, <- app_assoc in Hr. rewrite Hr.
    reflexivity.
  - rewrite !andb_true_iff, !bool_decide_eq_true. intros [-> ->].
    rewrite app_nil_l, <- !app_assoc.
    rewrite io_read_le_bytes. cbn [mbind result_bind].
    rewrite io_read_le_bytes. cbn [mbind result_bind].
    rewrite Hafi. reflexivity.
Qed.

Lemma is_uint32_range (z : Z) : is_uint32 z = true -> 0 <= z < 256 ^ Z.of_nat 4.
Proof.
  unfold is_uint32, UINT32_MAX. rewrite andb_true_iff, !Z.leb_le.
  change (256 ^ Z.of_nat 4) with (2 ^ 32). lia.
Qed.

Lemma cert_as_read_buffer (p : cert_as) (rest : list Z) :
  cert_as_wire_ok p = true ->
  cert_as_read (cert_as_buffer [] p ++ rest) = Ok (p, rest).
Proof.
  unfold cert_as_wire_ok, cert_as_read, cert_as_buffer, io_simple_buffer.
  destruct p as [id|mn mx|]; cbn [as_type_val]; intros H.
  - apply is_uint32_range in H.
    rewrite app_nil_l, <- !app_assoc.
    rewrite io_read_le_bytes. cbn [mbind result_bind].
    change (le_value (le_bytes sizeof_enum TAG_AS_ID)) with 0.
    cbn [Z.eqb TAG_AS_RANGE TAG_AS_ID].
    rewrite io_read_le_bytes. cbn [mbind result_bind].
    unfold sizeof_uint32_t. now rewrite le_value_unsigned.
  - apply andb_true_iff in H. destruct H as [H1 H2].
    apply is_uint32_range in H1. apply is_uint32_range in H2.
    rewrite app_nil_l, <- !app_assoc.
    rewrite io_read_le_bytes. cbn [mbind result_bind].
    change (le_value (le_bytes sizeof_enum TAG_AS_RANGE)) with 2.
    cbn [Z.eqb TAG_AS_RANGE TAG_AS_ID Pos.eqb].
    rewrite io_read_le_bytes. cbn [mbind result_bind].
    rewrite io_read_le_bytes. cbn [mbind result_bind].
    unfold sizeof_uint32_t. now rewrite !le_value_unsigned.
  - rewrite app_nil_l.
    rewrite io_read_le_bytes. reflexivity.
Qed.

Lemma read_array_buffer {A : Type} (wr : list Z -> A -> list Z)
    (rd : list Z -> result (A * list Z)) (ok : A -> bool) :
  (forall b x, wr b x = b ++ wr [] x) ->
  (forall x rest, ok x = true -> rd (wr [] x ++ rest) = Ok (x, rest)) ->
  forall l rest,
    forallb ok l = true ->
    read_array rd (length l) (fold_left wr l [] ++ rest) = Ok (l, rest).
Proof.
  intros Hwr Hrd. induction l as [|x l IH]; intros rest Hok; simpl.
  - reflexivity.
  - simpl in Hok. apply andb_true_iff in Hok. destruct Hok as [Hx Hl].
    rewrite (fold_left_buffer_app wr Hwr), <- app_assoc, Hwr, app_nil_l.
    rewrite Hrd by assumption. cbn [mbind result_bind].
    rewrite IH by assumption. reflexivity.
Qed.

(** C3, as the code has it. For every certificate record that fits the stream
    (fields within their C types, no empty string, the assertions of the
    reader satisfied), reading back what [cert_buffer] wrote yields a
    record equal to the original in every field except the X.509 handle,
    which is not transmitted and is null in the record read. *)
Theorem cert_read_buffer_all_but_x509 (c : cert) (rest : list Z) :
  cert_wire_ok c = true ->
  cert_read (cert_buffer [] c ++ rest) = Ok (set_x509 None c, rest).
Proof.
  unfold cert_wire_ok.
  rewrite !andb_true_iff, !Z.leb_le, !Z.ltb_lt, orb_true_iff,
    !bool_decide_eq_true.
  intros [[[[[[[[[[[[[[[[[[Hv1 Hv2] He1] He2] Hips] Has] Hipok] Hasok]
    Hmft] Hnotify] Hrepo] Hcrl] Haia] Haki] Hski] Htal] Hpubkey] Hassert1]
    Hassert2].
  unfold cert_buffer, io_simple_buffer.
  rewrite !(io_str_buffer_app (io_str_buffer _ _)).
  rewrite (io_str_buffer_app (fold_left _ _ _)).
  rewrite (fold_left_buffer_app cert_as_buffer cert_as_buffer_app _ (_ ++ _)).
  rewrite (fold_left_buffer_app cert_ip_buffer cert_ip_buffer_app _ (_ ++ _)).
  rewrite ?app_nil_l, <- !app_assoc.
  unfold cert_read.
  rewrite io_read_le_bytes. cbn [mbind result_bind].
  rewrite io_read_le_bytes. cbn [mbind result_bind].
  rewrite io_read_le_bytes. cbn [mbind result_bind].
  rewrite io_read_le_bytes. cbn [mbind result_bind].
  unfold SIZE_MAX, ipsz, asz in *.
  rewrite (le_value_unsigned sizeof_size_t (Z.of_nat (length (ips c))))
    by (change (256 ^ Z.of_nat sizeof_size_t) with (2 ^ 64); lia).
  rewrite Nat2Z.id.
  rewrite (read_array_buffer cert_ip_buffer cert_ip_read cert_ip_wire_ok
             cert_ip_buffer_app cert_ip_read_buffer) by assumption.
  cbn [mbind result_bind].
  rewrite io_read_le_bytes. cbn [mbind result_bind].
  rewrite (le_value_unsigned sizeof_size_t (Z.of_nat (length (as_ c))))
    by (change (256 ^ Z.of_nat sizeof_size_t) with (2 ^ 64); lia).
  rewrite Nat2Z.id.
  rewrite (read_array_buffer cert_as_buffer cert_as_read cert_as_wire_ok
             cert_as_buffer_app cert_as_read_buffer) by assumption.
  cbn [mbind result_bind].
  do 8 (rewrite io_read_str_buffer by assumption; cbn [mbind result_bind]).
  rewrite <- (app_nil_r (io_str_buffer [] (pubkey c))) at 1.
  rewrite <- app_assoc.
  rewrite io_read_str_buffer by assumption. cbn [mbind result_bind].
  replace (purpose_of_val (le_value (le_bytes sizeof_enum
             (purpose_val (purpose c))))) with (Some (purpose c))
    by (destruct (purpose c); reflexivity).
  rewrite le_value_int, le_value_time_t by lia.
  assert (Ha : bool_decide (mft c ≠ None) ||
               bool_decide (purpose c = CERT_PURPOSE_BGPSEC_ROUTER) = true).
  { apply orb_true_iff. now rewrite !bool_decide_eq_true. }
  rewrite Ha. cbn [negb].
  rewrite bool_decide_eq_false_2 by assumption.
  rewrite app_nil_l. destruct c; reflexivity.
Qed.

Lemma cert_read_buffer_all_but_x509_witness :
  cert_wire_ok Sample.ta_cert = true /\
  cert_read (cert_buffer [] Sample.ta_cert ++ []) =
    Ok (set_x509 None Sample.ta_cert, []).
Proof.
  split; [reflexivity|].
  apply (cert_read_buffer_all_but_x509 Sample.ta_cert []). reflexivity.
Defined.

(** C3, as stated, fails: the certificate the parser returns for the sample
    CA holds its X.509 handle, and the record read back from its
    serialization does not. *)
Lemma cert_read_buffer_drops_x509 :
  exists c c',
    Sample.cert_parse_inner "ca.cer" (Some Sample.ca_der) false = Ok (Some c)
    /\ cert_read (cert_buffer [] c) = Ok (c', [])
    /\ x509 c = Some Sample.ca_x509 /\ x509 c' = None /\ c' <> c.
Proof.
  eexists. eexists. split; [vm_compute; reflexivity|].
  split; [vm_compute; reflexivity|].
  split; [reflexivity|]. split; [reflexivity|]. discriminate.
Qed.

(** ** BGPsec router keys *)

Section BrkFacts.

Variable c : cert.
Variables t s k : string.
Hypothesis Htal : tal c = Some t.
Hypothesis Hski : ski c = Some s.
Hypothesis Hpubkey : pubkey c = Some k.

(** The record [insert_brk] synthesizes. *)
Lemma insert_brk_unfold (tree : brk_tree) (asid : Z) :
  insert_brk tree c asid =
  match tree !! (to_uint32 asid, s, k) with
  | Some found =>
      if brk_expires found <? expires c then
        Ok (<[(to_uint32 asid, s, k) :=
               {| brk_asid := brk_asid found; brk_tal := t;
                  brk_ski := brk_ski found; brk_pubkey := brk_pubkey found;
                  brk_expires := expires c |}]> tree)
      else Ok tree
  | None =>
      Ok (<[(to_uint32 asid, s, k) :=
             {| brk_asid := to_uint32 asid; brk_tal := t; brk_ski := s;
                brk_pubkey := k; brk_expires := expires c |}]> tree)
  end.
Proof.
  unfold insert_brk. rewrite Htal, Hski, Hpubkey. reflexivity.
Qed.

Lemma insert_brk_ok (tree : brk_tree) (asid : Z) :
  exists tree', insert_brk tree c asid = Ok tree'.
Proof.
  rewrite insert_brk_unfold.
  destruct (tree !! _) as [found|]; [destruct (_ <? _)|]; eauto.
Qed.

Lemma insert_brks_ok (l : list Z) (tree : brk_tree) :
  exists tree', insert_brks tree c l = Ok tree'.
Proof.
  revert tree. induction l as [|a l IH]; intros tree; simpl; [eauto|].
  destruct (insert_brk_ok tree (to_int a)) as [t1 ->]. simpl. apply IH.
Qed.

Lemma insert_brks_app (l1 l2 : list Z) (tree : brk_tree) :
  insert_brks tree c (l1 ++ l2) =
  tree' ← insert_brks tree c l1; insert_brks tree' c l2.
Proof.
  revert tree. induction l1 as [|a l1 IH]; intros tree; simpl; [reflexivity|].
  destruct (insert_brk tree c (to_int a)); simpl; auto.
Qed.

(** The expansion loop is one [insert_brk] per value of its counter. *)
Lemma brk_range_loop_fold (fuel : nat) (tree : brk_tree) (asid max : Z)
    (n : nat) (l : list Z) :
  range_asids fuel asid max = Some l ->
  exists tree',
    insert_brks tree c l = Ok tree' /\
    brk_range_loop fuel tree c asid max n = Some (Ok (tree', (n + length l)%nat)).
Proof.
  revert tree asid n l. induction fuel as [|fuel IH]; intros tree asid n l;
    simpl; [discriminate|].
  destruct (asid <=? max).
  - destruct (range_asids fuel _ max) as [l'|] eqn:E; [|discriminate].
    simpl. intros [= <-].
    destruct (insert_brk_ok tree (to_int asid)) as [t1 Ht1]. rewrite Ht1.
    destruct (IH t1 _ (S n) l' E) as (t2 & H1 & H2).
    exists t2. simpl. rewrite Ht1. simpl. split; [exact H1|].
    rewrite H2. do 3 f_equal. lia.
  - intros [= <-]. exists tree. split; [reflexivity|].
    simpl. do 3 f_equal. lia.
Qed.

Lemma cert_insert_brks_as_fold (fuel : nat) (las : list cert_as)
    (tree : brk_tree) (l : list Z) :
  brk_asids fuel las = Some l ->
  cert_insert_brks_as fuel tree c las = Some (insert_brks tree c l).
Proof.
  revert tree l. induction las as [|a las IH]; intros tree l; simpl.
  - intros [= <-]. reflexivity.
  - destruct a as [id|mn mx|].
    + destruct (brk_asids fuel las) as [l'|] eqn:E; [|discriminate].
      simpl. intros [= <-]. simpl.
      destruct (insert_brk_ok tree (to_int id)) as [t1 ->]. simpl.
      now apply IH.
    + destruct (range_asids fuel mn mx) as [r|] eqn:Er; [|discriminate].
      destruct (brk_asids fuel las) as [l'|] eqn:E; [|discriminate].
      intros [= <-].
      destruct (brk_range_loop_fold fuel tree mn mx O r Er) as (t1 & H1 & H2).
      rewrite H2, insert_brks_app, H1. simpl. now apply IH.
    + apply IH.
Qed.

(** The counter of the expansion loop runs through [asid], [asid + 1], ...,
    [max] without wrapping, provided [max] is a 32-bit number. *)
Lemma range_asids_seqZ (n fuel : nat) (asid max : Z) :
  0 <= asid -> max <= UINT32_MAX ->
  asid + Z.of_nat n = max + 1 -> (n < fuel)%nat ->
  range_asids fuel asid max = Some (seqZ asid (Z.of_nat n)).
Proof.
  unfold UINT32_MAX.
  revert fuel asid. induction n as [|n IH]; intros fuel asid H0 Hmax Hn Hf;
    (destruct fuel as [|fuel]; [lia|]); simpl.
  - destruct (Z.leb_spec asid max); [lia | reflexivity].
  - destruct (Z.leb_spec asid max); [|lia].
    assert (Hs : to_size_t (asid + 1) = asid + 1).
    { unfold to_size_t. apply Z.mod_small. lia. }
    rewrite Hs, (IH fuel (asid + 1)) by lia. simpl.
    rewrite (seqZ_cons asid) by lia. do 3 f_equal. lia.
Qed.

(** With enough fuel the loop ends, whatever the range. *)
Lemma range_asids_fuel (fuel : nat) (asid max : Z) :
  0 <= asid -> max <= UINT32_MAX ->
  Z.max 0 (max - asid + 1) < Z.of_nat fuel ->
  exists l, range_asids fuel asid max = Some l.
Proof.
  intros H0 Hmax Hf. destruct (Z.leb_spec asid max) as [Hle|Hgt].
  - exists (seqZ asid (Z.of_nat (Z.to_nat (max + 1 - asid)))).
    apply range_asids_seqZ; lia.
  - destruct fuel as [|fuel]; [lia|]. simpl.
    destruct (Z.leb_spec asid max); [lia | eauto].
Qed.

End BrkFacts.

Lemma brk_fuel_pos (l : list cert_as) : 1 <= brk_fuel l.
Proof. induction l as [|[| |] l IH]; simpl; lia. Qed.

Lemma brk_asids_fuel (fuel : nat) (las : list cert_as) :
  Forall as_entry_uint32 las -> brk_fuel las <= Z.of_nat fuel ->
  exists l, brk_asids fuel las = Some l.
Proof.
  induction las as [|a las IH]; intros Hall Hf; simpl; [eauto|].
  inversion Hall as [|? ? Ha Hall']; subst.
  destruct a as [id|mn mx|]; simpl in Hf.
  - destruct IH as [l ->]; [assumption | lia |]. simpl. eauto.
  - destruct Ha as [Hmn Hmx]. pose proof (brk_fuel_pos las).
    destruct (range_asids_fuel fuel mn mx) as [r ->]; [lia | lia | lia |].
    destruct IH as [l ->]; [assumption | lia |]. eauto.
  - apply IH; [assumption | lia].
Qed.

(** [insert_brk] never ends the process in the embedding. *)
Lemma brk_range_loop_terminates (c : cert) (fuel : nat) (tree : brk_tree)
    (asid max : Z) (n : nat) (l : list Z) :
  range_asids fuel asid max = Some l ->
  exists r, brk_range_loop fuel tree c asid max n = Some r.
Proof.
  revert tree asid n l. induction fuel as [|fuel IH]; intros tree asid n l;
    simpl; [discriminate|].
  destruct (asid <=? max); [|eauto].
  destruct (range_asids fuel _ max) as [l'|] eqn:E; [|discriminate].
  intros _. destruct (insert_brk tree c (to_int asid)); eauto.
Qed.

Lemma cert_insert_brks_as_terminates (c : cert) (fuel : nat)
    (las : list cert_as) (tree : brk_tree) (l : list Z) :
  brk_asids fuel las = Some l ->
  exists r, cert_insert_brks_as fuel tree c las = Some r.
Proof.
  revert tree l. induction las as [|a las IH]; intros tree l; simpl; [eauto|].
  destruct a as [id|mn mx|].
  - destruct (brk_asids fuel las) as [l'|] eqn:E; [|discriminate].
    intros _. destruct (insert_brk tree c (to_int id)); eauto.
  - destruct (range_asids fuel mn mx) as [r|] eqn:Er; [|discriminate].
    destruct (brk_asids fuel las) as [l'|] eqn:E; [|discriminate].
    intros _.
    destruct (brk_range_loop_terminates c fuel tree mn mx O r Er) as [x ->].
    destruct x as [[t1 n1]| |]; eauto.
  - apply IH.
Qed.

(** C7. [cert_insert_brks] is one [insert_brk] per synthesized key, and an
    [insert_brk] whose key [(asid, ski, pubkey)] is already in the set
    leaves the set with the same keys, hence one entry for that key, and
    every other entry untouched: when the new expiry is later the entry
    takes the new expiry together with the new TAL; when it is not later
    the set is unchanged and the new record is dropped. *)
Theorem insert_brk_collision_keeps_later (c : cert) (t s k : string) :
  tal c = Some t -> ski c = Some s -> pubkey c = Some k ->
  (forall (fuel : nat) (tree : brk_tree) (l : list Z),
     brk_asids fuel (as_ c) = Some l ->
     cert_insert_brks fuel tree c = Some (insert_brks tree c l)) /\
  (forall (tree : brk_tree) (asid : Z) (found : brk),
     tree !! (to_uint32 asid, s, k) = Some found ->
     exists tree',
       insert_brk tree c asid = Ok tree' /\
       dom tree' = dom tree /\
       (forall key, key <> (to_uint32 asid, s, k) ->
                    tree' !! key = tree !! key) /\
       (brk_expires found < expires c ->
        tree' !! (to_uint32 asid, s, k) =
          Some {| brk_asid := brk_asid found; brk_tal := t;
                  brk_ski := brk_ski found; brk_pubkey := brk_pubkey found;
                  brk_expires := expires c |}) /\
       (expires c <= brk_expires found -> tree' = tree)).
Proof.
  intros Htal Hski Hpubkey. split.
  - intros fuel tree l Hl. unfold cert_insert_brks.
    eapply cert_insert_brks_as_fold; eauto.
  - intros tree asid found Hfound.
    rewrite (insert_brk_unfold c t s k Htal Hski Hpubkey), Hfound.
    destruct (Z.ltb_spec (brk_expires found) (expires c)) as [Hlt|Hge].
    + eexists. split; [reflexivity|]. split; [|split; [|split]].
      * rewrite dom_insert_L. apply elem_of_dom_2 in Hfound.
        apply set_eq. intros key. rewrite elem_of_union, elem_of_singleton.
        split; [intros [->|?]; assumption | auto].
      * intros key Hkey. now rewrite lookup_insert_ne.
      * intros _. now rewrite lookup_insert_eq.
      * lia.
    + exists tree. split; [reflexivity|]. split; [reflexivity|].
      split; [reflexivity|]. split; [lia | reflexivity].
Qed.

Lemma insert_brk_collision_keeps_later_witness :
  tal Sample.router_cert = Some "example" /\
  ski Sample.router_cert = Some "RTR:SKI" /\
  pubkey Sample.router_cert = Some "MFkw" /\
  cert_insert_brks 10 Sample.brks Sample.router_cert =
    Some (insert_brks Sample.brks Sample.router_cert
            [64500; 64501; 64502; 64510]) /\
  exists tree',
    insert_brk Sample.brks Sample.router_cert 64501 = Ok tree' /\
    tree' !! (to_uint32 64501, "RTR:SKI", "MFkw") =
      Some {| brk_asid := 64501; brk_tal := "example";
              brk_ski := "RTR:SKI"; brk_pubkey := "MFkw";
              brk_expires := 1700000000 |}.
Proof.
  destruct (insert_brk_collision_keeps_later Sample.router_cert
              "example" "RTR:SKI" "MFkw" eq_refl eq_refl eq_refl)
    as [Hfold Hcoll].
  split; [reflexivity|]. split; [reflexivity|]. split; [reflexivity|].
  split.
  - apply (Hfold 10%nat Sample.brks). reflexivity.
  - destruct (Hcoll Sample.brks 64501 Sample.brk_64501 eq_refl)
      as (tree' & H1 & _ & _ & H2 & _).
    exists tree'. split; [exact H1|]. apply H2. reflexivity.
Defined.

(** C10. [cert_insert_brks] terminates: with fuel beyond the longest range
    of the certificate it returns, whatever the tree; that fuel never needs
    to exceed 2^32 + 1; and for a range [min <= max <= 2^32 - 1] the
    counter of the expansion loop takes the values [min], ..., [max] in
    turn, without wrapping, so that the loop performs exactly
    [max - min + 1] iterations. *)
Theorem cert_insert_brks_terminates (c : cert) (tree : brk_tree) :
  (Forall as_entry_uint32 (as_ c) ->
   brk_fuel (as_ c) <= UINT32_MAX + 2 /\
   forall fuel : nat,
     brk_fuel (as_ c) <= Z.of_nat fuel ->
     exists r, cert_insert_brks fuel tree c = Some r) /\
  (forall (min max : Z) (fuel : nat) (t s k : string),
     tal c = Some t -> ski c = Some s -> pubkey c = Some k ->
     0 <= min <= max -> max <= UINT32_MAX ->
     max - min + 1 < Z.of_nat fuel ->
     range_asids fuel min max = Some (seqZ min (max - min + 1)) /\
     exists tree',
       brk_range_loop fuel tree c min max O =
         Some (Ok (tree', Z.to_nat (max - min + 1)))).
Proof.
  split.
  - intros Hall. split.
    + induction Hall as [|a l Ha _ IH]; simpl; [unfold UINT32_MAX; lia|].
      destruct a as [id|mn mx|]; simpl in *; unfold UINT32_MAX in *; lia.
    + intros fuel Hf.
      destruct (brk_asids_fuel fuel (as_ c) Hall Hf) as [l Hl].
      unfold cert_insert_brks.
      eapply cert_insert_brks_as_terminates; eauto.
  - intros min max fuel t s k Htal Hski Hpubkey Hmin Hmax Hf.
    assert (Hr : range_asids fuel min max =
                 Some (seqZ min (Z.of_nat (Z.to_nat (max - min + 1))))).
    { apply range_asids_seqZ; lia. }
    rewrite Z2Nat.id in Hr by lia. split; [exact Hr|].
    destruct (brk_range_loop_fold c t s k Htal Hski Hpubkey fuel tree
                min max O _ Hr) as (tree' & _ & H2).
    exists tree'. rewrite H2. do 3 f_equal.
    rewrite length_seqZ. lia.
Qed.

Lemma cert_insert_brks_terminates_witness :
  (Forall as_entry_uint32 (as_ Sample.router_cert) /\
   brk_fuel (as_ Sample.router_cert) <= Z.of_nat 10 /\
   exists r, cert_insert_brks 10 Sample.brks Sample.router_cert = Some r) /\
  (range_asids 10 64500 64502 = Some (seqZ 64500 (64502 - 64500 + 1)) /\
   exists tree',
     brk_range_loop 10 Sample.brks Sample.router_cert 64500 64502 O =
       Some (Ok (tree', Z.to_nat (64502 - 64500 + 1)))).
Proof.
  destruct (cert_insert_brks_terminates Sample.router_cert Sample.brks)
    as [Hterm Hcount].
  assert (Hall : Forall as_entry_uint32 (as_ Sample.router_cert)).
  { repeat constructor; vm_compute; congruence. }
  assert (Hf : brk_fuel (as_ Sample.router_cert) <= Z.of_nat 10).
  { vm_compute. congruence. }
  split.
  - split; [exact Hall|]. split; [exact Hf|].
    exact (proj2 (Hterm Hall) 10%nat Hf).
  - apply (Hcount 64500 64502 10%nat "example" "RTR:SKI" "MFkw");
      [reflexivity | reflexivity | reflexivity | lia | vm_compute; congruence
      | lia].
Defined.

(** ** The examples of the specification *)

Example valid_filename_examples :
  valid_filename "a.cer" = 1 /\ valid_filename "A.CER" = 1 /\
  valid_filename ".cer" = 0 /\ valid_filename "a.b.cer" = 0 /\
  valid_filename "a-b_c.ROA" = 1 /\ valid_filename "a.txt" = 0.
Proof. repeat split. Qed.

Example valid_uri_examples :
  valid_uri "rsync://x/y.mft" (Some "rsync://") = 1 /\
  valid_uri "https://x/./y" (Some "https://") = 0 /\
  valid_uri "http://x" (Some "https://") = 0.
Proof. repeat split. Qed.

(** S1: the trust anchor is accepted on an empty tree and refused once its
    SKI is in the tree. *)
Example scenario_ta_install :
  valid_ta "ta.cer" ∅ Sample.ta_cert = Ok 1 /\
  valid_ta "ta.cer" Sample.auths Sample.ta_cert = Ok 0.
Proof. split; reflexivity. Qed.

(** S5: a ROA for 10.1.0.0/24 below the trust anchor is valid and carries
    the TAL of its chain. *)
Example scenario_roa_covered :
  exists r',
    valid_roa SpecModel.ip_addr_check_covered "a.roa" Sample.auths
      Sample.roa_10_1_24 = Ok (1, r') /\
    roa_tal r' = Some "example".
Proof. eexists. split; reflexivity. Qed.

(** S2 and S3: below the trust anchor holding 10.0.0.0/8 and AS 64500, a
    certificate for 10.1.0.0/16 is valid and one for 11.0.0.0/8 is not. *)
Example scenario_child_certs :
  valid_cert SpecModel.as_check_covered SpecModel.ip_addr_check_covered
    "ca.cer" Sample.auths Sample.child_10_1_16 = Ok 1 /\
  valid_cert SpecModel.as_check_covered SpecModel.ip_addr_check_covered
    "ca.cer" Sample.auths Sample.child_11_8 = Ok 0.
Proof. split; reflexivity. Qed.

(** With an accumulator that refuses overlaps and a second inherit, as the
    specification words it, the parser returns an AS set that inherits at
    its second entry, and [valid_ta] accepts the certificate. *)
Example parsed_ta_inherit_second :
  exists c,
    Sample.cert_parse_inner "ta2.cer" (Some Sample.ta2_der) true = Ok (Some c)
    /\ as_ c = [CERT_AS_ID 64500; CERT_AS_INHERIT]
    /\ valid_ta "ta2.cer" ∅ c = Ok 1.
Proof.
  eexists. split; [vm_compute; reflexivity|]. split; reflexivity.
Qed.

(** For a trust anchor the parser does not read the AIA and the CRL
    distribution point off the X.509 object: the record fields stay null,
    and a self-signed certificate carrying both is accepted. *)
Example ta_aia_crl_not_read :
  exists c,
    Sample.cert_parse_inner "ta3.cer" (Some Sample.ta3_der) true = Ok (Some c)
    /\ aia c = None /\ crl c = None
    /\ X509_aia Sample.ta3_x509 <> None /\ X509_crl Sample.ta3_x509 <> None.
Proof.
  eexists. split; [vm_compute; reflexivity|]. repeat split; discriminate.
Qed.

(* ===================================================================== *)
(** * Part III: further properties of the code                            *)
(* ===================================================================== *)

(** ** URIs *)

Lemma uri_step_char (c : ascii) :
  negb (C.isalnum c) && negb (C.ispunct c) = false <-> uri_char c.
Proof.
  unfold uri_char, C.ispunct. destruct (C.isalnum c) eqn:E; simpl.
  - split; [intros _|reflexivity].
    unfold C.isalnum, C.isdigit, C.isupper, C.islower in E.
    rewrite !orb_true_iff, !andb_true_iff, !Z.leb_le in E. lia.
  - rewrite andb_true_r, negb_false_iff, andb_true_iff, !Z.leb_le. tauto.
Qed.

Lemma uri_chars_spec (s : string) :
  uri_chars s = true <-> Forall uri_char (chars s).
Proof.
  induction s as [|c s IH]; simpl.
  - split; auto.
  - destruct (negb (C.isalnum c) && negb (C.ispunct c)) eqn:E.
    + split; [discriminate|]. intros H. inversion H as [|? ? Hc _]; subst.
      apply uri_step_char in Hc. congruence.
    + apply uri_step_char in E. rewrite IH. split.
      * intros H. now constructor.
      * intros H. now inversion H.
Qed.

Lemma tolower_zero (c : ascii) : C.tolower c = 0 -> C.code c = 0.
Proof.
  unfold C.tolower, C.isupper.
  destruct (andb (65 <=? C.code c) (C.code c <=? 90)) eqn:E; [|auto].
  apply andb_true_iff in E. rewrite !Z.leb_le in E. lia.
Qed.

Lemma has_proto_nil_l (p : string) :
  has_proto EmptyString p <-> p = EmptyString.
Proof.
  split.
  - intros (pre & rest & Heq & H).
    destruct pre as [|x pre]; [|discriminate].
    destruct p; [reflexivity | inversion H].
  - intros ->. exists EmptyString, EmptyString. split; [reflexivity | constructor].
Qed.

Lemma has_proto_cons (x y : ascii) (u p : string) :
  has_proto (String x u) (String y p) <-> same_char_ci x y /\ has_proto u p.
Proof.
  split.
  - intros (pre & rest & Heq & H).
    destruct pre as [|x' pre]; [inversion H|].
    change (String x u = String x' (pre +:+ rest)) in Heq.
    injection Heq as <- ->. simpl in H. inversion H; subst.
    split; [assumption|]. now exists pre, rest.
  - intros [Hc (pre & rest & -> & H)].
    exists (String x pre), rest. split; [reflexivity|].
    simpl. now constructor.
Qed.

(** [strncasecmp] over the length of a NUL-free [p] tests for the prefix. *)
Lemma strncasecmp_proto (p uri : string) :
  Forall (fun c => C.code c <> 0) (chars p) ->
  C.strncasecmp uri p (String.length p) = 0 <-> has_proto uri p.
Proof.
  revert uri. induction p as [|y p IH]; intros uri Hnz.
  - split; [intros _ | intros _; destruct uri; reflexivity].
    exists EmptyString, uri. split; [reflexivity | constructor].
  - simpl in Hnz. inversion Hnz as [|? ? Hy Hp]; subst.
    destruct uri as [|x u]; cbn [C.strncasecmp String.length].
    + rewrite has_proto_nil_l. split; [|discriminate].
      intros H. exfalso. apply Hy, tolower_zero. lia.
    + rewrite has_proto_cons. unfold same_char_ci.
      destruct (Z.eqb_spec (C.tolower x) (C.tolower y)) as [E|E].
      * rewrite (IH u Hp). tauto.
      * split; [lia | tauto].
Qed.

Lemma occurs_in_cons (n : string) (x : ascii) (h : string) :
  occurs_in n h -> occurs_in n (String x h).
Proof.
  intros (pre & suf & ->). now exists (String x pre), suf.
Qed.

Lemma byte_prefix_occurs (n h : string) : byte_prefix n h -> occurs_in n h.
Proof. intros [t ->]. now exists EmptyString, t. Qed.

Lemma strstr_Some_occurs (h n : string) (i : nat) :
  C.strstr h n = Some i -> occurs_in n h.
Proof.
  revert i. induction h as [|x h IH]; intros i; cbn [C.strstr].
  - destruct (C.is_prefix n EmptyString) eqn:E; [|discriminate].
    intros _. now apply byte_prefix_occurs, is_prefix_spec.
  - destruct (C.is_prefix n (String x h)) eqn:E.
    + intros _. now apply byte_prefix_occurs, is_prefix_spec.
    + destruct (C.strstr h n) as [j|]; [|discriminate].
      intros _. apply occurs_in_cons. now apply (IH j).
Qed.

(** [strstr] finds an occurrence exactly when there is one. *)
Lemma strstr_None (h n : string) :
  C.strstr h n = None <-> ~ occurs_in n h.
Proof.
  induction h as [|x h IH]; cbn [C.strstr].
  - destruct (C.is_prefix n EmptyString) eqn:E.
    + apply is_prefix_spec, byte_prefix_occurs in E.
      split; [discriminate | contradiction].
    + split; [intros _|reflexivity].
      intros (pre & suf & Heq). destruct pre; [|discriminate].
      assert (C.is_prefix n EmptyString = true); [|congruence].
      apply is_prefix_spec. now exists suf.
  - destruct (C.is_prefix n (String x h)) eqn:E.
    + apply is_prefix_spec, byte_prefix_occurs in E.
      split; [discriminate | contradiction].
    + destruct (C.strstr h n) as [i|] eqn:Es; simpl.
      * split; [discriminate|]. intros Hn. exfalso. apply Hn.
        apply occurs_in_cons. now apply (strstr_Some_occurs h n i).
      * split; [intros _|reflexivity].
        intros (pre & suf & Heq). destruct pre as [|x' pre].
        -- assert (C.is_prefix n (String x h) = true); [|congruence].
           apply is_prefix_spec. now exists suf.
        -- change (String x h = String x' (pre +:+ (n +:+ suf))) in Heq.
           injection Heq as <- ->.
           apply (proj1 IH eq_refl). now exists pre, suf.
Qed.

(** X1. [valid_uri] returns 1 exactly for the URIs made of printing
    characters other than the space, that start with the protocol (letter
    case apart) when one is given, and in which ["/."] does not occur; it
    returns 0 on every other URI. *)
Theorem valid_uri_iff (uri : string) (proto : option string) :
  (forall p, proto = Some p -> Forall (fun c => C.code c <> 0) (chars p)) ->
  (valid_uri uri proto = 1 <->
     Forall uri_char (chars uri) /\
     (forall p, proto = Some p -> has_proto uri p) /\
     ~ occurs_in "/." uri) /\
  (valid_uri uri proto = 1 \/ valid_uri uri proto = 0).
Proof.
  intros Hnz. unfold valid_uri.
  destruct (uri_chars uri) eqn:Ec; cbn [negb].
  2:{ split; [|now right]. split; [discriminate|].
      intros (H & _). apply uri_chars_spec in H. congruence. }
  apply uri_chars_spec in Ec.
  assert (Hproto :
    match proto with
    | Some p => negb (C.strncasecmp uri p (String.length p) =? 0)
    | None => false
    end = false <-> (forall p, proto = Some p -> has_proto uri p)).
  { destruct proto as [p|].
    - rewrite negb_false_iff, Z.eqb_eq, strncasecmp_proto by now apply Hnz.
      split; [intros H q [= <-]; exact H | intros H; now apply H].
    - split; [intros _ q; discriminate | reflexivity]. }
  destruct (match proto with Some _ => _ | None => _ end).
  { split; [|now right]. split; [discriminate|].
    intros (_ & H & _). apply Hproto in H. discriminate. }
  destruct (bool_decide_reflect (C.strstr uri "/." ≠ None)) as [Hs|Hs].
  - split; [|now right]. split; [discriminate|].
    intros (_ & _ & H). apply strstr_None in H. contradiction.
  - split; [|now left]. split; [|reflexivity]. intros _.
    split; [exact Ec|]. split; [now apply Hproto|].
    apply strstr_None. destruct (C.strstr uri "/."); [|reflexivity].
    exfalso. apply Hs. discriminate.
Qed.

Lemma valid_uri_iff_witness :
  (forall p, Some "rsync://" = Some p ->
             Forall (fun c => C.code c <> 0) (chars p)) /\
  (valid_uri "rsync://x/y.mft" (Some "rsync://") = 1 <->
     Forall uri_char (chars "rsync://x/y.mft") /\
     (forall p, Some "rsync://" = Some p -> has_proto "rsync://x/y.mft" p) /\
     ~ occurs_in "/." "rsync://x/y.mft") /\
  (valid_uri "rsync://x/y.mft" (Some "rsync://") = 1 \/
   valid_uri "rsync://x/y.mft" (Some "rsync://") = 0).
Proof.
  assert (H : forall p, Some "rsync://" = Some p ->
                        Forall (fun c => C.code c <> 0) (chars p)).
  { intros p [= <-]. repeat constructor; discriminate. }
  split; [exact H|].
  exact (valid_uri_iff "rsync://x/y.mft" (Some "rsync://") H).
Defined.

(** ** The validator and the tree *)

Section ValidatorFacts.

Variable as_check_covered : Z -> Z -> list cert_as -> Z.
Variable ip_addr_check_covered : afi -> list Z -> list Z -> list cert_ip -> Z.

Lemma valid_as_01 (a : option auth) (min max : Z) :
  valid_as as_check_covered a min max = 0 \/
  valid_as as_check_covered a min max = 1.
Proof.
  rewrite valid_as_walk. unfold walk_verdict.
  destruct (first_definitive _) as [[| |]|]; auto.
Qed.

Lemma valid_cert_as_spec (a : auth) (pu : cert_purpose) (l : list cert_as) :
  valid_cert_as as_check_covered a pu l = true <->
  Forall (cert_as_covered as_check_covered a pu) l.
Proof.
  induction l as [|e l IH]; cbn [valid_cert_as].
  - split; auto.
  - rewrite Forall_cons, <- IH. destruct e as [id|mn mx|];
      cbn [cert_as_covered].
    + destruct (valid_as_01 (Some a) id id) as [E|E]; rewrite E;
        cbn [Z.eqb negb].
      * split; [discriminate | intros [? _]; discriminate].
      * split; [intros ?; split; [reflexivity | assumption]
               | intros [_ ?]; assumption].
    + destruct (valid_as_01 (Some a) mn mx) as [E|E]; rewrite E;
        cbn [Z.eqb negb].
      * split; [discriminate | intros [? _]; discriminate].
      * split; [intros ?; split; [reflexivity | assumption]
               | intros [_ ?]; assumption].
    + destruct (bool_decide_reflect (pu = CERT_PURPOSE_BGPSEC_ROUTER)).
      * split; [discriminate | intros [? _]; contradiction].
      * split; [intros ?; split; assumption | intros [_ ?]; assumption].
Qed.

Lemma valid_cert_ips_spec (a : auth) (l : list cert_ip) :
  valid_cert_ips ip_addr_check_covered a l = true <->
  Forall (cert_ip_covered ip_addr_check_covered a) l.
Proof.
  induction l as [|ip l IH]; cbn [valid_cert_ips].
  - split; auto.
  - rewrite Forall_cons, <- IH. unfold cert_ip_covered.
    destruct (valid_ip_01 ip_addr_check_covered (Some a) (ip_afi ip)
                (ip_min ip) (ip_max ip)) as [E|E]; rewrite E;
      cbn [Z.eqb negb].
    + split; [discriminate | intros [? _]; discriminate].
    + split; [intros ?; split; [reflexivity | assumption]
             | intros [_ ?]; assumption].
Qed.

(** X2. Once the parent authority is located, [valid_cert] returns 1 exactly
    when every AS entry that does not inherit is covered by the chain, no
    AS entry of a BGPsec router certificate inherits, and every IP entry,
    with its [min] and [max], is covered by the chain; otherwise it
    returns 0. *)
Theorem valid_cert_iff (fn : string) (auths : auth_tree) (c : cert)
    (a : auth) :
  valid_ski_aki fn auths (ski c) (aki c) = Ok (Some a) ->
  (valid_cert as_check_covered ip_addr_check_covered fn auths c = Ok 1 <->
     Forall (cert_as_covered as_check_covered a (purpose c)) (as_ c) /\
     Forall (cert_ip_covered ip_addr_check_covered a) (ips c)) /\
  (valid_cert as_check_covered ip_addr_check_covered fn auths c = Ok 1 \/
   valid_cert as_check_covered ip_addr_check_covered fn auths c = Ok 0).
Proof.
  intros Ha. unfold valid_cert. rewrite Ha. cbn [mbind result_bind].
  rewrite <- valid_cert_as_spec, <- valid_cert_ips_spec.
  destruct (valid_cert_as _ _ _ _); cbn [negb].
  - destruct (valid_cert_ips _ _ _); cbn [negb].
    + split; [tauto | now left].
    + split; [|now right]. split; [discriminate | intros [_ ?]; discriminate].
  - split; [|now right]. split; [discriminate | intros [? _]; discriminate].
Qed.

(** X3. An object whose SKI is already a key of the tree is refused:
    [valid_ta] and [valid_cert] return 0, and [valid_roa] returns 0 and
    leaves the ROA as it was. *)
Theorem duplicate_ski_refused (fn : string) (auths : auth_tree)
    (s : string) (a : auth) :
  auths !! s = Some a ->
  (forall c, ski c = Some s ->
     valid_ta fn auths c = Ok 0 /\
     valid_cert as_check_covered ip_addr_check_covered fn auths c = Ok 0) /\
  (forall r, roa_ski r = Some s ->
     valid_roa ip_addr_check_covered fn auths r = Ok (0, r)).
Proof.
  intros Hs. split.
  - intros c Hc. split.
    + unfold valid_ta. rewrite Hc. cbn [auth_find]. rewrite Hs.
      destruct (_ && _); [reflexivity|].
      destruct (existsb _ _); reflexivity.
    + unfold valid_cert, valid_ski_aki. rewrite Hc. cbn [auth_find].
      rewrite Hs. reflexivity.
  - intros r Hr. unfold valid_roa, valid_ski_aki. rewrite Hr.
    cbn [auth_find]. rewrite Hs. reflexivity.
Qed.

(** X4. An object whose AKI is not a key of the tree is refused: with a SKI
    that is not in the tree either, [valid_cert] returns 0, and [valid_roa]
    returns 0 and leaves the ROA as it was. *)
Theorem unknown_aki_refused (fn : string) (auths : auth_tree)
    (s k : string) :
  auths !! s = None -> auths !! k = None ->
  (forall c, ski c = Some s -> aki c = Some k ->
     valid_cert as_check_covered ip_addr_check_covered fn auths c = Ok 0) /\
  (forall r, roa_ski r = Some s -> roa_aki r = Some k ->
     valid_roa ip_addr_check_covered fn auths r = Ok (0, r)).
Proof.
  intros Hs Hk. split.
  - intros c Hc Ha. unfold valid_cert, valid_ski_aki. rewrite Hc, Ha.
    cbn [auth_find mbind result_bind]. rewrite Hs. cbn. rewrite Hk. reflexivity.
  - intros r Hr Ha. unfold valid_roa, valid_ski_aki. rewrite Hr, Ha.
    cbn [auth_find mbind result_bind]. rewrite Hs. cbn. rewrite Hk. reflexivity.
Qed.

End ValidatorFacts.

Lemma valid_cert_iff_witness :
  valid_ski_aki "ca.cer" Sample.auths (ski Sample.child_10_1_16)
    (aki Sample.child_10_1_16) = Ok (Some Sample.ta_auth) /\
  (valid_cert SpecModel.as_check_covered SpecModel.ip_addr_check_covered
     "ca.cer" Sample.auths Sample.child_10_1_16 = Ok 1 <->
   Forall (cert_as_covered SpecModel.as_check_covered Sample.ta_auth
             (purpose Sample.child_10_1_16)) (as_ Sample.child_10_1_16) /\
   Forall (cert_ip_covered SpecModel.ip_addr_check_covered Sample.ta_auth)
     (ips Sample.child_10_1_16)).
Proof.
  split; [reflexivity|].
  apply (valid_cert_iff SpecModel.as_check_covered
           SpecModel.ip_addr_check_covered "ca.cer" Sample.auths
           Sample.child_10_1_16 Sample.ta_auth).
  reflexivity.
Defined.

Lemma duplicate_ski_refused_witness :
  Sample.auths !! "TA:SKI" = Some Sample.ta_auth /\
  valid_ta "ta.cer" Sample.auths Sample.ta_cert = Ok 0 /\
  valid_roa SpecModel.ip_addr_check_covered "a.roa" Sample.auths
    {| roa_asid := 64500; roa_ips := []; roa_valid := 0;
       roa_ski := Some "TA:SKI"; roa_aki := Some "TA:SKI";
       roa_tal := None |}
  = Ok (0, {| roa_asid := 64500; roa_ips := []; roa_valid := 0;
              roa_ski := Some "TA:SKI"; roa_aki := Some "TA:SKI";
              roa_tal := None |}).
Proof.
  destruct (duplicate_ski_refused SpecModel.as_check_covered
              SpecModel.ip_addr_check_covered "ta.cer" Sample.auths
              "TA:SKI" Sample.ta_auth eq_refl) as [Hc Hr].
  split; [reflexivity|]. split.
  - exact (proj1 (Hc Sample.ta_cert eq_refl)).
  - apply Hr. reflexivity.
Defined.

Lemma unknown_aki_refused_witness :
  Sample.auths !! "CA:SKI" = None /\ Sample.auths !! "XX:SKI" = None /\
  valid_roa SpecModel.ip_addr_check_covered "a.roa" Sample.auths
    {| roa_asid := 64500; roa_ips := []; roa_valid := 0;
       roa_ski := Some "CA:SKI"; roa_aki := Some "XX:SKI";
       roa_tal := None |}
  = Ok (0, {| roa_asid := 64500; roa_ips := []; roa_valid := 0;
              roa_ski := Some "CA:SKI"; roa_aki := Some "XX:SKI";
              roa_tal := None |}).
Proof.
  destruct (unknown_aki_refused SpecModel.as_check_covered
              SpecModel.ip_addr_check_covered "a.roa" Sample.auths
              "CA:SKI" "XX:SKI" eq_refl eq_refl) as [_ Hr].
  split; [reflexivity|]. split; [reflexivity|].
  apply Hr; reflexivity.
Defined.

Lemma valid_ta_decides_witness :
  ski Sample.ta_cert = Some "TA:SKI" /\
  (valid_ta "ta.cer" ∅ Sample.ta_cert = Ok 1 <->
   (forall a, head (as_ Sample.ta_cert) = Some a -> a <> CERT_AS_INHERIT) /\
   Forall (fun ip => ip_type ip <> CERT_IP_INHERIT) (ips Sample.ta_cert) /\
   (∅ : auth_tree) !! "TA:SKI" = None).
Proof.
  split; [reflexivity|].
  apply (valid_ta_decides "ta.cer" ∅ Sample.ta_cert "TA:SKI"). reflexivity.
Defined.

(** ** What the parser builds *)

Lemma built_trans {A : Type} (chk : A -> list A -> bool) (ok : A -> Prop)
    (l1 l2 l3 : list A) :
  built chk ok l1 l2 -> built chk ok l2 l3 -> built chk ok l1 l3.
Proof.
  intros H12 H23. induction H23 as [|l' a _ IH Hok Hchk]; [exact H12|].
  now apply built_snoc.
Qed.

Lemma built_nil_spec {A : Type} (chk : A -> list A -> bool) (ok : A -> Prop)
    (l : list A) :
  built chk ok [] l -> Forall ok l /\ accumulated chk l.
Proof.
  intros H. induction H as [|l' a _ [IH1 IH2] Hok Hchk].
  - split; [constructor|]. intros i a Hi. rewrite lookup_nil in Hi.
    discriminate.
  - split; [apply Forall_app; split; [exact IH1 | repeat constructor; exact Hok]|].
    intros i b Hi. destruct (Nat.lt_ge_cases i (length l')) as [Hlt|Hge].
    + rewrite lookup_app_l in Hi by exact Hlt.
      rewrite take_app_le by lia. now apply IH2.
    + rewrite lookup_app_r in Hi by exact Hge.
      destruct (i - length l')%nat as [|n] eqn:En; [|discriminate].
      injection Hi as <-. assert (i = length l') as -> by lia.
      rewrite take_app_length. exact Hchk.
Qed.

Lemma same_but_as_fields (p p' : cert) :
  same_but_as p p' ->
  ips p' = ips p /\ mft p' = mft p /\ repo p' = repo p /\
  notify p' = notify p.
Proof.
  unfold same_but_as. intros H.
  repeat split;
    [apply (f_equal ips) in H | apply (f_equal mft) in H
    | apply (f_equal repo) in H | apply (f_equal notify) in H]; exact H.
Qed.

Lemma same_but_ips_fields (p p' : cert) :
  same_but_ips p p' ->
  as_ p' = as_ p /\ mft p' = mft p /\ repo p' = repo p /\
  notify p' = notify p.
Proof.
  unfold same_but_ips. intros H.
  repeat split;
    [apply (f_equal as_) in H | apply (f_equal mft) in H
    | apply (f_equal repo) in H | apply (f_equal notify) in H]; exact H.
Qed.

Lemma same_but_sia_fields (p p' : cert) :
  same_but_sia p p' -> ips p' = ips p /\ as_ p' = as_ p.
Proof.
  unfold same_but_sia. intros H.
  split; [apply (f_equal ips) in H | apply (f_equal as_) in H]; exact H.
Qed.

Ltac bool_hyps :=
  repeat match goal with
         | H : (_ =? _) = false |- _ => apply Z.eqb_neq in H
         | H : (_ =? _) = true |- _ => apply Z.eqb_eq in H
         | H : (_ <? _) = false |- _ => apply Z.ltb_ge in H
         | H : (_ >? _) = false |- _ => rewrite Z.gtb_ltb in H
         | H : negb _ = false |- _ => apply negb_false_iff in H
         | H : negb _ = true |- _ => apply negb_true_iff in H
         | H : bool_decide _ = false |- _ => apply bool_decide_eq_false in H
         | H : bool_decide _ = true |- _ => apply bool_decide_eq_true in H
         end.

Lemma valid_uri_01 (uri : string) (proto : option string) :
  valid_uri uri proto = 0 \/ valid_uri uri proto = 1.
Proof.
  unfold valid_uri. destruct (negb (uri_chars uri)); [now left|].
  destruct (match proto with Some _ => _ | None => _ end); [now left|].
  destruct (bool_decide _); auto.
Qed.

Lemma valid_uri_chars (uri : string) (proto : option string) :
  valid_uri uri proto = 1 -> Forall uri_char (chars uri).
Proof.
  unfold valid_uri. destruct (uri_chars uri) eqn:E; [|discriminate].
  intros _. now apply uri_chars_spec.
Qed.

Lemma Forall_chars_advance (P : ascii -> Prop) (k : nat) (s : string) :
  Forall P (chars s) -> Forall P (chars (C.advance k s)).
Proof.
  revert s. induction k as [|k IH]; intros [|x s] H; simpl; auto.
  apply IH. now inversion H.
Qed.

(** A NUL-free string that compares equal to [".mft"] is a dot and the
    three letters, in either case. *)
Lemma strcasecmp_mft (s : string) :
  Forall (fun c => C.code c <> 0) (chars s) ->
  C.strcasecmp s ".mft" = 0 ->
  exists c1 c2 c3,
    s = String "." (String c1 (String c2 (String c3 EmptyString))) /\
    same_letter c1 "m" /\ same_letter c2 "f" /\ same_letter c3 "t".
Proof.
  intros Hnz H.
  destruct s as [|c0 [|c1 [|c2 [|c3 [|c4 s]]]]].
  - vm_compute in H. discriminate.
  - change ".mft" with (String "." "mft") in H.
    apply strcasecmp_cons in H. destruct H as [_ H].
    vm_compute in H. discriminate.
  - change ".mft" with (String "." (String "m" "ft")) in H.
    rewrite !strcasecmp_cons in H. destruct H as (_ & _ & H).
    vm_compute in H. discriminate.
  - change ".mft" with (String "." (String "m" (String "f" "t"))) in H.
    rewrite !strcasecmp_cons in H. destruct H as (_ & _ & _ & H).
    vm_compute in H. discriminate.
  - change ".mft"
      with (String "." (String "m" (String "f" (String "t" EmptyString))))
      in H.
    rewrite !strcasecmp_cons in H. destruct H as (H0 & H1 & H2 & H3 & _).
    apply tolower_dot in H0. subst c0.
    apply tolower_same_letter in H1; [|reflexivity].
    apply tolower_same_letter in H2; [|reflexivity].
    apply tolower_same_letter in H3; [|reflexivity].
    eauto 10.
  - change ".mft"
      with (String "." (String "m" (String "f" (String "t" EmptyString))))
      in H.
    rewrite !strcasecmp_cons in H. destruct H as (_ & _ & _ & _ & H).
    simpl in H. apply tolower_zero in H.
    simpl in Hnz. do 4 (inversion Hnz as [|? ? _ Hnz']; subst; clear Hnz;
                        rename Hnz' into Hnz).
    inversion Hnz; subst. contradiction.
Qed.

Lemma sia_kept_refl (p : cert) : sia_kept p p.
Proof. unfold sia_kept. auto. Qed.

Lemma sia_fields_step (p p' : cert) :
  mft p' = mft p -> repo p' = repo p -> notify p' = notify p ->
  sia_kept p p' /\ (sia_uris p -> sia_uris p').
Proof.
  unfold sia_kept, sia_uris. intros -> -> ->. tauto.
Qed.

Section ParserInvariants.

Variable d2i_X509 : string -> option X509.
Variable d2i_ASN1_SEQUENCE_ANY : string -> option (list ASN1_TYPE).
Variable d2i_ASN1_TYPE : string -> option ASN1_TYPE.
Variable ASN1_frame : string -> option (string * Z * Z).
Variable OBJ_obj2nid : string -> NID.
Variable as_id_parse : Z -> option Z.
Variable as_check_overlap : cert_as -> list cert_as -> bool.
Variable ip_addr_afi_parse : string -> option afi.
Variable ip_addr_parse : ASN1_BIT_STRING -> afi -> option ip_addr.
Variable ip_cert_compose_ranges : cert_ip -> option cert_ip.
Variable ip_addr_check_overlap : cert_ip -> list cert_ip -> bool.

Lemma as_step_refl p : as_step as_check_overlap p p.
Proof. split; [reflexivity | constructor]. Qed.

Lemma as_step_trans p q r :
  as_step as_check_overlap p q -> as_step as_check_overlap q r ->
  as_step as_check_overlap p r.
Proof.
  unfold as_step, same_but_as. intros [H1 B1] [H2 B2].
  split; [congruence | eauto using built_trans].
Qed.

Lemma ip_step_refl p :
  ip_step ip_addr_check_overlap ip_cert_compose_ranges p p.
Proof. split; [reflexivity | constructor]. Qed.

Lemma ip_step_trans p q r :
  ip_step ip_addr_check_overlap ip_cert_compose_ranges p q ->
  ip_step ip_addr_check_overlap ip_cert_compose_ranges q r ->
  ip_step ip_addr_check_overlap ip_cert_compose_ranges p r.
Proof.
  unfold ip_step, same_but_ips. intros [H1 B1] [H2 B2].
  split; [congruence | eauto using built_trans].
Qed.

Lemma sia_step_refl p : sia_step p p.
Proof. split; [reflexivity|]. split; [unfold sia_kept|]; auto. Qed.

Lemma sia_step_trans p q r : sia_step p q -> sia_step q r -> sia_step p r.
Proof.
  unfold sia_step, same_but_sia, sia_kept.
  intros (H1 & (K1 & K2 & K3) & U1) (H2 & (L1 & L2 & L3) & U2).
  split; [congruence|]. split; [|auto]. repeat split; auto.
Qed.

(** *** The AS parser *)

Lemma append_as_step p a p' :
  append_as as_check_overlap p a = Some p' -> as_entry_parsed a ->
  as_step as_check_overlap p p'.
Proof.
  unfold append_as. intros H Hok. break_in H. injection H as <-.
  bool_hyps. split; [reflexivity|].
  cbn. apply built_snoc; [constructor | exact Hok | assumption].
Qed.

Lemma sbgp_asid_step p i p' :
  sbgp_asid as_id_parse as_check_overlap p i = Some p' ->
  as_step as_check_overlap p p'.
Proof.
  unfold sbgp_asid. intros H. break_in H. bool_hyps.
  eapply append_as_step; eauto.
Qed.

Lemma sbgp_asrange_step p d p' :
  sbgp_asrange d2i_ASN1_SEQUENCE_ANY as_id_parse as_check_overlap p d
    = Some p' ->
  as_step as_check_overlap p p'.
Proof.
  unfold sbgp_asrange. intros H. break_in H. bool_hyps.
  eapply append_as_step; eauto. cbn. lia.
Qed.

Lemma sbgp_asnum_elems_step seq p p' :
  sbgp_asnum_elems d2i_ASN1_SEQUENCE_ANY as_id_parse as_check_overlap p seq
    = Some p' ->
  as_step as_check_overlap p p'.
Proof.
  revert p. induction seq as [|t seq IH]; intros p H; simpl in H.
  - injection H as <-. apply as_step_refl.
  - break_in H;
      eauto using as_step_trans, sbgp_asid_step, sbgp_asrange_step.
Qed.

Lemma sbgp_asnum_step p d p' :
  sbgp_asnum d2i_ASN1_SEQUENCE_ANY d2i_ASN1_TYPE as_id_parse as_check_overlap
    p d = Some p' ->
  as_step as_check_overlap p p'.
Proof.
  unfold sbgp_asnum. intros H. break_in H;
    [eapply append_as_step; [eauto | exact I]
    | eauto using sbgp_asnum_elems_step].
Qed.

Lemma sbgp_assysnum_elems_step sseq p p' :
  sbgp_assysnum_elems d2i_ASN1_SEQUENCE_ANY d2i_ASN1_TYPE ASN1_frame
    as_id_parse as_check_overlap p sseq = Some p' ->
  as_step as_check_overlap p p'.
Proof.
  revert p. induction sseq as [|t sseq IH]; intros p H; simpl in H.
  - injection H as <-. apply as_step_refl.
  - break_in H; eauto using as_step_trans, sbgp_asnum_step.
Qed.

Lemma sbgp_assysnum_step p ext p' :
  sbgp_assysnum d2i_ASN1_SEQUENCE_ANY d2i_ASN1_TYPE ASN1_frame
    as_id_parse as_check_overlap p ext = Some p' ->
  as_step as_check_overlap p p'.
Proof.
  unfold sbgp_assysnum. intros H. break_in H.
  eauto using sbgp_assysnum_elems_step.
Qed.

(** *** The IP parser *)

Lemma append_ip_step p ip p' :
  append_ip ip_addr_check_overlap p ip = Some p' ->
  ip_entry_parsed ip_cert_compose_ranges ip ->
  ip_step ip_addr_check_overlap ip_cert_compose_ranges p p'.
Proof.
  unfold append_ip. intros H Hok. break_in H. injection H as <-.
  bool_hyps. split; [reflexivity|].
  cbn. apply built_snoc; [constructor | exact Hok | assumption].
Qed.

Lemma sbgp_addr_step p afi0 bs p' :
  sbgp_addr ip_addr_parse ip_cert_compose_ranges ip_addr_check_overlap
    p afi0 bs = Some p' ->
  ip_step ip_addr_check_overlap ip_cert_compose_ranges p p'.
Proof.
  unfold sbgp_addr. intros H. break_in H.
  eapply append_ip_step; [eauto|]. right.
  match goal with
  | E : ip_cert_compose_ranges ?q = Some _ |- _ =>
      exists q; repeat split; [discriminate | exact E]
  end.
Qed.

Lemma sbgp_addr_range_step p afi0 d p' :
  sbgp_addr_range d2i_ASN1_SEQUENCE_ANY ip_addr_parse ip_cert_compose_ranges
    ip_addr_check_overlap p afi0 d = Some p' ->
  ip_step ip_addr_check_overlap ip_cert_compose_ranges p p'.
Proof.
  unfold sbgp_addr_range. intros H. break_in H.
  eapply append_ip_step; [eauto|]. right.
  match goal with
  | E : ip_cert_compose_ranges ?q = Some _ |- _ =>
      exists q; repeat split; [discriminate | exact E]
  end.
Qed.

Lemma sbgp_addr_or_range_elems_step seq p afi0 p' :
  sbgp_addr_or_range_elems d2i_ASN1_SEQUENCE_ANY ip_addr_parse
    ip_cert_compose_ranges ip_addr_check_overlap p afi0 seq = Some p' ->
  ip_step ip_addr_check_overlap ip_cert_compose_ranges p p'.
Proof.
  revert p. induction seq as [|t seq IH]; intros p H; simpl in H.
  - injection H as <-. apply ip_step_refl.
  - break_in H;
      eauto using ip_step_trans, sbgp_addr_step, sbgp_addr_range_step.
Qed.

Lemma sbgp_ipaddrfam_step p d p' :
  sbgp_ipaddrfam d2i_ASN1_SEQUENCE_ANY ip_addr_afi_parse ip_addr_parse
    ip_cert_compose_ranges ip_addr_check_overlap p d = Some p' ->
  ip_step ip_addr_check_overlap ip_cert_compose_ranges p p'.
Proof.
  unfold sbgp_ipaddrfam, sbgp_addr_or_range. intros H. break_in H;
    [eapply append_ip_step; [eauto|]; left; repeat split
    | eauto using sbgp_addr_or_range_elems_step].
Qed.

Lemma sbgp_ipaddrblk_elems_step sseq p p' :
  sbgp_ipaddrblk_elems d2i_ASN1_SEQUENCE_ANY ip_addr_afi_parse ip_addr_parse
    ip_cert_compose_ranges ip_addr_check_overlap p sseq = Some p' ->
  ip_step ip_addr_check_overlap ip_cert_compose_ranges p p'.
Proof.
  revert p. induction sseq as [|t sseq IH]; intros p H; simpl in H.
  - injection H as <-. apply ip_step_refl.
  - break_in H; eauto using ip_step_trans, sbgp_ipaddrfam_step.
Qed.

Lemma sbgp_ipaddrblk_step p ext p' :
  sbgp_ipaddrblk d2i_ASN1_SEQUENCE_ANY ip_addr_afi_parse ip_addr_parse
    ip_cert_compose_ranges ip_addr_check_overlap p ext = Some p' ->
  ip_step ip_addr_check_overlap ip_cert_compose_ranges p p'.
Proof.
  unfold sbgp_ipaddrblk. intros H. break_in H.
  eauto using sbgp_ipaddrblk_elems_step.
Qed.

(** *** The SIA parser *)

Lemma sbgp_sia_resource_notify_step p d dsz p' :
  sbgp_sia_resource_notify p d dsz = Some p' -> sia_step p p'.
Proof.
  unfold sbgp_sia_resource_notify. intros H. break_in H. injection H as <-.
  bool_hyps.
  match goal with E : ~ notify p <> None |- _ => apply dec_stable in E;
    rename E into Hn end.
  split; [reflexivity|]. split.
  - unfold sia_kept. cbn. repeat split; auto; intros n Ep; congruence.
  - unfold sia_uris. cbn. intros (U1 & U2 & U3).
    split; [exact U1|]. split; [exact U2|].
    intros n [= <-].
    destruct (valid_uri_01 (buf_take (Z.to_nat dsz) d) (Some "https://"));
      congruence.
Qed.

Lemma sbgp_sia_resource_carepo_step p d dsz p' :
  sbgp_sia_resource_carepo p d dsz = Some p' -> sia_step p p'.
Proof.
  unfold sbgp_sia_resource_carepo. intros H. break_in H. injection H as <-.
  bool_hyps.
  match goal with E : ~ repo p <> None |- _ => apply dec_stable in E;
    rename E into Hn end.
  split; [reflexivity|]. split.
  - unfold sia_kept. cbn. repeat split; auto; intros n Ep; congruence.
  - unfold sia_uris. cbn. intros (U1 & U2 & U3).
    split; [exact U1|]. split; [|exact U3].
    intros n [= <-].
    destruct (valid_uri_01 (buf_take (Z.to_nat dsz) d) (Some "rsync://"));
      congruence.
Qed.

Lemma sbgp_sia_resource_mft_step p d dsz p' :
  sbgp_sia_resource_mft p d dsz = Some p' -> sia_step p p'.
Proof.
  unfold sbgp_sia_resource_mft. intros H.
  destruct (bool_decide (mft p <> None)) eqn:Em; [discriminate|].
  destruct (valid_uri _ _ =? 0) eqn:Ev; [discriminate|].
  destruct (_ || _) eqn:Es; [discriminate|].
  injection H as <-.
  apply bool_decide_eq_false, dec_stable in Em.
  apply Z.eqb_neq in Ev. apply orb_false_iff in Es. destruct Es as [_ Es].
  apply negb_false_iff, Z.eqb_eq in Es.
  split; [reflexivity|]. split.
  - unfold sia_kept. cbn. repeat split; auto; intros n Ep; congruence.
  - unfold sia_uris. cbn. intros (U1 & U2 & U3).
    split; [|split; [exact U2 | exact U3]].
    intros m [= <-].
    assert (Hv : valid_uri (buf_take (Z.to_nat dsz) d) (Some "rsync://") = 1).
    { destruct (valid_uri_01 (buf_take (Z.to_nat dsz) d) (Some "rsync://"));
        congruence. }
    split; [exact Hv|].
    apply valid_uri_chars in Hv.
    assert (Hnz : Forall (fun c => C.code c <> 0)
                    (chars (C.advance (Z.to_nat (dsz - 4))
                              (buf_take (Z.to_nat dsz) d)))).
    { apply Forall_chars_advance.
      eapply Forall_impl; [exact Hv|]. unfold uri_char. intros c Hc. lia. }
    destruct (strcasecmp_mft _ Hnz Es) as (c1 & c2 & c3 & Heq & L1 & L2 & L3).
    exists (buf_take (Z.to_nat (dsz - 4)) (buf_take (Z.to_nat dsz) d)),
      c1, c2, c3.
    split; [|auto]. rewrite <- Heq. apply take_advance.
Qed.

Lemma sbgp_sia_resource_entry_step p d p' :
  sbgp_sia_resource_entry d2i_ASN1_SEQUENCE_ANY ASN1_frame p d = Some p' ->
  sia_step p p'.
Proof.
  unfold sbgp_sia_resource_entry. intros H. break_in H;
    eauto using sbgp_sia_resource_carepo_step, sbgp_sia_resource_mft_step,
      sbgp_sia_resource_notify_step.
  injection H as <-. apply sia_step_refl.
Qed.

Lemma sbgp_sia_entries_step seq p p' :
  sbgp_sia_entries d2i_ASN1_SEQUENCE_ANY ASN1_frame p seq = Some p' ->
  sia_step p p'.
Proof.
  revert p. induction seq as [|t seq IH]; intros p H; simpl in H.
  - injection H as <-. apply sia_step_refl.
  - break_in H; eauto using sia_step_trans, sbgp_sia_resource_entry_step.
Qed.

Lemma sbgp_sia_resource_step p d p' :
  sbgp_sia_resource d2i_ASN1_SEQUENCE_ANY ASN1_frame p d = Ok (Some p') ->
  sia_step p p'.
Proof.
  unfold sbgp_sia_resource. intros H. break_in H. injection H as <-.
  eauto using sbgp_sia_entries_step.
Qed.

Lemma sbgp_sia_step p ext p' :
  sbgp_sia d2i_ASN1_SEQUENCE_ANY ASN1_frame OBJ_obj2nid p ext = Ok (Some p') ->
  sia_step p p'.
Proof.
  unfold sbgp_sia. intros H. break_in H. eauto using sbgp_sia_resource_step.
Qed.

(** *** The extension loop *)

Local Notation "'exts_loop'" :=
  (cert_parse_exts d2i_ASN1_SEQUENCE_ANY d2i_ASN1_TYPE ASN1_frame OBJ_obj2nid
     as_id_parse as_check_overlap ip_addr_afi_parse ip_addr_parse
     ip_cert_compose_ranges ip_addr_check_overlap).

Local Notation "'parse_inner'" :=
  (cert_parse_inner d2i_X509 d2i_ASN1_SEQUENCE_ANY d2i_ASN1_TYPE ASN1_frame
     OBJ_obj2nid as_id_parse as_check_overlap ip_addr_afi_parse ip_addr_parse
     ip_cert_compose_ranges ip_addr_check_overlap).

Lemma cert_parse_exts_steps exts p sp p' sp' :
  exts_loop p sp exts = Ok (Some (p', sp')) ->
  built as_check_overlap as_entry_parsed (as_ p) (as_ p') /\
  built ip_addr_check_overlap (ip_entry_parsed ip_cert_compose_ranges)
    (ips p) (ips p') /\
  sia_kept p p' /\ (sia_uris p -> sia_uris p') /\
  sp' = sp || existsb is_sia_extb exts /\
  (existsb is_sia_extb exts = false ->
   mft p' = mft p /\ repo p' = repo p /\ notify p' = notify p).
Proof.
  revert p sp. induction exts as [|ext exts IH]; intros p sp H;
    cbn [cert_parse_exts] in H.
  - injection H as <- <-. cbn [existsb]. rewrite orb_false_r.
    split; [apply built_refl|]. split; [apply built_refl|].
    split; [apply sia_kept_refl|]. auto.
  - assert (Hskip : ext_nid ext <> NID_sinfo_access ->
              exts_loop p sp exts = Ok (Some (p', sp')) ->
              built as_check_overlap as_entry_parsed (as_ p) (as_ p') /\
              built ip_addr_check_overlap
                (ip_entry_parsed ip_cert_compose_ranges) (ips p) (ips p') /\
              sia_kept p p' /\ (sia_uris p -> sia_uris p') /\
              sp' = sp || existsb is_sia_extb (ext :: exts) /\
              (existsb is_sia_extb (ext :: exts) = false ->
               mft p' = mft p /\ repo p' = repo p /\ notify p' = notify p)).
    { intros Hn H'. cbn [existsb]. unfold is_sia_extb at 1 3.
      rewrite bool_decide_eq_false_2 by exact Hn. cbn [orb].
      now apply IH. }
    destruct (ext_nid ext) eqn:En;
      try (apply Hskip; [congruence | exact H]).
    + destruct (sbgp_ipaddrblk _ _ _ _ _ _ ext) as [p1|] eqn:E1;
        [|discriminate].
      apply sbgp_ipaddrblk_step in E1. destruct E1 as [Hs Hb].
      apply same_but_ips_fields in Hs. destruct Hs as (Ha & Hm & Hr & Hn).
      destruct (IH _ _ H) as (B1 & B2 & K & U & F & N).
      cbn [existsb]. unfold is_sia_extb at 1 3.
      rewrite bool_decide_eq_false_2 by congruence. cbn [orb].
      destruct (sia_fields_step p p1 Hm Hr Hn) as [K1 U1].
      split; [now rewrite <- Ha|].
      split; [eauto using built_trans|].
      split; [|split; [auto|split; [exact F|]]].
      * unfold sia_kept in *. rewrite <- Hm, <- Hr, <- Hn. exact K.
      * intros Hf. destruct (N Hf) as (? & ? & ?). repeat split; congruence.
    + destruct (sbgp_assysnum _ _ _ _ _ _ ext) as [p1|] eqn:E1;
        [|discriminate].
      apply sbgp_assysnum_step in E1. destruct E1 as [Hs Hb].
      apply same_but_as_fields in Hs. destruct Hs as (Ha & Hm & Hr & Hn).
      destruct (IH _ _ H) as (B1 & B2 & K & U & F & N).
      cbn [existsb]. unfold is_sia_extb at 1 3.
      rewrite bool_decide_eq_false_2 by congruence. cbn [orb].
      destruct (sia_fields_step p p1 Hm Hr Hn) as [K1 U1].
      split; [eauto using built_trans|].
      split; [now rewrite <- Ha|].
      split; [|split; [auto|split; [exact F|]]].
      * unfold sia_kept in *. rewrite <- Hm, <- Hr, <- Hn. exact K.
      * intros Hf. destruct (N Hf) as (? & ? & ?). repeat split; congruence.
    + destruct (sbgp_sia _ _ _ p ext) as [[p1|]| |] eqn:E1;
        try discriminate.
      apply sbgp_sia_step in E1. destruct E1 as (Hs & K1 & U1).
      apply same_but_sia_fields in Hs. destruct Hs as (Hi & Ha).
      cbn [mbind result_bind] in H.
      destruct (IH _ _ H) as (B1 & B2 & K & U & F & N).
      cbn [existsb]. unfold is_sia_extb at 1 3.
      rewrite bool_decide_eq_true_2 by exact En. cbn [orb].
      split; [now rewrite <- Ha|]. split; [now rewrite <- Hi|].
      split; [|split; [auto|split; [|discriminate]]].
      * unfold sia_kept in *. destruct K1 as (? & ? & ?), K as (? & ? & ?).
        repeat split; auto.
      * rewrite F. now rewrite orb_true_r.
Qed.

Lemma cert_parse_inner_inv fn der ta c :
  parse_inner fn der ta = Ok (Some c) ->
  exists d x p sp,
    der = Some d /\ d2i_X509 d = Some x /\
    exts_loop cert_zero false (X509_exts x) = Ok (Some (p, sp)) /\
    cert_parse_checks x ta sp p = Some c.
Proof.
  unfold cert_parse_inner. intros H.
  destruct der as [d|]; [|discriminate].
  destruct (d2i_X509 d) as [x|] eqn:Ex; [|discriminate].
  destruct (cert_parse_exts _ _ _ _ _ _ _ _ _ _ _ _ _) as [[[p sp]|]| |]
    eqn:Ee; try discriminate.
  cbn [mbind result_bind] in H. injection H as H.
  exists d, x, p, sp. auto.
Qed.

Lemma cert_parse_checks_keeps x ta sp p c :
  cert_parse_checks x ta sp p = Some c ->
  ips c = ips p /\ as_ c = as_ p /\ mft c = mft p /\ repo c = repo p /\
  notify c = notify p /\ purpose c = X509_purpose x /\ x509 c = Some x /\
  (purpose c <> CERT_PURPOSE_BGPSEC_ROUTER -> pubkey c = pubkey p).
Proof.
  unfold cert_parse_checks. intros H.
  destruct (match purpose (set_identity x ta p) with
            | CERT_PURPOSE_INVALID => None
            | CERT_PURPOSE_CA => _
            | CERT_PURPOSE_BGPSEC_ROUTER => _
            end) as [q|] eqn:Eq; [|discriminate].
  assert (Hq : (q = set_identity x ta p /\
                X509_purpose x <> CERT_PURPOSE_BGPSEC_ROUTER) \/
               (q = set_pubkey (X509_pubkey x) (set_identity x ta p) /\
                X509_purpose x = CERT_PURPOSE_BGPSEC_ROUTER)).
  { cbn [purpose set_identity] in Eq.
    destruct (X509_purpose x); [discriminate| |];
      break_in Eq; injection Eq as <-;
      [left; split; [reflexivity | discriminate]
      | right; split; reflexivity]. }
  break_in H; injection H as <-;
    destruct Hq as [[-> Hp] | [-> Hp]]; cbn; repeat split; auto;
    intros; contradiction.
Qed.

Lemma cert_parse_checks_purpose x ta sp p c :
  cert_parse_checks x ta sp p = Some c ->
  ski c <> None /\
  match purpose c with
  | CERT_PURPOSE_CA => mft c <> None /\ (as_ c <> [] \/ ips c <> [])
  | CERT_PURPOSE_BGPSEC_ROUTER =>
      pubkey c <> None /\ ips c = [] /\ sp = false
  | CERT_PURPOSE_INVALID => False
  end.
Proof.
  intros H.
  pose proof (proj2 (cert_parse_checks_read_asserts _ _ _ _ _ H)) as Hski.
  split; [exact Hski|].
  pose proof (cert_parse_checks_keeps _ _ _ _ _ H)
    as (Hi & Ha & Hm & _ & _ & Hp & _ & _).
  rewrite Hp, Hi, Ha, Hm. clear Hski.
  unfold cert_parse_checks in H. cbn [purpose set_identity] in H.
  destruct (X509_purpose x).
  - discriminate.
  - cbn [mft set_identity asz ipsz as_ ips] in H.
    destruct (bool_decide (mft p = None)) eqn:Em; [discriminate|].
    apply bool_decide_eq_false in Em.
    destruct ((_ =? 0) && (_ =? 0)) eqn:Er; [discriminate|].
    split; [exact Em|].
    apply andb_false_iff in Er. rewrite !Z.eqb_neq in Er.
    destruct Er as [Er|Er]; [left | right]; intros E; apply Er;
      unfold asz, ipsz; cbn [as_ ips set_identity]; rewrite E; reflexivity.
  - cbn [pubkey set_pubkey ipsz ips set_identity] in H.
    destruct (bool_decide (X509_pubkey x = None)) eqn:Ek; [discriminate|].
    apply bool_decide_eq_false in Ek.
    destruct (ipsz _ >? 0) eqn:Ei; [discriminate|].
    unfold ipsz in Ei. cbn [ips set_pubkey set_identity] in Ei.
    destruct sp; [discriminate|].
    assert (Hc : pubkey c = X509_pubkey x).
    { break_in H; injection H as <-; reflexivity. }
    rewrite Hc. split; [exact Ek|]. split; [|reflexivity].
    rewrite Z.gtb_ltb in Ei. apply Z.ltb_ge in Ei.
    destruct (ips p); [reflexivity | simpl in Ei; lia].
Qed.

(** X5. In every certificate the parser accepts, no AS identifier is zero and
    every AS range has [min < max]; every IP entry is either an inheriting
    entry with zeroed [min] and [max], or what [ip_cert_compose_ranges]
    returned for an address or a range.  Provided
    [ip_cert_compose_ranges] returns an entry of the type it was given,
    every inheriting IP entry of the certificate has zeroed [min] and
    [max]. *)
Theorem parsed_resources_well_formed (fn : string) (der : option string)
    (ta : bool) (c : cert) :
  parse_inner fn der ta = Ok (Some c) ->
  Forall as_entry_parsed (as_ c) /\
  Forall (ip_entry_parsed ip_cert_compose_ranges) (ips c) /\
  (compose_keeps_type ip_cert_compose_ranges ->
   Forall inherit_zeroed (ips c)).
Proof.
  intros H. apply cert_parse_inner_inv in H.
  destruct H as (d & x & p & sp & _ & _ & He & Hc).
  apply cert_parse_exts_steps in He. destruct He as (B1 & B2 & _).
  apply cert_parse_checks_keeps in Hc. destruct Hc as (Hi & Ha & _).
  rewrite Hi, Ha. cbn [as_ ips cert_zero] in B1, B2.
  pose proof (proj1 (built_nil_spec _ _ _ B2)) as Hips.
  split; [exact (proj1 (built_nil_spec _ _ _ B1))|].
  split; [exact Hips|].
  intros Hkeep. eapply Forall_impl; [exact Hips|].
  intros ip [(_ & Hmin & Hmax) | (q & Hq & _ & _ & Eq)] Hinh.
  - split; assumption.
  - apply Hkeep in Eq. congruence.
Qed.

(** X6. In every certificate the parser accepts, each AS entry passed
    [as_check_overlap] against the AS entries before it, and each IP entry
    passed [ip_addr_check_overlap] against the IP entries before it. *)
Theorem parsed_resources_accumulated (fn : string) (der : option string)
    (ta : bool) (c : cert) :
  parse_inner fn der ta = Ok (Some c) ->
  accumulated as_check_overlap (as_ c) /\
  accumulated ip_addr_check_overlap (ips c).
Proof.
  intros H. apply cert_parse_inner_inv in H.
  destruct H as (d & x & p & sp & _ & _ & He & Hc).
  apply cert_parse_exts_steps in He. destruct He as (B1 & B2 & _).
  apply cert_parse_checks_keeps in Hc. destruct Hc as (Hi & Ha & _).
  rewrite Hi, Ha. cbn [as_ ips cert_zero] in B1, B2.
  split; [exact (proj2 (built_nil_spec _ _ _ B1))
         | exact (proj2 (built_nil_spec _ _ _ B2))].
Qed.

(** X7. In every certificate the parser accepts, a manifest pointer is an
    rsync URI accepted by [valid_uri] that ends in [.mft] in any letter
    case, a repository pointer is an rsync URI accepted by [valid_uri],
    and a notification pointer is an https URI accepted by [valid_uri]. *)
Theorem parsed_sia_uris (fn : string) (der : option string) (ta : bool)
    (c : cert) :
  parse_inner fn der ta = Ok (Some c) -> sia_uris c.
Proof.
  intros H. apply cert_parse_inner_inv in H.
  destruct H as (d & x & p & sp & _ & _ & He & Hc).
  apply cert_parse_exts_steps in He. destruct He as (_ & _ & _ & U & _).
  apply cert_parse_checks_keeps in Hc.
  destruct Hc as (_ & _ & Hm & Hr & Hn & _).
  assert (U0 : sia_uris cert_zero).
  { unfold sia_uris. cbn. repeat split; discriminate. }
  specialize (U U0). unfold sia_uris in *. rewrite Hm, Hr, Hn. exact U.
Qed.

(** X8. Every certificate the parser accepts has a SKI and its X.509 handle,
    and its purpose is CA or BGPsec router.  A CA certificate has a
    manifest and at least one AS or IP entry.  A BGPsec router certificate
    has a public key, no IP entry, no SIA extension in its X.509 object,
    and no SIA pointer. *)
Theorem parsed_purpose_requirements (fn : string) (der : option string)
    (ta : bool) (c : cert) :
  parse_inner fn der ta = Ok (Some c) ->
  exists x,
    x509 c = Some x /\ ski c <> None /\
    match purpose c with
    | CERT_PURPOSE_CA => mft c <> None /\ (as_ c <> [] \/ ips c <> [])
    | CERT_PURPOSE_BGPSEC_ROUTER =>
        pubkey c <> None /\ ips c = [] /\
        Forall (fun ext => ext_nid ext <> NID_sinfo_access) (X509_exts x) /\
        mft c = None /\ repo c = None /\ notify c = None
    | CERT_PURPOSE_INVALID => False
    end.
Proof.
  intros H. apply cert_parse_inner_inv in H.
  destruct H as (d & x & p & sp & _ & _ & He & Hc).
  apply cert_parse_exts_steps in He.
  destruct He as (_ & _ & _ & _ & F & N). cbn [orb] in F.
  pose proof (cert_parse_checks_keeps _ _ _ _ _ Hc)
    as (_ & _ & Hm & Hr & Hn & _ & Hx & _).
  apply cert_parse_checks_purpose in Hc. destruct Hc as [Hs Hp].
  exists x. split; [exact Hx|]. split; [exact Hs|].
  destruct (purpose c); [exact Hp | exact Hp|].
  destruct Hp as (Hk & Hi & ->).
  split; [exact Hk|]. split; [exact Hi|].
  symmetry in F. destruct (N F) as (N1 & N2 & N3).
  split; [|rewrite Hm, Hr, Hn, N1, N2, N3; auto].
  clear -F. induction (X509_exts x) as [|e l IH]; [constructor|].
  cbn [existsb] in F. apply orb_false_iff in F. destruct F as [F1 F2].
  constructor; [|auto]. now apply bool_decide_eq_false in F1.
Qed.

(** X9. The dispatcher hands only the IP, AS and SIA extensions to a parser:
    the extension loop gives the same result on a certificate and on the
    same certificate without its other extensions. *)
Theorem unhandled_extensions_ignored (p : cert) (sp : bool)
    (exts : list X509_EXTENSION) :
  exts_loop p sp exts = exts_loop p sp (List.filter ext_handled exts).
Proof.
  revert p sp. induction exts as [|ext exts IH]; intros p sp;
    [reflexivity|].
  cbn [List.filter]. unfold ext_handled at 1.
  destruct (ext_nid ext) eqn:En; cbn [cert_parse_exts]; rewrite En;
    try apply IH.
  - destruct (sbgp_ipaddrblk _ _ _ _ _ _ ext); [apply IH | reflexivity].
  - destruct (sbgp_assysnum _ _ _ _ _ _ ext); [apply IH | reflexivity].
  - destruct (sbgp_sia _ _ _ p ext) as [[p1|]| |]; cbn [mbind result_bind];
      [apply IH | reflexivity | reflexivity | reflexivity].
Qed.

End ParserInvariants.

Lemma compose_keeps_type_model :
  compose_keeps_type SpecModel.ip_cert_compose_ranges.
Proof.
  intros q ip. unfold SpecModel.ip_cert_compose_ranges.
  cbv zeta. destruct (ip_type q) eqn:E; cbv beta iota.
  - intros H. injection H as H. subst ip. reflexivity.
  - destruct (_ <? _); [discriminate|].
    intros H. injection H as H. subst ip. reflexivity.
  - intros H. injection H as H. subst ip. exact E.
Qed.

Lemma parsed_resources_well_formed_witness :
  exists c,
    Fixture.cert_parse_inner "ca_ip.cer" (Some Fixture.ca_ip_der) false
      = Ok (Some c)
    /\ map ip_type (ips c) =
         [CERT_IP_ADDR (mk_ip_addr 8 (Sample.v4 10 0 0 0)); CERT_IP_INHERIT]
    /\ Forall as_entry_parsed (as_ c)
    /\ Forall (ip_entry_parsed SpecModel.ip_cert_compose_ranges) (ips c)
    /\ Forall inherit_zeroed (ips c).
Proof.
  eexists. split; [vm_compute; reflexivity|].
  split; [reflexivity|].
  destruct (parsed_resources_well_formed Fixture.d2i_X509
           Der.d2i_ASN1_SEQUENCE_ANY Der.d2i_ASN1_TYPE Der.ASN1_frame
           Der.OBJ_obj2nid SpecModel.as_id_parse SpecModel.as_check_overlap
           SpecModel.ip_addr_afi_parse SpecModel.ip_addr_parse
           SpecModel.ip_cert_compose_ranges SpecModel.ip_addr_check_overlap
           "ca_ip.cer" (Some Fixture.ca_ip_der) false _
           ltac:(vm_compute; reflexivity)) as (H1 & H2 & H3).
  split; [exact H1|]. split; [exact H2|].
  exact (H3 compose_keeps_type_model).
Defined.

Lemma parsed_resources_accumulated_witness :
  exists c,
    Sample.cert_parse_inner "ca.cer" (Some Sample.ca_der) false = Ok (Some c)
    /\ accumulated SpecModel.as_check_overlap (as_ c)
    /\ accumulated SpecModel.ip_addr_check_overlap (ips c).
Proof.
  eexists. split; [vm_compute; reflexivity|].
  apply (parsed_resources_accumulated Sample.d2i_X509
           Der.d2i_ASN1_SEQUENCE_ANY Der.d2i_ASN1_TYPE Der.ASN1_frame
           Der.OBJ_obj2nid SpecModel.as_id_parse SpecModel.as_check_overlap
           SpecModel.ip_addr_afi_parse SpecModel.ip_addr_parse
           SpecModel.ip_cert_compose_ranges SpecModel.ip_addr_check_overlap
           "ca.cer" (Some Sample.ca_der) false).
  vm_compute. reflexivity.
Defined.

Lemma parsed_sia_uris_witness :
  exists c,
    Sample.cert_parse_inner "ca.cer" (Some Sample.ca_der) false = Ok (Some c)
    /\ sia_uris c.
Proof.
  eexists. split; [vm_compute; reflexivity|].
  apply (parsed_sia_uris Sample.d2i_X509
           Der.d2i_ASN1_SEQUENCE_ANY Der.d2i_ASN1_TYPE Der.ASN1_frame
           Der.OBJ_obj2nid SpecModel.as_id_parse SpecModel.as_check_overlap
           SpecModel.ip_addr_afi_parse SpecModel.ip_addr_parse
           SpecModel.ip_cert_compose_ranges SpecModel.ip_addr_check_overlap
           "ca.cer" (Some Sample.ca_der) false).
  vm_compute. reflexivity.
Defined.

Lemma parsed_purpose_requirements_witness :
  exists c,
    Sample.cert_parse_inner "ca.cer" (Some Sample.ca_der) false = Ok (Some c)
    /\ exists x,
         x509 c = Some x /\ ski c <> None /\
         match purpose c with
         | CERT_PURPOSE_CA => mft c <> None /\ (as_ c <> [] \/ ips c <> [])
         | CERT_PURPOSE_BGPSEC_ROUTER =>
             pubkey c <> None /\ ips c = [] /\
             Forall (fun ext => ext_nid ext <> NID_sinfo_access)
               (X509_exts x) /\
             mft c = None /\ repo c = None /\ notify c = None
         | CERT_PURPOSE_INVALID => False
         end.
Proof.
  eexists. split; [vm_compute; reflexivity|].
  apply (parsed_purpose_requirements Sample.d2i_X509
           Der.d2i_ASN1_SEQUENCE_ANY Der.d2i_ASN1_TYPE Der.ASN1_frame
           Der.OBJ_obj2nid SpecModel.as_id_parse SpecModel.as_check_overlap
           SpecModel.ip_addr_afi_parse SpecModel.ip_addr_parse
           SpecModel.ip_cert_compose_ranges SpecModel.ip_addr_check_overlap
           "ca.cer" (Some Sample.ca_der) false).
  vm_compute. reflexivity.
Defined.

(** ** Single-valued SIA pointers *)

Lemma sia_kept_field (oid : string) (p p' : cert) :
  sia_kept p p' -> sia_field oid p <> None -> sia_field oid p' <> None.
Proof.
  unfold sia_kept, sia_field. intros (K1 & K2 & K3).
  destruct (OBJ_eq oid carepo_oid); [|destruct (OBJ_eq oid mft_oid)];
    intros H.
  - destruct (repo p) as [r|]; [|contradiction]. now rewrite (K2 r eq_refl).
  - destruct (mft p) as [m|]; [|contradiction]. now rewrite (K1 m eq_refl).
  - destruct (notify p) as [n|]; [|contradiction]. now rewrite (K3 n eq_refl).
Qed.

Section SiaSingle.

Variable d2i_ASN1_SEQUENCE_ANY : string -> option (list ASN1_TYPE).
Variable ASN1_frame : string -> option (string * Z * Z).

Lemma sbgp_sia_entries_app (a b : list ASN1_TYPE) (p : cert) :
  sbgp_sia_entries d2i_ASN1_SEQUENCE_ANY ASN1_frame p (a ++ b) =
  match sbgp_sia_entries d2i_ASN1_SEQUENCE_ANY ASN1_frame p a with
  | Some p' => sbgp_sia_entries d2i_ASN1_SEQUENCE_ANY ASN1_frame p' b
  | None => None
  end.
Proof.
  revert p. induction a as [|t a IH]; intros p; [reflexivity|].
  cbn [app sbgp_sia_entries]. destruct t; try reflexivity.
  destruct (sbgp_sia_resource_entry _ _ p _); [apply IH | reflexivity].
Qed.

(** An entry for one of the three access methods either fails or leaves its
    pointer set; it fails when the pointer is set already. *)
Lemma sia_entry_sets (oid d data : string) (p : cert) :
  sia_oid oid ->
  d2i_ASN1_SEQUENCE_ANY d = Some [V_ASN1_OBJECT oid; V_ASN1_OTHER data] ->
  match sbgp_sia_resource_entry d2i_ASN1_SEQUENCE_ANY ASN1_frame p d with
  | Some p' => sia_field oid p = None /\ sia_field oid p' <> None
  | None => True
  end.
Proof.
  intros Hoid Hd. unfold sbgp_sia_resource_entry. rewrite Hd.
  destruct (ASN1_frame data) as [[[d' plen] ptag]|]; [|exact I].
  destruct Hoid as [-> | [-> | ->]].
  - change (OBJ_eq carepo_oid carepo_oid) with true. cbn iota.
    unfold sbgp_sia_resource_carepo, sia_field.
    change (OBJ_eq carepo_oid carepo_oid) with true. cbn iota.
    destruct (bool_decide_reflect (repo p <> None)) as [|Hn]; [exact I|].
    destruct (_ =? 0); [exact I|]. cbn.
    split; [now apply dec_stable | discriminate].
  - change (OBJ_eq mft_oid carepo_oid) with false.
    change (OBJ_eq mft_oid mft_oid) with true. cbn iota.
    unfold sbgp_sia_resource_mft, sia_field.
    change (OBJ_eq mft_oid carepo_oid) with false.
    change (OBJ_eq mft_oid mft_oid) with true. cbn iota.
    destruct (bool_decide_reflect (mft p <> None)) as [|Hn]; [exact I|].
    destruct (_ =? 0); [exact I|]. destruct (_ || _); [exact I|]. cbn.
    split; [now apply dec_stable | discriminate].
  - change (OBJ_eq notify_oid carepo_oid) with false.
    change (OBJ_eq notify_oid mft_oid) with false.
    change (OBJ_eq notify_oid notify_oid) with true. cbn iota.
    unfold sbgp_sia_resource_notify, sia_field.
    change (OBJ_eq notify_oid carepo_oid) with false.
    change (OBJ_eq notify_oid mft_oid) with false. cbn iota.
    destruct (bool_decide_reflect (notify p <> None)) as [|Hn]; [exact I|].
    destruct (_ =? 0); [exact I|]. cbn.
    split; [now apply dec_stable | discriminate].
Qed.

(** X10. Each of the three SIA pointers is single-valued: a payload in which
    two accessDescriptions decode to the same access method among
    caRepository, rpkiManifest and rpkiNotify is refused, wherever the two
    stand in the sequence. *)
Theorem sia_duplicate_refused (oid : string) (p : cert)
    (s1 s2 s3 : list ASN1_TYPE) (t1 t2 : ASN1_TYPE) :
  sia_oid oid ->
  is_entry_for d2i_ASN1_SEQUENCE_ANY oid t1 ->
  is_entry_for d2i_ASN1_SEQUENCE_ANY oid t2 ->
  sbgp_sia_entries d2i_ASN1_SEQUENCE_ANY ASN1_frame p
    (s1 ++ t1 :: s2 ++ t2 :: s3) = None.
Proof.
  intros Hoid (d1 & data1 & -> & Hd1) (d2 & data2 & -> & Hd2).
  rewrite sbgp_sia_entries_app.
  destruct (sbgp_sia_entries _ _ p s1) as [p1|]; [|reflexivity].
  cbn [sbgp_sia_entries].
  pose proof (sia_entry_sets oid d1 data1 p1 Hoid Hd1) as H1.
  destruct (sbgp_sia_resource_entry _ _ p1 d1) as [p2|]; [|reflexivity].
  destruct H1 as [_ H1].
  rewrite sbgp_sia_entries_app.
  destruct (sbgp_sia_entries _ _ p2 s2) as [p3|] eqn:E2; [|reflexivity].
  apply sbgp_sia_entries_step in E2. destruct E2 as (_ & K & _).
  pose proof (sia_kept_field oid p2 p3 K H1) as H3.
  cbn [sbgp_sia_entries].
  pose proof (sia_entry_sets oid d2 data2 p3 Hoid Hd2) as H4.
  destruct (sbgp_sia_resource_entry _ _ p3 d2) as [p4|]; [|reflexivity].
  destruct H4 as [H4 _]. contradiction.
Qed.

End SiaSingle.

Lemma sia_duplicate_refused_witness :
  sia_oid mft_oid /\
  is_entry_for Der.d2i_ASN1_SEQUENCE_ANY mft_oid
    (V_ASN1_SEQUENCE Fixture.mft_entry) /\
  Der.d2i_ASN1_SEQUENCE_ANY Fixture.sia_two_mft =
    Some [V_ASN1_SEQUENCE Fixture.mft_entry;
          V_ASN1_SEQUENCE Fixture.mft_entry] /\
  sbgp_sia_entries Der.d2i_ASN1_SEQUENCE_ANY Der.ASN1_frame cert_zero
    ([] ++ V_ASN1_SEQUENCE Fixture.mft_entry
        :: [] ++ V_ASN1_SEQUENCE Fixture.mft_entry :: []) = None.
Proof.
  assert (Ho : sia_oid mft_oid) by (right; left; reflexivity).
  assert (He : is_entry_for Der.d2i_ASN1_SEQUENCE_ANY mft_oid
                 (V_ASN1_SEQUENCE Fixture.mft_entry)).
  { eexists. eexists. split; [reflexivity|]. vm_compute. reflexivity. }
  split; [exact Ho|]. split; [exact He|].
  split; [vm_compute; reflexivity|].
  exact (sia_duplicate_refused Der.d2i_ASN1_SEQUENCE_ANY Der.ASN1_frame
           mft_oid cert_zero [] [] [] _ _ Ho He He).
Defined.

(** ** Trust anchors *)

Section TaParserFacts.

Variable d2i_X509 : string -> option X509.
Variable d2i_ASN1_SEQUENCE_ANY : string -> option (list ASN1_TYPE).
Variable d2i_ASN1_TYPE : string -> option ASN1_TYPE.
Variable ASN1_frame : string -> option (string * Z * Z).
Variable OBJ_obj2nid : string -> NID.
Variable as_id_parse : Z -> option Z.
Variable as_check_overlap : cert_as -> list cert_as -> bool.
Variable ip_addr_afi_parse : string -> option afi.
Variable ip_addr_parse : ASN1_BIT_STRING -> afi -> option ip_addr.
Variable ip_cert_compose_ranges : cert_ip -> option cert_ip.
Variable ip_addr_check_overlap : cert_ip -> list cert_ip -> bool.
Variable EVP_PKEY : Type.
Variable d2i_PUBKEY : string -> option EVP_PKEY.
Variable X509_get_pubkey : X509 -> option EVP_PKEY.
Variable EVP_PKEY_cmp : EVP_PKEY -> EVP_PKEY -> Z.

(** X11. [ta_parse] returns a certificate only when a TAL key is given and
    the key of the certificate compares equal to it: the certificate is
    then the one [cert_parse_inner] accepts as a trust anchor, so that its
    AKI, if present, equals its SKI and it has neither AIA nor CRL.
    Without a TAL key no certificate is returned. *)
Theorem ta_parse_needs_matching_key (fn : string) (der : option string)
    (pkey : option string) (c : cert) :
  ta_parse d2i_X509 d2i_ASN1_SEQUENCE_ANY d2i_ASN1_TYPE ASN1_frame
    OBJ_obj2nid as_id_parse as_check_overlap ip_addr_afi_parse ip_addr_parse
    ip_cert_compose_ranges ip_addr_check_overlap EVP_PKEY d2i_PUBKEY
    X509_get_pubkey EVP_PKEY_cmp fn der pkey = Ok (Some c) ->
  cert_parse_inner d2i_X509 d2i_ASN1_SEQUENCE_ANY d2i_ASN1_TYPE ASN1_frame
    OBJ_obj2nid as_id_parse as_check_overlap ip_addr_afi_parse ip_addr_parse
    ip_cert_compose_ranges ip_addr_check_overlap fn der true = Ok (Some c) /\
  (exists k pk x opk,
     pkey = Some k /\ d2i_PUBKEY k = Some pk /\ x509 c = Some x /\
     X509_get_pubkey x = Some opk /\ EVP_PKEY_cmp pk opk = 1) /\
  (forall a, aki c = Some a -> ski c = Some a) /\
  aia c = None /\ crl c = None.
Proof.
  unfold ta_parse. intros H.
  destruct (cert_parse_inner _ _ _ _ _ _ _ _ _ _ _ fn der true)
    as [[p|]| |] eqn:Ep; try discriminate.
  cbn [mbind result_bind] in H.
  destruct pkey as [k|]; [|discriminate].
  destruct (x509 p) as [x|] eqn:Ex; [|discriminate].
  destruct (d2i_PUBKEY k) as [pk|] eqn:Ek; [|discriminate].
  destruct (X509_get_pubkey x) as [opk|] eqn:Eo; [|discriminate].
  destruct (Z.eqb_spec (EVP_PKEY_cmp pk opk) 1) as [Ec|Ec]; [|discriminate].
  injection H as <-.
  split; [reflexivity|]. split; [eauto 10|].
  apply cert_parse_inner_inv in Ep.
  destruct Ep as (d & x' & p0 & sp & _ & _ & _ & Hc).
  apply cert_parse_checks_identity in Hc. destruct Hc as [Hta _].
  exact (Hta eq_refl).
Qed.

End TaParserFacts.

Lemma ta_parse_needs_matching_key_witness :
  exists c,
    Fixture.ta_parse "ta3.cer" (Some Sample.ta3_der) (Some "TA3:SKI")
      = Ok (Some c) /\
    Sample.cert_parse_inner "ta3.cer" (Some Sample.ta3_der) true
      = Ok (Some c) /\
    (forall a, aki c = Some a -> ski c = Some a) /\
    aia c = None /\ crl c = None.
Proof.
  eexists. split; [vm_compute; reflexivity|].
  destruct (ta_parse_needs_matching_key Sample.d2i_X509
           Der.d2i_ASN1_SEQUENCE_ANY Der.d2i_ASN1_TYPE Der.ASN1_frame
           Der.OBJ_obj2nid SpecModel.as_id_parse SpecModel.as_check_overlap
           SpecModel.ip_addr_afi_parse SpecModel.ip_addr_parse
           SpecModel.ip_cert_compose_ranges SpecModel.ip_addr_check_overlap
           string Fixture.d2i_PUBKEY Fixture.X509_get_pubkey
           Fixture.EVP_PKEY_cmp "ta3.cer" (Some Sample.ta3_der)
           (Some "TA3:SKI") _ ltac:(vm_compute; reflexivity))
    as (H1 & _ & H2).
  split; [exact H1 | exact H2].
Defined.

(** ** What [cert_insert_brks] does to the set of router keys *)

(** The [int] parameter of [insert_brk] does not lose a 32-bit AS number. *)
Lemma to_uint32_to_int (n : Z) : to_uint32 (to_int n) = to_uint32 n.
Proof.
  unfold to_uint32, to_int. rewrite Zminus_mod_idemp_l. f_equal. lia.
Qed.

Lemma brk_kept_refl (t : brk_tree) : brk_kept t t.
Proof. intros key b H. exists b. repeat split; [assumption | lia]. Qed.

Lemma brk_kept_trans (t1 t2 t3 : brk_tree) :
  brk_kept t1 t2 -> brk_kept t2 t3 -> brk_kept t1 t3.
Proof.
  intros H12 H23 key b H.
  destruct (H12 key b H) as (b2 & L2 & A2 & S2 & P2 & E2).
  destruct (H23 key b2 L2) as (b3 & L3 & A3 & S3 & P3 & E3).
  exists b3. repeat split; [assumption | congruence.. | lia].
Qed.

Lemma brk_stamped_refl (c : cert) (t : brk_tree) : brk_stamped c t t.
Proof. intros key b H. now left. Qed.

Lemma brk_stamped_trans (c : cert) (t1 t2 t3 : brk_tree) :
  brk_stamped c t1 t2 -> brk_stamped c t2 t3 -> brk_stamped c t1 t3.
Proof.
  intros H12 H23 key b H.
  destruct (H23 key b H) as [H2|H2]; [|now right]. apply (H12 key b H2).
Qed.

Lemma insert_brk_kept (c : cert) (tree tree' : brk_tree) (asid : Z) :
  insert_brk tree c asid = Ok tree' -> brk_kept tree tree'.
Proof.
  intros H.
  destruct (tal c) as [t|] eqn:Et;
    [|unfold insert_brk in H; now rewrite Et in H].
  destruct (ski c) as [s|] eqn:Es;
    [|unfold insert_brk in H; now rewrite Et, Es in H].
  destruct (pubkey c) as [k|] eqn:Ek;
    [|unfold insert_brk in H; now rewrite Et, Es, Ek in H].
  rewrite (insert_brk_unfold c t s k Et Es Ek) in H.
  destruct (tree !! (to_uint32 asid, s, k)) as [found|] eqn:Ef.
  - destruct (Z.ltb_spec (brk_expires found) (expires c)) as [Hlt|Hge];
      injection H as <-; [|apply brk_kept_refl].
    intros key b Hb.
    destruct (decide (key = (to_uint32 asid, s, k))) as [->|Hne].
    + rewrite lookup_insert_eq. eexists. split; [reflexivity|].
      assert (b = found) as -> by congruence. cbn. repeat split. lia.
    + rewrite lookup_insert_ne by congruence. exists b.
      repeat split; [assumption | lia].
  - injection H as <-. intros key b Hb.
    rewrite lookup_insert_ne by congruence. exists b.
    repeat split; [assumption | lia].
Qed.

Lemma insert_brk_stamped (c : cert) (tree tree' : brk_tree) (asid : Z) :
  insert_brk tree c asid = Ok tree' -> brk_stamped c tree tree'.
Proof.
  intros H.
  destruct (tal c) as [t|] eqn:Et;
    [|unfold insert_brk in H; now rewrite Et in H].
  destruct (ski c) as [s|] eqn:Es;
    [|unfold insert_brk in H; now rewrite Et, Es in H].
  destruct (pubkey c) as [k|] eqn:Ek;
    [|unfold insert_brk in H; now rewrite Et, Es, Ek in H].
  rewrite (insert_brk_unfold c t s k Et Es Ek) in H.
  destruct (tree !! (to_uint32 asid, s, k)) as [found|] eqn:Ef.
  - destruct (Z.ltb_spec (brk_expires found) (expires c)) as [Hlt|Hge];
      injection H as <-; [|apply brk_stamped_refl].
    intros key b Hb.
    destruct (decide (key = (to_uint32 asid, s, k))) as [->|Hne].
    + rewrite lookup_insert_eq in Hb. injection Hb as <-. right. now cbn.
    + rewrite lookup_insert_ne in Hb by congruence. now left.
  - injection H as <-. intros key b Hb.
    destruct (decide (key = (to_uint32 asid, s, k))) as [->|Hne].
    + rewrite lookup_insert_eq in Hb. injection Hb as <-. right. now cbn.
    + rewrite lookup_insert_ne in Hb by congruence. now left.
Qed.

(** A relation that every [insert_brk] establishes, and that is reflexive
    and transitive, holds between the set before and after
    [cert_insert_brks]. *)
Lemma brk_range_loop_inv (R : brk_tree -> brk_tree -> Prop) (c : cert) :
  (forall t, R t t) ->
  (forall t1 t2 t3, R t1 t2 -> R t2 t3 -> R t1 t3) ->
  (forall t asid t', insert_brk t c asid = Ok t' -> R t t') ->
  forall fuel tree asid max n tree' m,
    brk_range_loop fuel tree c asid max n = Some (Ok (tree', m)) ->
    R tree tree'.
Proof.
  intros Hrefl Htrans Hstep.
  induction fuel as [|fuel IH]; intros tree asid max n tree' m; simpl;
    [discriminate|].
  destruct (asid <=? max).
  - destruct (insert_brk tree c (to_int asid)) as [t1| |] eqn:E;
      try discriminate.
    intros H. apply (Htrans _ t1); [eapply Hstep; eassumption|].
    eapply IH; eassumption.
  - intros [= <- <-]. apply Hrefl.
Qed.

Lemma cert_insert_brks_as_inv (R : brk_tree -> brk_tree -> Prop) (c : cert) :
  (forall t, R t t) ->
  (forall t1 t2 t3, R t1 t2 -> R t2 t3 -> R t1 t3) ->
  (forall t asid t', insert_brk t c asid = Ok t' -> R t t') ->
  forall fuel las tree tree',
    cert_insert_brks_as fuel tree c las = Some (Ok tree') ->
    R tree tree'.
Proof.
  intros Hrefl Htrans Hstep fuel.
  induction las as [|a las IH]; intros tree tree'; simpl.
  - intros [= <-]. apply Hrefl.
  - destruct a as [id|mn mx|].
    + destruct (insert_brk tree c (to_int id)) as [t1| |] eqn:E;
        try discriminate.
      intros H. apply (Htrans _ t1); [eapply Hstep; eassumption|].
      now apply IH.
    + destruct (brk_range_loop fuel tree c mn mx O) as [[[t1 m]| |]|] eqn:E;
        try discriminate.
      intros H. apply (Htrans _ t1); [|now apply IH].
      eapply (brk_range_loop_inv R c Hrefl Htrans Hstep); eassumption.
    + apply IH.
Qed.

(** X12. [cert_insert_brks] never removes a router key and never moves an
    expiry back: every entry of the set is still there afterwards under
    its key, with its AS number, SKI and public key, and an expiry that is
    not earlier; and every entry of the resulting set is either an entry
    of the set as it was, or carries the expiry and the TAL of the
    certificate. *)
Theorem cert_insert_brks_keeps_entries (fuel : nat) (tree tree' : brk_tree)
    (c : cert) :
  cert_insert_brks fuel tree c = Some (Ok tree') ->
  brk_kept tree tree' /\ brk_stamped c tree tree'.
Proof.
  unfold cert_insert_brks. intros H. split.
  - eapply (cert_insert_brks_as_inv brk_kept c); eauto using brk_kept_refl,
      brk_kept_trans, insert_brk_kept.
  - eapply (cert_insert_brks_as_inv (brk_stamped c) c);
      eauto using brk_stamped_refl, brk_stamped_trans, insert_brk_stamped.
Qed.

Lemma cert_insert_brks_keeps_entries_witness :
  exists tree',
    cert_insert_brks 10 Sample.brks Sample.router_cert = Some (Ok tree') /\
    brk_kept Sample.brks tree' /\
    brk_stamped Sample.router_cert Sample.brks tree'.
Proof.
  destruct (insert_brks_ok Sample.router_cert "example" "RTR:SKI" "MFkw"
              eq_refl eq_refl eq_refl [64500; 64501; 64502; 64510]
              Sample.brks) as [tree' Ht].
  assert (E : cert_insert_brks 10 Sample.brks Sample.router_cert
              = Some (Ok tree')).
  { unfold cert_insert_brks.
    rewrite (cert_insert_brks_as_fold Sample.router_cert "example"
               "RTR:SKI" "MFkw" eq_refl eq_refl eq_refl 10
               (as_ Sample.router_cert) Sample.brks
               [64500; 64501; 64502; 64510] eq_refl).
    now rewrite Ht. }
  exists tree'. split; [exact E|].
  exact (cert_insert_brks_keeps_entries 10 Sample.brks tree'
           Sample.router_cert E).
Defined.

(** The numbers [brk_asids] lists are those of the AS resources. *)
Lemma brk_asids_listed (fuel : nat) (las : list cert_as) :
  Forall as_entry_uint32 las -> brk_fuel las <= Z.of_nat fuel ->
  exists l,
    brk_asids fuel las = Some l /\
    (forall n, as_listed n las -> n ∈ l) /\
    (forall n, n ∈ l -> 0 <= n <= UINT32_MAX).
Proof.
  unfold as_listed.
  induction las as [|a las IH]; intros Hall Hf; simpl.
  - exists []. split; [reflexivity|]. split.
    + intros n H. inversion H.
    + intros n H. inversion H.
  - inversion Hall as [|? ? Ha Hall']; subst.
    pose proof (brk_fuel_pos las) as Hpos.
    destruct a as [id|mn mx|]; simpl in Hf.
    + destruct IH as (l & -> & Hin & Hrange); [assumption | lia |].
      exists (id :: l). split; [reflexivity|]. split.
      * intros n H. apply Exists_cons in H. destruct H as [->|H].
        -- apply list_elem_of_here.
        -- apply list_elem_of_further. now apply Hin.
      * intros n H. apply elem_of_cons in H. destruct H as [->|H].
        -- exact Ha.
        -- now apply Hrange.
    + destruct Ha as [Hmn Hmx].
      destruct IH as (l & El & Hin & Hrange); [assumption | lia |].
      rewrite El.
      destruct (Z.leb_spec mn mx) as [Hle|Hgt].
      * rewrite (range_asids_seqZ (Z.to_nat (mx - mn + 1)) fuel mn mx)
          by lia.
        eexists. split; [reflexivity|]. split.
        -- intros n H. apply Exists_cons in H. apply elem_of_app.
           destruct H as [H|H]; [left | right; now apply Hin].
           apply elem_of_seqZ. lia.
        -- intros n H. apply elem_of_app in H. destruct H as [H|H].
           ++ apply elem_of_seqZ in H. lia.
           ++ now apply Hrange.
      * destruct fuel as [|fuel]; [lia|]. cbn [range_asids].
        destruct (Z.leb_spec mn mx) as [Hle'|_]; [lia|].
        exists l. split; [reflexivity|]. split.
        -- intros n H. apply Exists_cons in H.
           destruct H as [H|H]; [lia | now apply Hin].
        -- exact Hrange.
    + destruct IH as (l & -> & Hin & Hrange); [assumption | lia |].
      exists l. split; [reflexivity|]. split; [|exact Hrange].
      intros n H. apply Exists_cons in H.
      destruct H as [[]|H]. now apply Hin.
Qed.

Lemma insert_brks_kept (c : cert) (l : list Z) (tree tree' : brk_tree) :
  insert_brks tree c l = Ok tree' -> brk_kept tree tree'.
Proof.
  revert tree. induction l as [|a l IH]; intros tree; simpl.
  - intros [= <-]. apply brk_kept_refl.
  - destruct (insert_brk tree c (to_int a)) as [t1| |] eqn:E;
      try discriminate.
    cbn [mbind result_bind]. intros H.
    apply (brk_kept_trans _ t1); [eapply insert_brk_kept; eassumption|].
    now apply IH.
Qed.

Section BrkPresence.

Variable c : cert.
Variables t s k : string.
Hypothesis Htal : tal c = Some t.
Hypothesis Hski : ski c = Some s.
Hypothesis Hpubkey : pubkey c = Some k.

Lemma brk_present_kept (l : list Z) (tree tree' : brk_tree) :
  brk_kept tree tree' -> brk_present c s k l tree ->
  brk_present c s k l tree'.
Proof.
  intros Hk Hp n Hn. destruct (Hp n Hn) as (b & Hb & He).
  destruct (Hk _ b Hb) as (b' & Hb' & _ & _ & _ & He').
  exists b'. split; [assumption | lia].
Qed.

Lemma insert_brk_present (tree tree' : brk_tree) (asid : Z) :
  insert_brk tree c asid = Ok tree' ->
  exists b,
    tree' !! (to_uint32 asid, s, k) = Some b /\ expires c <= brk_expires b.
Proof.
  rewrite (insert_brk_unfold c t s k Htal Hski Hpubkey).
  destruct (tree !! (to_uint32 asid, s, k)) as [found|] eqn:Ef.
  - destruct (Z.ltb_spec (brk_expires found) (expires c)) as [Hlt|Hge];
      intros [= <-].
    + rewrite lookup_insert_eq. eexists. split; [reflexivity|]. cbn. lia.
    + exists found. split; [assumption | lia].
  - intros [= <-]. rewrite lookup_insert_eq. eexists.
    split; [reflexivity|]. cbn. lia.
Qed.

Lemma insert_brks_present (l : list Z) (tree tree' : brk_tree) :
  insert_brks tree c l = Ok tree' -> brk_present c s k l tree'.
Proof.
  revert tree. induction l as [|a l IH]; intros tree; simpl.
  - intros _ n Hn. inversion Hn.
  - destruct (insert_brk tree c (to_int a)) as [t1| |] eqn:E;
      try discriminate.
    cbn [mbind result_bind]. intros H n Hn.
    apply elem_of_cons in Hn. destruct Hn as [->|Hn].
    + destruct (insert_brk_present _ _ _ E) as (b & Hb & He).
      rewrite to_uint32_to_int in Hb.
      apply (brk_present_kept [a] t1 tree').
      * eapply insert_brks_kept; eassumption.
      * intros m Hm. apply list_elem_of_singleton in Hm. subst m. eauto.
      * apply list_elem_of_here.
    + now apply (IH t1).
Qed.

(** Inserting numbers that are present changes nothing. *)
Lemma insert_brks_noop (l : list Z) (tree : brk_tree) :
  brk_present c s k l tree -> insert_brks tree c l = Ok tree.
Proof.
  induction l as [|a l IH]; intros Hp; simpl; [reflexivity|].
  rewrite (insert_brk_unfold c t s k Htal Hski Hpubkey), to_uint32_to_int.
  destruct (Hp a) as (b & -> & He); [apply list_elem_of_here|].
  destruct (Z.ltb_spec (brk_expires b) (expires c)); [lia|].
  cbn [mbind result_bind]. apply IH.
  intros n Hn. apply Hp. now apply list_elem_of_further.
Qed.

(** X13. After [cert_insert_brks] every AS number the certificate lists,
    as an identifier or within a range, has an entry under the key made of
    that number, the SKI and the public key of the certificate, and that
    entry expires no earlier than the certificate.  The AS numbers above
    2^31 are not lost through the [int] parameter of [insert_brk]. *)
Theorem cert_insert_brks_covers_listed (fuel : nat) (tree : brk_tree) :
  Forall as_entry_uint32 (as_ c) ->
  brk_fuel (as_ c) <= Z.of_nat fuel ->
  exists tree',
    cert_insert_brks fuel tree c = Some (Ok tree') /\
    forall n, as_listed n (as_ c) ->
      exists b, tree' !! (n, s, k) = Some b /\ expires c <= brk_expires b.
Proof.
  intros Hall Hf.
  destruct (brk_asids_listed fuel (as_ c) Hall Hf) as (l & Hl & Hin & Hr).
  destruct (insert_brks_ok c t s k Htal Hski Hpubkey l tree) as [tree' Ht].
  exists tree'. split.
  - unfold cert_insert_brks.
    rewrite (cert_insert_brks_as_fold c t s k Htal Hski Hpubkey fuel
               (as_ c) tree l Hl).
    now rewrite Ht.
  - intros n Hn. apply Hin in Hn.
    destruct (insert_brks_present l tree tree' Ht n Hn) as (b & Hb & He).
    exists b. split; [|assumption].
    rewrite <- Hb. do 3 f_equal. unfold to_uint32.
    specialize (Hr n Hn). unfold UINT32_MAX in Hr.
    symmetry. apply Z.mod_small. lia.
Qed.

(** X14. Handing the same certificate to [cert_insert_brks] a second time
    changes nothing: the set the first call returns is returned again. *)
Theorem cert_insert_brks_twice (fuel : nat) (tree tree' : brk_tree) :
  Forall as_entry_uint32 (as_ c) ->
  brk_fuel (as_ c) <= Z.of_nat fuel ->
  cert_insert_brks fuel tree c = Some (Ok tree') ->
  cert_insert_brks fuel tree' c = Some (Ok tree').
Proof.
  intros Hall Hf.
  destruct (brk_asids_listed fuel (as_ c) Hall Hf) as (l & Hl & _ & _).
  unfold cert_insert_brks.
  rewrite !(cert_insert_brks_as_fold c t s k Htal Hski Hpubkey fuel
              (as_ c) _ l Hl).
  intros [= H]. f_equal. apply insert_brks_noop.
  now apply (insert_brks_present l tree).
Qed.

End BrkPresence.

Lemma cert_insert_brks_covers_listed_witness :
  tal Sample.router_cert = Some "example" /\
  ski Sample.router_cert = Some "RTR:SKI" /\
  pubkey Sample.router_cert = Some "MFkw" /\
  Forall as_entry_uint32 (as_ Sample.router_cert) /\
  brk_fuel (as_ Sample.router_cert) <= Z.of_nat 10 /\
  exists tree',
    cert_insert_brks 10 Sample.brks Sample.router_cert = Some (Ok tree') /\
    forall n, as_listed n (as_ Sample.router_cert) ->
      exists b, tree' !! (n, "RTR:SKI", "MFkw") = Some b /\
                expires Sample.router_cert <= brk_expires b.
Proof.
  assert (Hall : Forall as_entry_uint32 (as_ Sample.router_cert)).
  { repeat constructor; unfold UINT32_MAX; cbn; lia. }
  assert (Hf : brk_fuel (as_ Sample.router_cert) <= Z.of_nat 10).
  { vm_compute. discriminate. }
  split; [reflexivity|]. split; [reflexivity|]. split; [reflexivity|].
  split; [exact Hall|]. split; [exact Hf|].
  exact (cert_insert_brks_covers_listed Sample.router_cert "example"
           "RTR:SKI" "MFkw" eq_refl eq_refl eq_refl 10 Sample.brks Hall Hf).
Defined.

Lemma cert_insert_brks_twice_witness :
  exists tree',
    cert_insert_brks 10 Sample.brks Sample.router_cert = Some (Ok tree') /\
    cert_insert_brks 10 tree' Sample.router_cert = Some (Ok tree').
Proof.
  assert (Hall : Forall as_entry_uint32 (as_ Sample.router_cert)).
  { repeat constructor; unfold UINT32_MAX; cbn; lia. }
  assert (Hf : brk_fuel (as_ Sample.router_cert) <= Z.of_nat 10).
  { vm_compute. discriminate. }
  destruct (insert_brks_ok Sample.router_cert "example" "RTR:SKI" "MFkw"
              eq_refl eq_refl eq_refl [64500; 64501; 64502; 64510]
              Sample.brks) as [tree' Ht].
  assert (E : cert_insert_brks 10 Sample.brks Sample.router_cert
              = Some (Ok tree')).
  { unfold cert_insert_brks.
    rewrite (cert_insert_brks_as_fold Sample.router_cert "example"
               "RTR:SKI" "MFkw" eq_refl eq_refl eq_refl 10
               (as_ Sample.router_cert) Sample.brks
               [64500; 64501; 64502; 64510] eq_refl).
    now rewrite Ht. }
  exists tree'. split; [exact E|].
  exact (cert_insert_brks_twice Sample.router_cert "example" "RTR:SKI"
           "MFkw" eq_refl eq_refl eq_refl 10 Sample.brks tree' Hall Hf E).
Defined.

(** ** Records on the stream *)

(** [cert_buffer] only appends. *)
Lemma cert_buffer_app (b : list Z) (c : cert) :
  cert_buffer b c = b ++ cert_buffer [] c.
Proof.
  unfold cert_buffer, io_simple_buffer.
  rewrite !(io_str_buffer_app (io_str_buffer _ _)).
  rewrite !(io_str_buffer_app (fold_left _ _ _)).
  rewrite !(fold_left_buffer_app cert_as_buffer cert_as_buffer_app _ (_ ++ _)).
  rewrite !(fold_left_buffer_app cert_ip_buffer cert_ip_buffer_app _ (_ ++ _)).
  rewrite ?app_nil_l, <- !app_assoc. reflexivity.
Qed.

(** One record written, one record read, the rest of the stream left. *)
Lemma cert_read_one (c : cert) (rest : list Z) :
  cert_wire_ok c = true ->
  cert_read (cert_buffer [] c ++ rest) = Ok (set_x509 None c, rest).
Proof.
  unfold cert_wire_ok.
  rewrite !andb_true_iff, !Z.leb_le, !Z.ltb_lt, orb_true_iff,
    !bool_decide_eq_true.
  intros [[[[[[[[[[[[[[[[[[Hv1 Hv2] He1] He2] Hips] Has] Hipok] Hasok]
    Hmft] Hnotify] Hrepo] Hcrl] Haia] Haki] Hski] Htal] Hpubkey] Hassert1]
    Hassert2].
  unfold cert_buffer, io_simple_buffer.
  rewrite !(io_str_buffer_app (io_str_buffer _ _)).
  rewrite (io_str_buffer_app (fold_left _ _ _)).
  rewrite (fold_left_buffer_app cert_as_buffer cert_as_buffer_app _ (_ ++ _)).
  rewrite (fold_left_buffer_app cert_ip_buffer cert_ip_buffer_app _ (_ ++ _)).
  rewrite ?app_nil_l, <- !app_assoc.
  unfold cert_read.
  do 4 (rewrite io_read_le_bytes; cbn [mbind result_bind]).
  unfold SIZE_MAX, ipsz, asz in *.
  rewrite (le_value_unsigned sizeof_size_t (Z.of_nat (length (ips c))))
    by (change (256 ^ Z.of_nat sizeof_size_t) with (2 ^ 64); lia).
  rewrite Nat2Z.id.
  rewrite (read_array_buffer cert_ip_buffer cert_ip_read cert_ip_wire_ok
             cert_ip_buffer_app cert_ip_read_buffer) by assumption.
  cbn [mbind result_bind].
  rewrite io_read_le_bytes. cbn [mbind result_bind].
  rewrite (le_value_unsigned sizeof_size_t (Z.of_nat (length (as_ c))))
    by (change (256 ^ Z.of_nat sizeof_size_t) with (2 ^ 64); lia).
  rewrite Nat2Z.id.
  rewrite (read_array_buffer cert_as_buffer cert_as_read cert_as_wire_ok
             cert_as_buffer_app cert_as_read_buffer) by assumption.
  cbn [mbind result_bind].
  do 9 (rewrite io_read_str_buffer by assumption; cbn [mbind result_bind]).
  replace (purpose_of_val (le_value (le_bytes sizeof_enum
             (purpose_val (purpose c))))) with (Some (purpose c))
    by (destruct (purpose c); reflexivity).
  rewrite le_value_int, le_value_time_t by lia.
  assert (Ha : bool_decide (mft c ≠ None) ||
               bool_decide (purpose c = CERT_PURPOSE_BGPSEC_ROUTER) = true).
  { apply orb_true_iff. now rewrite !bool_decide_eq_true. }
  rewrite Ha. cbn [negb].
  rewrite bool_decide_eq_false_2 by assumption.
  destruct c; reflexivity.
Qed.

(** X15. Records that fit the stream (fields within their C types, no
    empty string, the assertions of the reader satisfied, zeroed [min] and
    [max] on inheriting IP entries) and that [cert_buffer] writes one
    after the other are read back by successive calls to [cert_read] in
    the order written, each call consuming exactly the bytes of one
    record: every record comes back with all its fields but the X.509
    handle, and what follows the records on the stream is left unread. *)
Theorem cert_stream_in_order (cs : list cert) (rest : list Z) :
  forallb cert_wire_ok cs = true ->
  read_array cert_read (length cs) (fold_left cert_buffer cs [] ++ rest) =
    Ok (map (set_x509 None) cs, rest).
Proof.
  revert rest. induction cs as [|c cs IH]; intros rest Hok; simpl.
  - reflexivity.
  - cbn [forallb] in Hok. apply andb_true_iff in Hok.
    destruct Hok as [Hc Hcs].
    rewrite (fold_left_buffer_app cert_buffer cert_buffer_app),
      <- app_assoc, cert_buffer_app, app_nil_l.
    rewrite cert_read_one by assumption. cbn [mbind result_bind].
    rewrite IH by assumption. reflexivity.
Qed.

Lemma cert_stream_in_order_witness :
  forallb cert_wire_ok [Sample.ta_cert; Sample.router_cert] = true /\
  read_array cert_read 2
    (fold_left cert_buffer [Sample.ta_cert; Sample.router_cert] []
       ++ [7; 7]) =
    Ok ([set_x509 None Sample.ta_cert; set_x509 None Sample.router_cert],
        [7; 7]).
Proof.
  assert (H : forallb cert_wire_ok [Sample.ta_cert; Sample.router_cert]
              = true) by (vm_compute; reflexivity).
  split; [exact H|].
  exact (cert_stream_in_order [Sample.ta_cert; Sample.router_cert] [7; 7] H).
Defined.

(** X16. The encoding of a record is unambiguous: two records that fit the
    stream and are written as the same bytes agree in every field but the
    X.509 handle. *)
Theorem cert_buffer_injective (c1 c2 : cert) :
  cert_wire_ok c1 = true -> cert_wire_ok c2 = true ->
  cert_buffer [] c1 = cert_buffer [] c2 ->
  set_x509 None c1 = set_x509 None c2.
Proof.
  intros H1 H2 E.
  pose proof (cert_read_one c1 [] H1) as R1.
  pose proof (cert_read_one c2 [] H2) as R2.
  rewrite E in R1. rewrite R1 in R2. congruence.
Qed.

Lemma cert_buffer_injective_witness :
  cert_wire_ok Sample.ta_cert = true /\
  set_x509 None Sample.ta_cert = set_x509 None (set_x509 None Sample.ta_cert).
Proof.
  assert (H1 : cert_wire_ok Sample.ta_cert = true) by (vm_compute; reflexivity).
  assert (H2 : cert_wire_ok (set_x509 None Sample.ta_cert) = true)
    by (vm_compute; reflexivity).
  split; [exact H1|].
  apply (cert_buffer_injective Sample.ta_cert (set_x509 None Sample.ta_cert)
           H1 H2).
  vm_compute. reflexivity.
Defined.

(** ** The orders of the trees *)

Lemma c_string_cons (x : ascii) (s : string) :
  c_string (String x s) <-> C.code x <> 0 /\ c_string s.
Proof.
  unfold c_string. cbn [chars].
  split; [intros H; now inversion H | intros [? ?]; now constructor].
Qed.

Lemma strcmp_antisym (a b : string) : C.strcmp b a = - C.strcmp a b.
Proof.
  revert b. induction a as [|x a IH]; intros [|y b]; cbn [C.strcmp];
    try lia.
  rewrite (Z.eqb_sym (C.code y)).
  destruct (Z.eqb_spec (C.code x) (C.code y)); [apply IH | lia].
Qed.

Lemma strcmp_eq (a b : string) :
  c_string a -> c_string b -> (C.strcmp a b = 0 <-> a = b).
Proof.
  revert b. induction a as [|x a IH]; intros [|y b] Ha Hb; cbn [C.strcmp].
  - tauto.
  - apply c_string_cons in Hb. split; [lia | discriminate].
  - apply c_string_cons in Ha. split; [lia | discriminate].
  - apply c_string_cons in Ha. apply c_string_cons in Hb.
    destruct Ha as [_ Ha]. destruct Hb as [_ Hb].
    destruct (Z.eqb_spec (C.code x) (C.code y)) as [E|E].
    + apply code_inj in E. subst y. rewrite (IH b Ha Hb).
      split; [now intros -> | now intros [= ->]].
    + split; [lia | intros [= -> _]; contradiction].
Qed.

Lemma strcmp_trans (a b c : string) :
  c_string a -> c_string b -> c_string c ->
  C.strcmp a b < 0 -> C.strcmp b c < 0 -> C.strcmp a c < 0.
Proof.
  revert b c. induction a as [|x a IH].
  - intros [|y b] [|z c] Ha Hb Hc; cbn [C.strcmp]; try lia.
    rewrite c_string_cons in Hc. pose proof (code_range z). lia.
  - intros [|y b] [|z c] Ha Hb Hc; cbn [C.strcmp];
      rewrite ?c_string_cons in Ha, Hb, Hc; pose proof (code_range x);
      try lia.
    + pose proof (code_range y). lia.
    + destruct (Z.eqb_spec (C.code x) (C.code y)) as [E1|E1];
        destruct (Z.eqb_spec (C.code y) (C.code z)) as [E2|E2];
        destruct (Z.eqb_spec (C.code x) (C.code z)) as [E3|E3]; try lia.
      apply IH; tauto.
Qed.

(** X18. [brkcmp] is an order on the keys [(asid, ski, pubkey)]: two
    records compare equal exactly when they have the same AS number, SKI
    and public key, whatever their TAL and expiry; swapping the arguments
    swaps the sign; and the order is transitive. *)
Theorem brkcmp_orders_keys (a b c : brk) :
  brk_strings a -> brk_strings b -> brk_strings c ->
  (brkcmp a b = 0 <-> brk_key_of a = brk_key_of b) /\
  (brkcmp a b < 0 <-> 0 < brkcmp b a) /\
  (brkcmp a b < 0 -> brkcmp b c < 0 -> brkcmp a c < 0).
Proof.
  intros [Sa Pa] [Sb Pb] [Sc Pc].
  pose proof (strcmp_eq _ _ Sa Sb) as Es.
  pose proof (strcmp_eq _ _ Pa Pb) as Ep.
  pose proof (strcmp_antisym (brk_ski a) (brk_ski b)) as As.
  pose proof (strcmp_antisym (brk_pubkey a) (brk_pubkey b)) as Ap.
  unfold brkcmp, brk_key_of. cbn zeta.
  split; [|split].
  - destruct (Z.gtb_spec (brk_asid a) (brk_asid b)).
    { split; [lia | intros [= ? _ _]; lia]. }
    destruct (Z.ltb_spec (brk_asid a) (brk_asid b)).
    { split; [lia | intros [= ? _ _]; lia]. }
    destruct (Z.gtb_spec (C.strcmp (brk_ski a) (brk_ski b)) 0).
    { split; [lia | intros [= _ E _]; apply Es in E; lia]. }
    destruct (Z.ltb_spec (C.strcmp (brk_ski a) (brk_ski b)) 0).
    { split; [lia | intros [= _ E _]; apply Es in E; lia]. }
    assert (E : brk_ski a = brk_ski b) by (apply Es; lia).
    rewrite Ep. split.
    + intros E'. f_equal; [f_equal; [lia | exact E] | exact E'].
    + now intros [= _ _ ?].
  - rewrite As, Ap.
    destruct (Z.gtb_spec (brk_asid a) (brk_asid b));
      destruct (Z.gtb_spec (brk_asid b) (brk_asid a));
      destruct (Z.ltb_spec (brk_asid a) (brk_asid b));
      destruct (Z.ltb_spec (brk_asid b) (brk_asid a)); try lia.
    destruct (Z.gtb_spec (C.strcmp (brk_ski a) (brk_ski b)) 0);
      destruct (Z.gtb_spec (- C.strcmp (brk_ski a) (brk_ski b)) 0);
      destruct (Z.ltb_spec (C.strcmp (brk_ski a) (brk_ski b)) 0);
      destruct (Z.ltb_spec (- C.strcmp (brk_ski a) (brk_ski b)) 0); lia.
  - destruct (Z.gtb_spec (brk_asid a) (brk_asid b)); [lia|].
    destruct (Z.gtb_spec (brk_asid b) (brk_asid c)); [lia|].
    destruct (Z.gtb_spec (brk_asid a) (brk_asid c)); [lia|].
    destruct (Z.ltb_spec (brk_asid a) (brk_asid b));
      destruct (Z.ltb_spec (brk_asid b) (brk_asid c));
      destruct (Z.ltb_spec (brk_asid a) (brk_asid c)); try lia.
    pose proof (strcmp_trans _ _ _ Sa Sb Sc) as Ts.
    pose proof (strcmp_trans _ _ _ Pa Pb Pc) as Tp.
    pose proof (strcmp_eq _ _ Sb Sc) as Es'.
    destruct (Z.gtb_spec (C.strcmp (brk_ski a) (brk_ski b)) 0); [lia|].
    destruct (Z.gtb_spec (C.strcmp (brk_ski b) (brk_ski c)) 0); [lia|].
    destruct (Z.ltb_spec (C.strcmp (brk_ski a) (brk_ski b)) 0) as [L1|L1];
      destruct (Z.ltb_spec (C.strcmp (brk_ski b) (brk_ski c)) 0) as [L2|L2].
    + intros _ _. specialize (Ts L1 L2).
      destruct (Z.gtb_spec (C.strcmp (brk_ski a) (brk_ski c)) 0); [lia|].
      destruct (Z.ltb_spec (C.strcmp (brk_ski a) (brk_ski c)) 0); lia.
    + intros _ _.
      assert (E : brk_ski b = brk_ski c) by (apply Es'; lia).
      rewrite <- E.
      destruct (Z.gtb_spec (C.strcmp (brk_ski a) (brk_ski b)) 0); [lia|].
      destruct (Z.ltb_spec (C.strcmp (brk_ski a) (brk_ski b)) 0); lia.
    + intros _ _.
      assert (E : brk_ski a = brk_ski b) by (apply Es; lia).
      rewrite E.
      destruct (Z.gtb_spec (C.strcmp (brk_ski b) (brk_ski c)) 0); [lia|].
      destruct (Z.ltb_spec (C.strcmp (brk_ski b) (brk_ski c)) 0); lia.
    + assert (E : brk_ski a = brk_ski b) by (apply Es; lia).
      assert (E' : brk_ski b = brk_ski c) by (apply Es'; lia).
      rewrite E, E'.
      assert (Z0 : C.strcmp (brk_ski c) (brk_ski c) = 0)
        by (now apply strcmp_eq).
      rewrite Z0. cbn. exact Tp.
Qed.

Lemma brkcmp_orders_keys_witness :
  brkcmp Sample.brk_64501
    {| brk_asid := 64501; brk_tal := "example"; brk_ski := "RTR:SKI";
       brk_pubkey := "MFkw"; brk_expires := 1700000000 |} = 0 /\
  brkcmp Sample.brk_64501
    {| brk_asid := 64501; brk_tal := "older"; brk_ski := "RTR:SKJ";
       brk_pubkey := "MFkw"; brk_expires := 1600000000 |} < 0.
Proof.
  assert (S1 : brk_strings Sample.brk_64501).
  { split; repeat constructor; discriminate. }
  assert (S2 : brk_strings
                 {| brk_asid := 64501; brk_tal := "example";
                    brk_ski := "RTR:SKI"; brk_pubkey := "MFkw";
                    brk_expires := 1700000000 |}).
  { split; repeat constructor; discriminate. }
  assert (S3 : brk_strings
                 {| brk_asid := 64501; brk_tal := "older";
                    brk_ski := "RTR:SKJ"; brk_pubkey := "MFkw";
                    brk_expires := 1600000000 |}).
  { split; repeat constructor; discriminate. }
  split.
  - apply (brkcmp_orders_keys _ _ Sample.brk_64501 S1 S2 S1). reflexivity.
  - apply (brkcmp_orders_keys _ _ Sample.brk_64501 S1 S3 S1). reflexivity.
Defined.

(** X19. [authcmp] orders the nodes by the SKI of their certificates: two
    nodes compare equal exactly when their SKIs are the same string, so
    that a tree holds at most one node per SKI; swapping the arguments
    swaps the sign, and the order is transitive. *)
Theorem authcmp_orders_skis (a b c : auth) (x y z : string) :
  ski (auth_cert a) = Some x -> ski (auth_cert b) = Some y ->
  ski (auth_cert c) = Some z ->
  c_string x -> c_string y -> c_string z ->
  (authcmp a b = Ok 0 <-> x = y) /\
  (exists v, authcmp a b = Ok v /\ authcmp b a = Ok (- v)) /\
  (forall u v, authcmp a b = Ok u -> authcmp b c = Ok v ->
     u < 0 -> v < 0 -> exists w, authcmp a c = Ok w /\ w < 0).
Proof.
  intros Ha Hb Hc Sx Sy Sz. unfold authcmp. rewrite Ha, Hb, Hc.
  split; [|split].
  - rewrite <- (strcmp_eq x y Sx Sy).
    split; [now intros [= ?] | now intros ->].
  - exists (C.strcmp x y). split; [reflexivity|].
    now rewrite strcmp_antisym.
  - intros u v [= <-] [= <-] Hu Hv. eexists. split; [reflexivity|].
    now apply (strcmp_trans x y z).
Qed.

Lemma authcmp_orders_skis_witness :
  authcmp Sample.ta_auth Sample.ta_auth = Ok 0 <-> "TA:SKI" = "TA:SKI".
Proof.
  assert (S1 : c_string "TA:SKI") by (repeat constructor; discriminate).
  apply (authcmp_orders_skis Sample.ta_auth Sample.ta_auth Sample.ta_auth
           "TA:SKI" "TA:SKI" "TA:SKI" eq_refl eq_refl eq_refl S1 S1 S1).
Defined.
